(** * Batch video transcoder: the scheduling core of [batch-video-transcoder.py]

    A shallow embedding of the two counting queues, the two worker loops,
    the seeding of the encode queue and the completion-detection loop, with
    the properties the design document states about them; then the command
    lines of the two external programs and further properties of the
    queue, the parser, the output names and the runs of the event loop.

    Conventions.
    - A Python [str] is a list of Unicode code points ([N]); [bytes] is a
      list of [byte].  Python integers are [Z].
    - [os.path] is [posixpath] (the script's default output directory is
      [./out]).
    - [asyncio.Queue] is the base class of [CustomAsyncQueue]; the fields
      and guards of the base class that the subclass relies on through
      [super()] are written out. *)

From Stdlib Require Import List ZArith NArith QArith Bool Lia.
From Stdlib Require Import Strings.Ascii Strings.String Strings.Byte.
From Stdlib Require DecimalString DecimalZ.
Import ListNotations.

Local Open Scope Z_scope.

(** ** Python values used by the script *)

Definition str := list N.
Definition bytes := list byte.

(** A string literal of the source, as code points. *)
Definition lit (s : string) : str :=
  map (fun a => N_of_ascii a) (list_ascii_of_string s).

Definition str_eqb (a b : str) : bool :=
  if list_eq_dec N.eq_dec a b then true else false.

(** Both queues carry 3-tuples: [(in_path, out_path, cq)] on the transcode
    queue and [(distorted, reference, cq)] on the vmaf queue. *)
Definition item := (str * str * Z)%type.

(** Exceptions that the modelled code can raise. *)
Inductive exn :=
| QueueFull
| ValueError
| UnboundLocalError
| OSError
| CancelledError
| UnicodeDecodeError.

(** The outcome of running a piece of code: a value, an exception, or
    suspension at an [await] that cannot proceed yet. *)
Inductive outcome (A : Type) :=
| Val (a : A)
| Exc (e : exn)
| Blocked.
Arguments Val {A} a.
Arguments Exc {A} e.
Arguments Blocked {A}.

(** ** [CustomAsyncQueue] *)

Module Queue.

(** [maxsize], [_queue] and [_unfinished_tasks] are the state of
    [asyncio.Queue]; [_unfinished_tasks_custom] is added by the subclass. *)
Record t := mk {
  maxsize : Z;
  _queue : list item;
  _unfinished_tasks : Z;
  _unfinished_tasks_custom : Z
}.

(** [__init__(self, maxsize=0)] *)
Definition init (maxsize : Z) : t := mk maxsize [] 0 0.

Definition qsize (q : t) : Z := Z.of_nat (List.length (_queue q)).

(** [asyncio.Queue.full] *)
Definition full (q : t) : bool :=
  if maxsize q <=? 0 then false else maxsize q <=? qsize q.

(** [asyncio.Queue.empty] *)
Definition empty (q : t) : bool :=
  match _queue q with [] => true | _ => false end.

(** [asyncio.Queue.put_nowait]: raises [QueueFull] before touching the
    state, otherwise appends and counts the item. *)
Definition base_put_nowait (x : item) (q : t) : outcome unit * t :=
  if full q then (Exc QueueFull, q)
  else (Val tt, mk (maxsize q) (_queue q ++ [x]) (_unfinished_tasks q + 1)
                   (_unfinished_tasks_custom q)).

(** [asyncio.Queue.task_done]: raises [ValueError] when called more
    often than items were put. *)
Definition base_task_done (q : t) : outcome unit * t :=
  if _unfinished_tasks q <=? 0 then (Exc ValueError, q)
  else (Val tt, mk (maxsize q) (_queue q) (_unfinished_tasks q - 1)
                   (_unfinished_tasks_custom q)).

Definition bump_custom (d : Z) (q : t) : t :=
  mk (maxsize q) (_queue q) (_unfinished_tasks q)
     (_unfinished_tasks_custom q + d).

(** [put_nowait]: [super().put_nowait(item)] and then the increment; an
    exception of the base call skips the increment. *)
Definition put_nowait (x : item) (q : t) : outcome unit * t :=
  match base_put_nowait x q with
  | (Val _, q') => (Val tt, bump_custom 1 q')
  | (o, q') => (o, q')
  end.

(** [task_done]: [super().task_done()] and then the decrement. *)
Definition task_done (q : t) : outcome unit * t :=
  match base_task_done q with
  | (Val _, q') => (Val tt, bump_custom (-1) q')
  | (o, q') => (o, q')
  end.

(** [get_unfinished_tasks] *)
Definition get_unfinished_tasks (q : t) : Z := _unfinished_tasks_custom q.

(** [asyncio.Queue.put] (inherited): waits while the queue is full, then
    calls [self.put_nowait], which is the override above. *)
Definition put (x : item) (q : t) : outcome unit * t :=
  if full q then (Blocked, q) else put_nowait x q.

(** [asyncio.Queue.get] (inherited): waits while the queue is empty,
    then pops the oldest item.  No counter is touched. *)
Definition get (q : t) : outcome item * t :=
  match _queue q with
  | [] => (Blocked, q)
  | x :: rest =>
      (Val x, mk (maxsize q) rest (_unfinished_tasks q)
                 (_unfinished_tasks_custom q))
  end.

(** Operations a client can issue, for statements over arbitrary
    sequences of calls. *)
Inductive op :=
| PutNowait (x : item)
| Put (x : item)
| Get
| TaskDone
| GetUnfinishedTasks.

(** One call: whether it returned normally, and the queue afterwards. *)
Definition returned {A} (o : outcome A) : bool :=
  match o with Val _ => true | _ => false end.

Definition apply (o : op) (q : t) : bool * t :=
  match o with
  | PutNowait x => let '(r, q') := put_nowait x q in (returned r, q')
  | Put x => let '(r, q') := put x q in (returned r, q')
  | Get => let '(r, q') := get q in (returned r, q')
  | TaskDone => let '(r, q') := task_done q in (returned r, q')
  | GetUnfinishedTasks => (true, q)
  end.

Fixpoint run (ops : list op) (q : t) : t :=
  match ops with
  | [] => q
  | o :: rest => run rest (snd (apply o q))
  end.

Definition is_enqueue (o : op) : bool :=
  match o with PutNowait _ | Put _ => true | _ => false end.

Definition is_mark_done (o : op) : bool :=
  match o with TaskDone => true | _ => false end.

(** Number of calls selected by [sel] in [ops], started from [q]; with
    [only_returned] only the calls that returned normally count. *)
Fixpoint count (sel : op -> bool) (only_returned : bool)
         (ops : list op) (q : t) : Z :=
  match ops with
  | [] => 0
  | o :: rest =>
      let '(ok, q') := apply o q in
      (if sel o && (ok || negb only_returned) then 1 else 0)
      + count sel only_returned rest q'
  end.

(** Queues the program can hold: built by [CustomAsyncQueue()] and then
    used through the methods. *)
Definition reachable (q : t) : Prop := exists ops, q = run ops (init 0).

End Queue.

(** ** The shared state and the monad of the coroutines

    The two queues are the only state the coroutines share.  [trace] is a
    ghost log of what was done, in order: it records every queue call that
    returned normally and every external process that was started. *)

Inductive qid := TQ | VQ.

Inductive external :=
| Encode (in_path out_path : str) (cq : Z)
| Measure (distorted reference : str).

Inductive event :=
| EvGet (q : qid) (x : item)
| EvPut (q : qid) (x : item)
| EvTaskDone (q : qid)
| EvRun (p : external)
| EvTerminate.

Record world := mkWorld {
  transcode_q : Queue.t;
  vmaf_q : Queue.t;
  trace : list event
}.

Definition queue_of (q : qid) (w : world) : Queue.t :=
  match q with TQ => transcode_q w | VQ => vmaf_q w end.

Definition set_queue (q : qid) (v : Queue.t) (w : world) : world :=
  match q with
  | TQ => mkWorld v (vmaf_q w) (trace w)
  | VQ => mkWorld (transcode_q w) v (trace w)
  end.

Definition M (A : Type) := world -> outcome A * world.

Definition ret {A} (a : A) : M A := fun w => (Val a, w).

Definition bind {A B} (m : M A) (f : A -> M B) : M B :=
  fun w =>
    match m w with
    | (Val a, w') => f a w'
    | (Exc e, w') => (Exc e, w')
    | (Blocked, w') => (Blocked, w')
    end.

Definition raise {A} (e : exn) : M A := fun w => (Exc e, w).

Definition log (e : event) : M unit :=
  fun w => (Val tt, mkWorld (transcode_q w) (vmaf_q w) (trace w ++ [e])).

Declare Scope coro_scope.
Delimit Scope coro_scope with coro.
Notation "x <- m ;; k" := (bind m (fun x => k))
  (at level 61, m at next level, right associativity) : coro_scope.
Notation "m ;; k" := (bind m (fun _ => k))
  (at level 61, right associativity) : coro_scope.
Local Open Scope coro_scope.

(** A queue method run on one of the two queues; a call that returns is
    logged. *)
Definition on_queue {A} (q : qid) (f : Queue.t -> outcome A * Queue.t)
           (ev : A -> event) : M A :=
  fun w =>
    match f (queue_of q w) with
    | (Val a, q') =>
        let w' := set_queue q q' w in
        (Val a, mkWorld (transcode_q w') (vmaf_q w') (trace w' ++ [ev a]))
    | (Exc e, q') => (Exc e, set_queue q q' w)
    | (Blocked, q') => (Blocked, set_queue q q' w)
    end.

Definition q_get (q : qid) : M item := on_queue q Queue.get (EvGet q).

Definition q_put (q : qid) (x : item) : M unit :=
  on_queue q (Queue.put x) (fun _ => EvPut q x).

Definition q_put_nowait (q : qid) (x : item) : M unit :=
  on_queue q (Queue.put_nowait x) (fun _ => EvPut q x).

Definition q_task_done (q : qid) : M unit :=
  on_queue q Queue.task_done (fun _ => EvTaskDone q).

Definition outstanding (q : qid) (w : world) : Z :=
  Queue.get_unfinished_tasks (queue_of q w).

Definition pending (q : qid) (w : world) : list item :=
  Queue._queue (queue_of q w).

(** ** External processes

    What one [ffmpeg] invocation does is an input of the model:
    [create_subprocess_exec] raises, or the process runs and exits with a
    return code after writing [stdout], or [communicate] is interrupted
    while the process still runs. *)
Inductive exec_outcome :=
| SpawnRaises
| Exited (stdout : bytes) (returncode : Z)
| Interrupted.

(** [ffmpeg_run_async].  The command line is not modelled; [p] names the
    invocation for the log.  In the [finally] block [process] is unbound
    when [create_subprocess_exec] raised, so reading [process.returncode]
    raises [UnboundLocalError]; after a normal exit the return code is set
    and nothing is terminated; the return code is not looked at otherwise.
    [stderr] is redirected into [stdout], so the second component is
    [None]. *)
Definition ffmpeg_run_async (p : external) (o : exec_outcome)
  : M (bytes * option bytes) :=
  log (EvRun p) ;;
  match o with
  | SpawnRaises => raise UnboundLocalError
  | Exited stdout _ => ret (stdout, None)
  | Interrupted => log EvTerminate ;; raise CancelledError
  end.

(** [transcode_async] *)
Definition transcode_async (in_path out_path : str) (cq : Z)
           (o : exec_outcome) : M unit :=
  ffmpeg_run_async (Encode in_path out_path cq) o ;;
  ret tt.

(** ** [transcode_worker]

    One turn of the [while True] loop, cut where the source can be
    suspended: [transcode_worker_get] is the [await transcode_q.get()],
    [transcode_worker_forward] runs from the encode to the
    [await vmaf_q.put(...)], [transcode_worker_mark] is the
    [transcode_q.task_done()].  The [print] calls of the workers write to
    the console only and are left out. *)
Definition transcode_worker_get : M item := q_get TQ.

Definition transcode_worker_forward (x : item) (o : exec_outcome) : M unit :=
  let '(in_path, out_path, cq) := x in
  transcode_async in_path out_path cq o ;;
  q_put VQ (out_path, in_path, cq).

Definition transcode_worker_mark : M unit := q_task_done TQ.

(** One turn of the loop, the encode process doing [o]. *)
Definition transcode_worker (o : exec_outcome) : M unit :=
  x <- transcode_worker_get ;;
  transcode_worker_forward x o ;;
  transcode_worker_mark.

(** ** Scores

    The values [float()] returns on a match of [\d+\.\d+]: a non-negative
    finite double, which is a rational, or [inf] when the literal
    overflows.  The threshold is an [int] or a finite [float]; Python
    compares it with the score exactly. *)
Inductive pyfloat :=
| Finite (q : Q)
| PosInf.

(** [vmaf_score < threshold] *)
Definition float_lt (x : pyfloat) (threshold : Q) : bool :=
  match x with
  | Finite q => negb (Qle_bool threshold q)
  | PosInf => false
  end.

(** ** [vmaf_worker]

    The part of one loop turn after [await vmaf_async(...)] returned
    [vmaf_score], up to the queue call of the branch taken, and the final
    [vmaf_q.task_done()]. *)
Definition vmaf_worker_decide (threshold : Q) (cq_step : Z) (x : item)
           (vmaf_score : option pyfloat) : M unit :=
  let '(distorted, reference, cq) := x in
  match vmaf_score with
  | Some score =>
      let new_cq := cq - cq_step in
      if float_lt score threshold && (0 <=? new_cq)
      then q_put TQ (reference, distorted, new_cq)
      else ret tt
  | None => q_put VQ (distorted, reference, cq)
  end.

Definition vmaf_worker_mark : M unit := q_task_done VQ.

Definition vmaf_worker_get : M item := q_get VQ.

(** One turn of the loop; [measure] is the call [vmaf_async(distorted,
    reference, threads)]. *)
Definition vmaf_worker_iter (threshold : Q) (cq_step : Z)
           (measure : str -> str -> M (option pyfloat)) : M unit :=
  x <- vmaf_worker_get ;;
  vmaf_score <- measure (fst (fst x)) (snd (fst x)) ;;
  vmaf_worker_decide threshold cq_step x vmaf_score ;;
  vmaf_worker_mark.

Definition DEFAULT_QUALITY_TRESHOLD : Z := 95.
Definition DEFAULT_CQ_STEP : Z := 2.
Definition DEFAULT_CQ_INITIAL : Z := 40.
Definition DEFAULT_OUT_DIR : str := lit "./out".
Definition DEFAULT_OUT_FILE_EXTENSION : str := lit ".mkv".

(** ** [bytes.decode()]: strict UTF-8

    Well-formed sequences only: no overlong forms, no surrogates, nothing
    above U+10FFFF.  [None] stands for [UnicodeDecodeError]. *)
Definition byte_val (b : byte) : N := Byte.to_N b.

Definition in_range (lo hi : N) (n : N) : bool := ((lo <=? n) && (n <=? hi))%N.

Definition is_cont (b : byte) : bool := in_range 128 191 (byte_val b).

Definition cont_bits (b : byte) : N := (byte_val b - 128)%N.

Fixpoint decode_utf8 (bs : bytes) : option str :=
  match bs with
  | [] => Some []
  | b0 :: r0 =>
      let n0 := byte_val b0 in
      if (n0 <? 128)%N then option_map (cons n0) (decode_utf8 r0)
      else if in_range 194 223 n0 then
        match r0 with
        | b1 :: r1 =>
            if is_cont b1
            then option_map (cons ((n0 - 192) * 64 + cont_bits b1)%N)
                            (decode_utf8 r1)
            else None
        | _ => None
        end
      else if in_range 224 239 n0 then
        match r0 with
        | b1 :: b2 :: r2 =>
            let lo := if (n0 =? 224)%N then 160%N else 128%N in
            let hi := if (n0 =? 237)%N then 159%N else 191%N in
            if in_range lo hi (byte_val b1) && is_cont b2
            then option_map
                   (cons ((n0 - 224) * 4096 + cont_bits b1 * 64
                          + cont_bits b2)%N)
                   (decode_utf8 r2)
            else None
        | _ => None
        end
      else if in_range 240 244 n0 then
        match r0 with
        | b1 :: b2 :: b3 :: r3 =>
            let lo := if (n0 =? 240)%N then 144%N else 128%N in
            let hi := if (n0 =? 244)%N then 143%N else 191%N in
            if in_range lo hi (byte_val b1) && is_cont b2 && is_cont b3
            then option_map
                   (cons ((n0 - 240) * 262144 + cont_bits b1 * 4096
                          + cont_bits b2 * 64 + cont_bits b3)%N)
                   (decode_utf8 r3)
            else None
        | _ => None
        end
      else None
  end.

(** The bytes of an ASCII literal. *)
Definition blit (s : string) : bytes := list_byte_of_string s.

(** ** [vmaf_get_score] and [vmaf_async] *)

Section Measurement.

(** Membership in Unicode category Nd for the code points above U+007F,
    as the interpreter's Unicode database has it; below, [\d] is [0-9]. *)
Variable unicode_Nd : N -> bool.

(** [float()] on a matched literal. *)
Variable float_of_str : str -> pyfloat.

(** [\d] on a [str] pattern *)
Definition re_digit (c : N) : bool :=
  if (c <? 128)%N then in_range 48 57 c else unicode_Nd c.

(** The longest prefix of [s] whose characters satisfy [p], and the rest *)
Fixpoint span (p : N -> bool) (s : str) : str * str :=
  match s with
  | [] => ([], [])
  | c :: t =>
      if p c then let '(a, b) := span p t in (c :: a, b) else ([], s)
  end.

Definition FULL_STOP : N := 46.

(** [\d+\.\d+] anchored at the start of [s].  [\d+] is greedy, and giving
    digits back cannot help because the next pattern character is not a
    digit, so the match is decided by the longest runs. *)
Definition match_number (s : str) : option str :=
  let '(d1, r1) := span re_digit s in
  match d1, r1 with
  | _ :: _, c :: r2 =>
      if (c =? FULL_STOP)%N then
        let '(d2, _) := span re_digit r2 in
        match d2 with
        | [] => None
        | _ => Some (d1 ++ [FULL_STOP] ++ d2)
        end
      else None
  | _, _ => None
  end.

Fixpoint starts_with (pre s : str) : bool :=
  match pre, s with
  | [], _ => true
  | a :: pre', b :: s' => (a =? b)%N && starts_with pre' s'
  | _ :: _, [] => false
  end.

Definition SCORE_LABEL : str := lit "VMAF score: ".

(** [(?<=VMAF score: )] at the position reached after [seen_rev] (the text
    read so far, last character first) *)
Definition lookbehind (seen_rev : str) : bool :=
  starts_with (rev SCORE_LABEL) seen_rev.

(** [re.search]: the leftmost position where the pattern matches *)
Fixpoint re_search_from (seen_rev s : str) : option str :=
  match (if lookbehind seen_rev then match_number s else None) with
  | Some m => Some m
  | None =>
      match s with
      | [] => None
      | c :: t => re_search_from (c :: seen_rev) t
      end
  end.

Definition re_search (text : str) : option str := re_search_from [] text.

(** [vmaf_get_score] *)
Definition vmaf_get_score (stdout : bytes) : outcome (option pyfloat) :=
  match decode_utf8 stdout with
  | None => Exc UnicodeDecodeError
  | Some text =>
      match re_search text with
      | Some m => Val (Some (float_of_str m))
      | None => Val None
      end
  end.

(** [vmaf_async] *)
Definition vmaf_async (o : exec_outcome) (distorted_path reference_path : str)
  : M (option pyfloat) :=
  r <- ffmpeg_run_async (Measure distorted_path reference_path) o ;;
  fun w => (vmaf_get_score (fst r), w).

(** [vmaf_worker]: one turn of the loop, the measurement process doing
    [o]. *)
Definition vmaf_worker (threshold : Q) (cq_step : Z) (o : exec_outcome)
  : M unit :=
  vmaf_worker_iter threshold cq_step (vmaf_async o).

End Measurement.

(** ** [posixpath] *)

Definition SEP : N := 47.

(** [s.rfind(c)]: the index of the last [c] in [s], or [-1] *)
Fixpoint rfind_from (c : N) (s : str) (i : Z) (found : Z) : Z :=
  match s with
  | [] => found
  | x :: t => rfind_from c t (i + 1) (if (x =? c)%N then i else found)
  end.

Definition rfind (c : N) (s : str) : Z := rfind_from c s 0 (-1).

(** [s[i:]], [s[:i]] and [s[i:j]] for indices that are not negative *)
Definition slice_from (s : str) (i : Z) : str := skipn (Z.to_nat i) s.
Definition slice_to (s : str) (i : Z) : str := firstn (Z.to_nat i) s.
Definition slice (s : str) (i j : Z) : str := slice_from (slice_to s j) i.

(** [posixpath.basename] *)
Definition basename (p : str) : str :=
  let i := rfind SEP p + 1 in
  slice_from p i.

(** [posixpath.splitext].  The loop that skips leading dots returns the
    split at the first character of the file name that is not a dot, and
    falls through to [(p, "")] when there is none. *)
Definition splitext (p : str) : str * str :=
  let sepIndex := rfind SEP p in
  let dotIndex := rfind FULL_STOP p in
  if (sepIndex <? dotIndex)
     && existsb (fun c => negb (c =? FULL_STOP)%N)
                (slice p (sepIndex + 1) dotIndex)
  then (slice_to p dotIndex, slice_from p dotIndex)
  else (p, []).

Definition ends_with_sep (s : str) : bool :=
  match rev s with
  | c :: _ => (c =? SEP)%N
  | [] => false
  end.

(** [posixpath.join(a, b)] *)
Definition join (a b : str) : str :=
  if starts_with [SEP] b then b
  else if match a with [] => true | _ => ends_with_sep a end then a ++ b
  else a ++ [SEP] ++ b.

(** [s.split("/")] *)
Fixpoint split_sep (s : str) : list str :=
  match s with
  | [] => [[]]
  | c :: t =>
      if (c =? SEP)%N then [] :: split_sep t
      else match split_sep t with
           | comp :: rest => (c :: comp) :: rest
           | [] => [[c]]
           end
  end.

(** ["/".join(comps)] *)
Fixpoint join_sep (comps : list str) : str :=
  match comps with
  | [] => []
  | [c] => c
  | c :: rest => c ++ [SEP] ++ join_sep rest
  end.

Definition DOT : str := [FULL_STOP].
Definition DOTDOT : str := [FULL_STOP; FULL_STOP].

Definition last_is_dotdot (comps : list str) : bool :=
  match rev comps with
  | c :: _ => str_eqb c DOTDOT
  | [] => false
  end.

(** The loop of [posixpath.normpath] over the components *)
Fixpoint normpath_comps (initial_slashes : nat) (comps new_comps : list str)
  : list str :=
  match comps with
  | [] => new_comps
  | comp :: rest =>
      if str_eqb comp [] || str_eqb comp DOT
      then normpath_comps initial_slashes rest new_comps
      else if negb (str_eqb comp DOTDOT)
              || (Nat.eqb initial_slashes 0
                  && match new_comps with [] => true | _ => false end)
              || last_is_dotdot new_comps
      then normpath_comps initial_slashes rest (new_comps ++ [comp])
      else normpath_comps initial_slashes rest (removelast new_comps)
  end.

(** [posixpath.normpath] *)
Definition normpath (path : str) : str :=
  match path with
  | [] => DOT
  | _ =>
      let initial_slashes :=
        if starts_with [SEP] path then
          if starts_with [SEP; SEP] path
             && negb (starts_with [SEP; SEP; SEP] path)
          then 2%nat else 1%nat
        else 0%nat in
      let comps := normpath_comps initial_slashes (split_sep path) [] in
      let path' := repeat SEP initial_slashes ++ join_sep comps in
      match path' with
      | [] => DOT
      | _ => path'
      end
  end.

(** ** [deduplicate_files]

    A [dict] keeps its keys in insertion order, and storing under a key
    that is present keeps the key where it is. *)
Definition pydict (V : Type) := list (str * V).

Fixpoint dict_setitem {V} (k : str) (v : V) (d : pydict V) : pydict V :=
  match d with
  | [] => [(k, v)]
  | (k', v') :: rest =>
      if str_eqb k' k then (k', v) :: rest
      else (k', v') :: dict_setitem k v rest
  end.

(** [dict.fromkeys(files)]: every key stored with value [None] *)
Definition dict_fromkeys (files : list str) : pydict unit :=
  fold_left (fun d k => dict_setitem k tt d) files [].

(** [list(d)] *)
Definition dict_keys {V} (d : pydict V) : list str := map fst d.

Definition deduplicate_files (files : list str) : list str :=
  dict_keys (dict_fromkeys files).

(** ** [queues_populate] *)

Definition out_name (out_file_extension : str) (input_file : str) : str :=
  basename (fst (splitext input_file) ++ out_file_extension).

Definition out_path (output_dir out_file_extension : str) (input_file : str)
  : str :=
  normpath (join output_dir (out_name out_file_extension input_file)).

(** The [for] loop: an exception of [put_nowait] ends it. *)
Fixpoint seed (input_files : list str) (output_dir : str) (init_cq : Z)
         (out_file_extension : str) : M unit :=
  match input_files with
  | [] => ret tt
  | input_file :: rest =>
      q_put_nowait TQ (input_file,
                       out_path output_dir out_file_extension input_file,
                       init_cq) ;;
      seed rest output_dir init_cq out_file_extension
  end.

Definition queues_populate (input_files : list str) (output_dir : str)
           (init_cq : Z) (out_file_extension : str) : M unit :=
  seed (deduplicate_files input_files) output_dir init_cq out_file_extension.

(** The state in [main] before [queues_populate]: two fresh queues. *)
Definition fresh_world : world :=
  mkWorld (Queue.init 0) (Queue.init 0) [].

(** ** One worker per pool, run in sequence

    The pipeline with a single encode worker and a single quality-check
    worker, the encode worker served first.  Every encode exits ([enc]);
    the [k]-th measurement yields [scores k].  [fuel] bounds the number of
    loop turns; [None] means that work was left when it ran out. *)

Definition measured (score : option pyfloat) (distorted reference : str)
  : M (option pyfloat) :=
  log (EvRun (Measure distorted reference)) ;;
  ret score.

Fixpoint simulate (fuel : nat) (threshold : Q) (cq_step : Z)
         (enc : exec_outcome) (scores : nat -> option pyfloat) (k : nat)
         (w : world) : option (outcome unit * world) :=
  if negb (Queue.empty (transcode_q w)) then
    match fuel with
    | O => None
    | S fuel' =>
        match transcode_worker enc w with
        | (Val _, w') => simulate fuel' threshold cq_step enc scores k w'
        | r => Some r
        end
    end
  else if negb (Queue.empty (vmaf_q w)) then
    match fuel with
    | O => None
    | S fuel' =>
        match vmaf_worker_iter threshold cq_step (measured (scores k)) w with
        | (Val _, w') =>
            simulate fuel' threshold cq_step enc scores (S k) w'
        | r => Some r
        end
    end
  else Some (Val tt, w).

(** The parameters of the encodes that were started, in order. *)
Fixpoint visited (tr : list event) : list Z :=
  match tr with
  | [] => []
  | EvRun (Encode _ _ cq) :: rest => cq :: visited rest
  | _ :: rest => visited rest
  end.

(** The number of measurements that were started. *)
Fixpoint measurements (tr : list event) : nat :=
  match tr with
  | [] => 0
  | EvRun (Measure _ _) :: rest => S (measurements rest)
  | _ :: rest => measurements rest
  end.

(** The arithmetic progression [start, start - step, ...] of [n] terms. *)
Fixpoint descending (n : nat) (start step : Z) : list Z :=
  match n with
  | O => []
  | S n' => start :: descending n' (start - step) step
  end.

Fixpoint strictly_decreasing (l : list Z) : Prop :=
  match l with
  | a :: ((b :: _) as rest) => b < a /\ strictly_decreasing rest
  | _ => True
  end.

(** ** The event loop: workers and [queues_wait_for_done] interleaved

    Every coroutine runs alone until it waits.  Where a worker stands: at
    [await q.get()] ([WIdle]); waiting for its external process, with the
    item it took ([WBusy]); past its [await put(...)] and before its
    [task_done()] ([WMarking]); ended by an exception ([WDead]); or
    cancelled.  A [put] on an unbounded queue does not wait, so the event
    loop runs the [put] and the [task_done()] in one turn; letting other
    coroutines run in between covers that schedule and more. *)
Inductive wpc :=
| WIdle
| WBusy (x : item)
| WMarking
| WDead
| WCancelled.

(** Where [queues_wait_for_done] stands: before the loop condition, in
    [await transcode_q.join()], in [await vmaf_q.join()], or past the
    [task.cancel()] loop. *)
Inductive opc :=
| OCheck
| OJoinT
| OJoinV
| ODone.

Record sys := mkSys {
  shared : world;
  t_workers : list wpc;
  v_workers : list wpc;
  orch : opc
}.

Inductive action :=
| TGet (i : nat)
| TForward (i : nat) (o : exec_outcome)
| TMark (i : nat)
| VGet (i : nat)
| VMeasure (i : nat) (o : exec_outcome)
| VMark (i : nat)
| Orch.

Fixpoint set_nth {A} (i : nat) (a : A) (l : list A) : list A :=
  match l, i with
  | [], _ => []
  | _ :: t, O => a :: t
  | x :: t, S i' => x :: set_nth i' a t
  end.

(** The worker's next position after a piece of its code ran: a normal
    return moves it on, an exception ends the task, and a piece that
    cannot proceed is not scheduled. *)
Definition moved {A} (r : outcome A * world) (next : A -> wpc)
  : option (wpc * world) :=
  match r with
  | (Val a, w') => Some (next a, w')
  | (Exc _, w') => Some (WDead, w')
  | (Blocked, _) => None
  end.

(** [task.cancel()]: a task that already ended stays as it is. *)
Definition cancel (p : wpc) : wpc :=
  match p with
  | WDead => WDead
  | _ => WCancelled
  end.

(** The condition of the [while] loop of [queues_wait_for_done] *)
Definition work_left (w : world) : bool :=
  (0 <? Queue.get_unfinished_tasks (transcode_q w))
  || (0 <? Queue.get_unfinished_tasks (vmaf_q w)).

(** [queues_wait_for_done], one piece at a time.  The condition and the
    cancelling loop after it run without a wait in between.  A [join()]
    returns at some later turn of the event loop; it is allowed to return
    at any turn. *)
Definition queues_wait_for_done (s : sys) : option sys :=
  match orch s with
  | OCheck =>
      if work_left (shared s)
      then Some (mkSys (shared s) (t_workers s) (v_workers s) OJoinT)
      else Some (mkSys (shared s) (map cancel (t_workers s))
                       (map cancel (v_workers s)) ODone)
  | OJoinT => Some (mkSys (shared s) (t_workers s) (v_workers s) OJoinV)
  | OJoinV => Some (mkSys (shared s) (t_workers s) (v_workers s) OCheck)
  | ODone => None
  end.

Section EventLoop.

Variable unicode_Nd : N -> bool.
Variable float_of_str : str -> pyfloat.
Variable threshold : Q.

Definition t_move (s : sys) (i : nat) (r : option (wpc * world)) : option sys :=
  match r with
  | Some (p, w') =>
      Some (mkSys w' (set_nth i p (t_workers s)) (v_workers s) (orch s))
  | None => None
  end.

Definition v_move (s : sys) (i : nat) (r : option (wpc * world)) : option sys :=
  match r with
  | Some (p, w') =>
      Some (mkSys w' (t_workers s) (set_nth i p (v_workers s)) (orch s))
  | None => None
  end.

(** One turn of the event loop.  The quality-check workers are created
    with the default [cq_step]. *)
Definition exec (a : action) (s : sys) : option sys :=
  match a with
  | TGet i =>
      match nth_error (t_workers s) i with
      | Some WIdle => t_move s i (moved (transcode_worker_get (shared s)) WBusy)
      | _ => None
      end
  | TForward i o =>
      match nth_error (t_workers s) i with
      | Some (WBusy x) =>
          t_move s i (moved (transcode_worker_forward x o (shared s))
                            (fun _ => WMarking))
      | _ => None
      end
  | TMark i =>
      match nth_error (t_workers s) i with
      | Some WMarking =>
          t_move s i (moved (transcode_worker_mark (shared s))
                            (fun _ => WIdle))
      | _ => None
      end
  | VGet i =>
      match nth_error (v_workers s) i with
      | Some WIdle => v_move s i (moved (vmaf_worker_get (shared s)) WBusy)
      | _ => None
      end
  | VMeasure i o =>
      match nth_error (v_workers s) i with
      | Some (WBusy x) =>
          v_move s i
            (moved ((vmaf_score <- vmaf_async unicode_Nd float_of_str o
                                     (fst (fst x)) (snd (fst x)) ;;
                     vmaf_worker_decide threshold DEFAULT_CQ_STEP x vmaf_score)
                      (shared s))
                   (fun _ => WMarking))
      | _ => None
      end
  | VMark i =>
      match nth_error (v_workers s) i with
      | Some WMarking =>
          v_move s i (moved (vmaf_worker_mark (shared s)) (fun _ => WIdle))
      | _ => None
      end
  | Orch => queues_wait_for_done s
  end.

Definition step (s s' : sys) : Prop := exists a, exec a s = Some s'.

Inductive reachable (s0 : sys) : sys -> Prop :=
| reach_start : reachable s0 s0
| reach_step s s' : reachable s0 s -> step s s' -> reachable s0 s'.

Fixpoint exec_all (acts : list action) (s : sys) : option sys :=
  match acts with
  | [] => Some s
  | a :: rest =>
      match exec a s with
      | Some s' => exec_all rest s'
      | None => None
      end
  end.

End EventLoop.

(** [workers_create] *)
Definition workers_create (n_transcode_workers n_vmaf_workers : nat)
  : list wpc * list wpc :=
  (repeat WIdle n_transcode_workers, repeat WIdle n_vmaf_workers).

(** The state of [main] when it starts to wait: the queues populated from
    fresh, the workers created. *)
Definition main_start (input_files : list str) (output_dir : str)
           (init_cq : Z) (n_transcode_workers n_vmaf_workers : nat) : sys :=
  let w := snd (queues_populate input_files output_dir init_cq
                                DEFAULT_OUT_FILE_EXTENSION fresh_world) in
  let '(ts, vs) := workers_create n_transcode_workers n_vmaf_workers in
  mkSys w ts vs OCheck.

(** Workers that still have an item which is not marked done. *)
Definition holds_item (p : wpc) : bool :=
  match p with
  | WBusy _ | WMarking | WDead => true
  | _ => false
  end.

Definition holders (ps : list wpc) : Z :=
  Z.of_nat (List.length (filter holds_item ps)).

(** ** [ffmpeg_compile_cmd] and the command lines of the workers

    [transcode_cmd] and [vmaf_cmd] are the lists that [transcode_async]
    and [vmaf_async] bind to [ffmpeg_cmd].  The working directory, which
    [path.abspath] reads from the process, is a parameter. *)

(** [str(n)] for an [int] *)
Definition str_of_Z (z : Z) : str :=
  lit (DecimalString.NilZero.string_of_int (Z.to_int z)).

(** [posixpath.isabs] *)
Definition isabs (p : str) : bool := starts_with [SEP] p.

(** [posixpath.abspath]; [cwd] is what [os.getcwd()] returns. *)
Definition abspath (cwd p : str) : str :=
  normpath (if isabs p then p else join cwd p).

(** The values of the settings dictionaries *)
Inductive pyval :=
| VStr (s : str)
| VInt (z : Z).

(** [str(arg)] *)
Definition py_str (v : pyval) : str :=
  match v with
  | VStr s => s
  | VInt z => str_of_Z z
  end.

(** [input_path: str | list[str]] *)
Inductive input_paths :=
| OnePath (p : str)
| Paths (l : list str).

(** A dictionary display [{k1: v1, ...}] *)
Definition dict_of {V} (entries : list (str * V)) : pydict V :=
  fold_left (fun d e => dict_setitem (fst e) (snd e) d) entries [].

(** [ffmpeg_compile_cmd] *)
Definition ffmpeg_compile_cmd (cwd : str) (input_path : input_paths)
           (output_path : str) (ffmpeg_args : pydict pyval)
           (override_output progress nostdin nostats : bool) : list str :=
  let cmd := [lit "ffmpeg"] in
  let input_path :=
    match input_path with OnePath p => [p] | Paths l => l end in
  let cmd := if override_output then cmd ++ [lit "-y"] else cmd in
  let cmd := if progress then cmd ++ [lit "-progress"; lit "-"] else cmd in
  let cmd := if nostdin then cmd ++ [lit "-nostdin"] else cmd in
  let cmd := if nostats then cmd ++ [lit "-nostats"] else cmd in
  let cmd :=
    fold_left (fun cmd _input => cmd ++ [lit "-i"; abspath cwd _input])
              input_path cmd in
  let cmd :=
    fold_left (fun cmd e => cmd ++ [lit "-" ++ fst e; py_str (snd e)])
              ffmpeg_args cmd in
  if str_eqb output_path (lit "-") then cmd ++ [output_path]
  else cmd ++ [abspath cwd output_path].

(** The command of [transcode_async] *)
Definition transcode_cmd (cwd in_path out_path : str) (cq : Z) : list str :=
  let transcode_settings :=
    dict_of [(lit "vcodec", VStr (lit "hevc_nvenc"));
             (lit "preset", VStr (lit "slow"));
             (lit "rc", VStr (lit "vbr"));
             (lit "cq", VInt cq);
             (lit "ac", VInt 1);
             (lit "map_metadata", VInt 0)] in
  ffmpeg_compile_cmd cwd (OnePath in_path) out_path transcode_settings
                     true false true true.

(** The command of [vmaf_async] *)
Definition vmaf_cmd (cwd distorted_path reference_path : str) (threads : Z)
  : list str :=
  let vmaf_settings :=
    dict_of [(lit "filter_complex",
              VStr (lit "libvmaf=n_threads=" ++ str_of_Z threads));
             (lit "f", VStr (lit "null"))] in
  ffmpeg_compile_cmd cwd (Paths [distorted_path; reference_path]) (lit "-")
                     vmaf_settings false false true true.

(** ** Vocabulary of the statements *)

(** What holds of every queue built without a size bound and used through
    its methods: it stays unbounded, the subclass counter equals the
    counter of the base class, and neither is negative. *)
Definition queue_ok (q : Queue.t) : Prop :=
  Queue.maxsize q = 0
  /\ Queue._unfinished_tasks q = Queue._unfinished_tasks_custom q
  /\ 0 <= Queue._unfinished_tasks_custom q.

(** Every item waiting in the queue is counted as outstanding. *)
Definition queue_counted (q : Queue.t) : Prop :=
  Z.of_nat (List.length (Queue._queue q)) <= Queue._unfinished_tasks_custom q.

(** Both queues are well formed and count what waits in them. *)
Definition world_ok (w : world) : Prop :=
  queue_ok (transcode_q w) /\ queue_ok (vmaf_q w)
  /\ queue_counted (transcode_q w) /\ queue_counted (vmaf_q w).

(** What a piece of code did to [w]: how it ended, what it appended to
    the log, the items left waiting in each queue, and the change of each
    outstanding count. *)
Definition turns (r : outcome unit * world) (w : world) (o : outcome unit)
           (evs : list event) (tq' vq' : list item) (dt dv : Z) : Prop :=
  fst r = o
  /\ trace (snd r) = trace w ++ evs
  /\ pending TQ (snd r) = tq'
  /\ pending VQ (snd r) = vq'
  /\ outstanding TQ (snd r) = outstanding TQ w + dt
  /\ outstanding VQ (snd r) = outstanding VQ w + dv.

(** [score >= threshold] and [score < threshold] *)
Definition score_ge (score : pyfloat) (threshold : Q) : Prop :=
  match score with
  | Finite q => (threshold <= q)%Q
  | PosInf => True
  end.

Definition score_lt (score : pyfloat) (threshold : Q) : Prop :=
  match score with
  | Finite q => (q < threshold)%Q
  | PosInf => False
  end.

(** The world of the examples: one input seeded by [queues_populate] with
    the default settings, and the same after the encode worker's turn. *)
Definition example_seeded : world :=
  snd (queues_populate [lit "a.mp4"] DEFAULT_OUT_DIR DEFAULT_CQ_INITIAL
                       DEFAULT_OUT_FILE_EXTENSION fresh_world).

Definition example_encoded (init_cq : Z) : world :=
  snd (transcode_worker (Exited [] 0)
         (snd (queues_populate [lit "a.mp4"] DEFAULT_OUT_DIR init_cq
                               DEFAULT_OUT_FILE_EXTENSION fresh_world))).

(** Kinds of logged queue calls. *)
Definition is_task_done (e : event) : bool :=
  match e with EvTaskDone _ => true | _ => false end.

Definition is_put (e : event) : bool :=
  match e with EvPut _ _ => true | _ => false end.

Definition is_get (e : event) : bool :=
  match e with EvGet _ _ => true | _ => false end.

(** The events [evs] of a turn on queue [src]: one dequeue from [src], the
    enqueues [successors] and no others, then one mark-done, on [src], as
    the last event. *)
Definition put_then_done (src : qid) (successors : list event)
           (evs : list event) : Prop :=
  (exists x before, evs = EvGet src x :: before ++ successors ++ [EvTaskDone src]
                    /\ filter is_put before = []
                    /\ filter is_task_done before = []
                    /\ filter is_get before = [])
  /\ filter is_put evs = successors
  /\ filter is_task_done evs = [EvTaskDone src]
  /\ List.length (filter is_get evs) = 1%nat.

(** [n] turns of a loop body in a row. *)
Fixpoint repeat_turn (n : nat) (body : M unit) : M unit :=
  match n with
  | O => ret tt
  | S n' => body ;; repeat_turn n' body
  end.

(** One item on the encode queue and nothing else in flight; nothing in
    flight at all. *)
Definition one_task (in_path out_path : str) (cq : Z) (tr : list event)
  : world :=
  mkWorld (Queue.mk 0 [(in_path, out_path, cq)] 1 1) (Queue.mk 0 [] 0 0) tr.

Definition all_done (tr : list event) : world :=
  mkWorld (Queue.mk 0 [] 0 0) (Queue.mk 0 [] 0 0) tr.

Definition round_events (in_path out_path : str) (cq : Z) : list event :=
  [EvGet TQ (in_path, out_path, cq); EvRun (Encode in_path out_path cq);
   EvPut VQ (out_path, in_path, cq); EvTaskDone TQ;
   EvGet VQ (out_path, in_path, cq); EvRun (Measure out_path in_path)].

(** Deduplication in the words of the design: the first element is kept,
    and its later copies are dropped from what follows. *)
Fixpoint keep_first (files : list str) : list str :=
  match files with
  | [] => []
  | f :: rest => f :: filter (fun g => negb (str_eqb g f)) (keep_first rest)
  end.

(** [f in l] *)
Definition is_in (l : list str) (f : str) : bool :=
  existsb (fun g => str_eqb g f) l.

(** [dict.fromkeys] continued from a dictionary that has entries. *)
Definition store_all (d : pydict unit) (files : list str) : pydict unit :=
  fold_left (fun d k => dict_setitem k tt d) files d.

(** The item [queues_populate] makes for an input file. *)
Definition seed_item (output_dir : str) (init_cq : Z) (ext : str) (f : str)
  : item :=
  (f, out_path output_dir ext f, init_cq).

(** A path is its directory part, empty or ending in a separator,
    followed by its base name. *)
Definition dir_part (d : str) : Prop := d = [] \/ exists d', d = d' ++ [SEP].

(** The text has ["VMAF score: "] followed at once by digits, a decimal
    point and digits. *)
Definition has_score (unicode_Nd : N -> bool) (text : str) : Prop :=
  exists pre d1 d2 rest,
    text = pre ++ SCORE_LABEL ++ d1 ++ [FULL_STOP] ++ d2 ++ rest
    /\ d1 <> [] /\ d2 <> []
    /\ Forall (fun c => re_digit unicode_Nd c = true) d1
    /\ Forall (fun c => re_digit unicode_Nd c = true) d2.

(** For the examples: an interpreter whose only digits are [0-9], and the
    value of a decimal literal without rounding. *)
Definition ascii_digits_only : N -> bool := fun _ => false.

Fixpoint digits_value (acc : Z) (s : str) : Z :=
  match s with
  | [] => acc
  | c :: t => digits_value (10 * acc + (Z.of_N c - 48)) t
  end.

Definition exact_decimal (m : str) : pyfloat :=
  let '(whole, rest) := span (fun c => negb (c =? FULL_STOP)%N) m in
  let frac := tl rest in
  Finite (digits_value 0 (whole ++ frac)
          # Pos.pow 10 (Pos.of_nat (List.length frac))).

Definition b2z (b : bool) : Z := if b then 1 else 0.

(** The invariant of the event loop: both queues are as [CustomAsyncQueue()]
    keeps them; the outstanding count of each queue is the number of items
    waiting in it plus the number of its workers that hold an item; and
    once the workers are cancelled, both counts are zero and every worker
    is cancelled. *)
Definition loop_inv (s : sys) : Prop :=
  queue_ok (transcode_q (shared s)) /\ queue_ok (vmaf_q (shared s))
  /\ outstanding TQ (shared s)
     = Z.of_nat (List.length (pending TQ (shared s))) + holders (t_workers s)
  /\ outstanding VQ (shared s)
     = Z.of_nat (List.length (pending VQ (shared s))) + holders (v_workers s)
  /\ (orch s = ODone ->
      outstanding TQ (shared s) = 0 /\ outstanding VQ (shared s) = 0
      /\ Forall (eq WCancelled) (t_workers s)
      /\ Forall (eq WCancelled) (v_workers s)).

(** A run of one input with one worker per pool: the first check finds
    work left and waits; after the encode, the measurement (96.5 against a
    threshold of 95) and the two joins, the next check cancels the
    workers. *)
Definition example_schedule : list action :=
  [Orch; TGet 0; TForward 0 (Exited [] 0); TMark 0; Orch; VGet 0;
   VMeasure 0 (Exited (blit "VMAF score: 96.5") 0); VMark 0; Orch; Orch].

(** The state that schedule ends in. *)
Definition example_final : option sys :=
  Eval vm_compute in
    exec_all ascii_digits_only exact_decimal (95 # 1) example_schedule
             (main_start [lit "a.mp4"] DEFAULT_OUT_DIR DEFAULT_CQ_INITIAL 1 1).

(** *** Command lines *)

(** [int(s)] for a literal made of an optional sign and decimal digits *)
Definition Z_of_str (s : str) : option Z :=
  option_map Z.of_int
    (DecimalString.NilZero.int_of_string
       (string_of_list_ascii (map ascii_of_N s))).


(** The words [ffmpeg_compile_cmd] puts before the inputs. *)
Definition switches (override_output progress nostdin nostats : bool)
  : list str :=
  (if override_output then [lit "-y"] else [])
  ++ (if progress then [lit "-progress"; lit "-"] else [])
  ++ (if nostdin then [lit "-nostdin"] else [])
  ++ (if nostats then [lit "-nostats"] else []).


(** *** Queues of any size *)

(** [n] calls of [get] in a row, as long as they return: the items
    obtained, and the queue afterwards. *)
Fixpoint get_many (n : nat) (q : Queue.t) : list item * Queue.t :=
  match n with
  | O => ([], q)
  | S n' =>
      match Queue.get q with
      | (Val x, q') => let '(xs, q'') := get_many n' q' in (x :: xs, q'')
      | (_, q') => ([], q')
      end
  end.

(** What every queue keeps, bounded or not: the counter of the subclass
    equals the counter of the base class and is not below the number of
    items waiting; a bounded queue holds at most [maxsize] items. *)
Definition queue_wf (maxsize : Z) (q : Queue.t) : Prop :=
  Queue.maxsize q = maxsize
  /\ Queue._unfinished_tasks q = Queue._unfinished_tasks_custom q
  /\ 0 <= Queue._unfinished_tasks_custom q
  /\ (0 < maxsize -> Queue.qsize q <= maxsize).

(** *** Parsed scores *)

(** [m] is a run of digits, a full stop and a run of digits, none empty. *)
Definition decimal_literal (unicode_Nd : N -> bool) (m : str) : Prop :=
  exists d1 d2,
    m = d1 ++ [FULL_STOP] ++ d2
    /\ d1 <> [] /\ d2 <> []
    /\ Forall (fun c => re_digit unicode_Nd c = true) d1
    /\ Forall (fun c => re_digit unicode_Nd c = true) d2.

(** No digit follows. *)
Definition no_digit_ahead (unicode_Nd : N -> bool) (rest : str) : Prop :=
  match rest with
  | [] => True
  | c :: _ => re_digit unicode_Nd c = false
  end.

(** *** File names *)

(** A file name proper: no separator in it, and some character other
    than a full stop (so it is not empty, [.] or [..]). *)
Definition plain_name (name : str) : Prop :=
  ~ In SEP name /\ exists c, In c name /\ c <> FULL_STOP.

(** *** Turns of the event loop *)

(** A queue after a [put], a [get] and a [task_done] that returned. *)
Definition q_pushed (x : item) (q : Queue.t) : Queue.t :=
  Queue.mk (Queue.maxsize q) (Queue._queue q ++ [x])
           (Queue._unfinished_tasks q + 1)
           (Queue._unfinished_tasks_custom q + 1).

Definition q_popped (q : Queue.t) : Queue.t :=
  Queue.mk (Queue.maxsize q) (tl (Queue._queue q))
           (Queue._unfinished_tasks q) (Queue._unfinished_tasks_custom q).

Definition q_marked (q : Queue.t) : Queue.t :=
  Queue.mk (Queue.maxsize q) (Queue._queue q)
           (Queue._unfinished_tasks q - 1)
           (Queue._unfinished_tasks_custom q - 1).

(** What one turn of the event loop does to the state, case by case. *)
Inductive effect (s : sys) : action -> sys -> Prop :=
| eff_t_get i x rest :
    nth_error (t_workers s) i = Some WIdle ->
    pending TQ (shared s) = x :: rest ->
    effect s (TGet i)
      (mkSys (mkWorld (q_popped (transcode_q (shared s))) (vmaf_q (shared s))
                      (trace (shared s) ++ [EvGet TQ x]))
             (set_nth i (WBusy x) (t_workers s)) (v_workers s) (orch s))
| eff_t_forward i in_path out_path cq stdout rc :
    nth_error (t_workers s) i = Some (WBusy (in_path, out_path, cq)) ->
    effect s (TForward i (Exited stdout rc))
      (mkSys (mkWorld (transcode_q (shared s))
                      (q_pushed (out_path, in_path, cq) (vmaf_q (shared s)))
                      (trace (shared s)
                       ++ [EvRun (Encode in_path out_path cq);
                           EvPut VQ (out_path, in_path, cq)]))
             (set_nth i WMarking (t_workers s)) (v_workers s) (orch s))
| eff_t_dead i in_path out_path cq o evs :
    nth_error (t_workers s) i = Some (WBusy (in_path, out_path, cq)) ->
    (o = SpawnRaises /\ evs = [EvRun (Encode in_path out_path cq)])
    \/ (o = Interrupted
        /\ evs = [EvRun (Encode in_path out_path cq); EvTerminate]) ->
    effect s (TForward i o)
      (mkSys (mkWorld (transcode_q (shared s)) (vmaf_q (shared s))
                      (trace (shared s) ++ evs))
             (set_nth i WDead (t_workers s)) (v_workers s) (orch s))
| eff_t_mark i :
    nth_error (t_workers s) i = Some WMarking ->
    effect s (TMark i)
      (mkSys (mkWorld (q_marked (transcode_q (shared s))) (vmaf_q (shared s))
                      (trace (shared s) ++ [EvTaskDone TQ]))
             (set_nth i WIdle (t_workers s)) (v_workers s) (orch s))
| eff_v_get i x rest :
    nth_error (v_workers s) i = Some WIdle ->
    pending VQ (shared s) = x :: rest ->
    effect s (VGet i)
      (mkSys (mkWorld (transcode_q (shared s)) (q_popped (vmaf_q (shared s)))
                      (trace (shared s) ++ [EvGet VQ x]))
             (t_workers s) (set_nth i (WBusy x) (v_workers s)) (orch s))
| eff_v_retry i distorted reference cq o :
    nth_error (v_workers s) i = Some (WBusy (distorted, reference, cq)) ->
    0 <= cq - DEFAULT_CQ_STEP ->
    effect s (VMeasure i o)
      (mkSys (mkWorld
                (q_pushed (reference, distorted, cq - DEFAULT_CQ_STEP)
                          (transcode_q (shared s)))
                (vmaf_q (shared s))
                (trace (shared s)
                 ++ [EvRun (Measure distorted reference);
                     EvPut TQ (reference, distorted, cq - DEFAULT_CQ_STEP)]))
             (t_workers s) (set_nth i WMarking (v_workers s)) (orch s))
| eff_v_keep i distorted reference cq o :
    nth_error (v_workers s) i = Some (WBusy (distorted, reference, cq)) ->
    effect s (VMeasure i o)
      (mkSys (mkWorld (transcode_q (shared s)) (vmaf_q (shared s))
                      (trace (shared s)
                       ++ [EvRun (Measure distorted reference)]))
             (t_workers s) (set_nth i WMarking (v_workers s)) (orch s))
| eff_v_requeue i distorted reference cq o :
    nth_error (v_workers s) i = Some (WBusy (distorted, reference, cq)) ->
    effect s (VMeasure i o)
      (mkSys (mkWorld (transcode_q (shared s))
                      (q_pushed (distorted, reference, cq)
                                (vmaf_q (shared s)))
                      (trace (shared s)
                       ++ [EvRun (Measure distorted reference);
                           EvPut VQ (distorted, reference, cq)]))
             (t_workers s) (set_nth i WMarking (v_workers s)) (orch s))
| eff_v_dead i distorted reference cq o evs :
    nth_error (v_workers s) i = Some (WBusy (distorted, reference, cq)) ->
    evs = [EvRun (Measure distorted reference)]
    \/ evs = [EvRun (Measure distorted reference); EvTerminate] ->
    effect s (VMeasure i o)
      (mkSys (mkWorld (transcode_q (shared s)) (vmaf_q (shared s))
                      (trace (shared s) ++ evs))
             (t_workers s) (set_nth i WDead (v_workers s)) (orch s))
| eff_v_mark i :
    nth_error (v_workers s) i = Some WMarking ->
    effect s (VMark i)
      (mkSys (mkWorld (transcode_q (shared s)) (q_marked (vmaf_q (shared s)))
                      (trace (shared s) ++ [EvTaskDone VQ]))
             (t_workers s) (set_nth i WIdle (v_workers s)) (orch s))
| eff_wait :
    orch s = OCheck -> work_left (shared s) = true ->
    effect s Orch (mkSys (shared s) (t_workers s) (v_workers s) OJoinT)
| eff_fire :
    orch s = OCheck -> work_left (shared s) = false ->
    effect s Orch
      (mkSys (shared s) (map cancel (t_workers s)) (map cancel (v_workers s))
             ODone)
| eff_join_t :
    orch s = OJoinT ->
    effect s Orch (mkSys (shared s) (t_workers s) (v_workers s) OJoinV)
| eff_join_v :
    orch s = OJoinV ->
    effect s Orch (mkSys (shared s) (t_workers s) (v_workers s) OCheck).


(** Workers of a pool that satisfy [f]. *)
Definition count_w (f : wpc -> bool) (ps : list wpc) : Z :=
  Z.of_nat (List.length (filter f ps)).

Definition is_busy (p : wpc) : bool :=
  match p with WBusy _ => true | _ => false end.

Definition is_dead (p : wpc) : bool :=
  match p with WDead => true | _ => false end.

Definition busy_or_dead (p : wpc) : bool := is_busy p || is_dead p.

(** Items chosen by [sel], counted in a queue. *)
Definition count_q (sel : item -> bool) (l : list item) : Z :=
  Z.of_nat (List.length (filter sel l)).

Definition busy_on (sel : item -> bool) (p : wpc) : bool :=
  match p with WBusy x => sel x | _ => false end.

(** The items that wait in a queue or are with an external process; an
    item of the encode queue counts when [t_sel] chooses it, one of the
    measurement queue when [v_sel] does. *)
Definition flow (t_sel v_sel : item -> bool) (s : sys) : Z :=
  count_q t_sel (pending TQ (shared s))
  + count_q v_sel (pending VQ (shared s))
  + count_w (busy_on t_sel) (t_workers s)
  + count_w (busy_on v_sel) (v_workers s).

Definition live (s : sys) : Z := flow (fun _ => true) (fun _ => true) s.

(** Items of the encode queue and of the measurement queue that belong to
    the input file [f]. *)
Definition source_is (f : str) (x : item) : bool := str_eqb (fst (fst x)) f.

Definition reference_is (f : str) (x : item) : bool :=
  str_eqb (snd (fst x)) f.

Definition in_flight (f : str) (s : sys) : Z :=
  flow (source_is f) (reference_is f) s.

(** [cq] is reached from [init_cq] by whole steps, and is not negative
    unless [init_cq] is. *)
Definition in_search (init_cq cq : Z) : Prop :=
  (exists k, 0 <= k /\ cq = init_cq - k * DEFAULT_CQ_STEP)
  /\ (0 <= init_cq -> 0 <= cq).

(** [source] is one of the input files, [target] is its output path, and
    [cq] belongs to its search. *)
Definition seeded_pair (input_files : list str) (output_dir : str)
           (init_cq : Z) (source target : str) (cq : Z) : Prop :=
  In source input_files
  /\ target = out_path output_dir DEFAULT_OUT_FILE_EXTENSION source
  /\ in_search init_cq cq.

(** The turns that end a worker with an exception: the external process
    could not be started, the wait for it was interrupted, or the output of
    a measurement is not valid UTF-8. *)
Definition fatal_turn (a : action) : Prop :=
  match a with
  | TForward _ SpawnRaises | TForward _ Interrupted => True
  | VMeasure _ SpawnRaises | VMeasure _ Interrupted => True
  | VMeasure _ (Exited stdout _) => decode_utf8 stdout = None
  | _ => False
  end.

Section ItemsOfTheRun.

Variable input_files : list str.
Variable output_dir : str.
Variable init_cq : Z.

Definition t_item_ok (x : item) : Prop :=
  let '(in_path, out_path, cq) := x in
  seeded_pair input_files output_dir init_cq in_path out_path cq.

Definition v_item_ok (x : item) : Prop :=
  let '(distorted, reference, cq) := x in
  seeded_pair input_files output_dir init_cq reference distorted cq.

Definition busy_with (P : item -> Prop) (p : wpc) : Prop :=
  match p with WBusy x => P x | _ => True end.

Definition event_ok (e : event) : Prop :=
  match e with
  | EvRun (Encode in_path out_path cq) =>
      seeded_pair input_files output_dir init_cq in_path out_path cq
  | EvRun (Measure distorted reference) =>
      exists cq,
        seeded_pair input_files output_dir init_cq reference distorted cq
  | EvGet TQ x | EvPut TQ x => t_item_ok x
  | EvGet VQ x | EvPut VQ x => v_item_ok x
  | _ => True
  end.

(** Every item in a queue, in the hands of a worker or in the log comes
    from an input file and keeps its paths. *)
Definition items_inv (s : sys) : Prop :=
  Forall t_item_ok (pending TQ (shared s))
  /\ Forall v_item_ok (pending VQ (shared s))
  /\ Forall (busy_with t_item_ok) (t_workers s)
  /\ Forall (busy_with v_item_ok) (v_workers s)
  /\ Forall event_ok (trace (shared s)).

End ItemsOfTheRun.

(** Nothing encodes: the pool of encoders is empty and an item waits. *)
Definition no_encoder (s : sys) : Prop :=
  t_workers s = [] /\ orch s <> ODone
  /\ 1 <= Z.of_nat (List.length (pending TQ (shared s))).

(** Nothing measures: the pool of quality checkers is empty and an item
    waits or is with an encoder. *)
Definition no_checker (s : sys) : Prop :=
  v_workers s = [] /\ orch s <> ODone
  /\ 1 <= Z.of_nat (List.length (pending TQ (shared s)))
          + Z.of_nat (List.length (pending VQ (shared s)))
          + count_w busy_or_dead (t_workers s).

(** The state after the workers were cancelled with nothing done. *)
Definition fired_at_once (n_transcode_workers n_vmaf_workers : nat) : sys :=
  mkSys fresh_world (repeat WCancelled n_transcode_workers)
        (repeat WCancelled n_vmaf_workers) ODone.

Fixpoint total {A} (weight : A -> Z) (l : list A) : Z :=
  match l with
  | [] => 0
  | x :: rest => weight x + total weight rest
  end.

(** Encodes a search that stands at [cq] can still start, this one
    included. *)
Definition encodes_allowed (cq : Z) : Z :=
  if 0 <=? cq then cq / DEFAULT_CQ_STEP + 1 else 1.

(** Encode processes started for input file [f], as logged. *)
Definition is_encode_of (f : str) (e : event) : Z :=
  match e with
  | EvRun (Encode in_path _ _) => b2z (str_eqb in_path f)
  | _ => 0
  end.

Definition encodes_of (f : str) (tr : list event) : Z :=
  total (is_encode_of f) tr.

(** Encodes that the items of [f] can still cause: an item that waits for
    an encoder or is with one counts with its own encode, one that waits
    for a measurement or is measured counts without. *)
Definition due_t (f : str) (x : item) : Z :=
  if source_is f x then encodes_allowed (snd x) else 0.

Definition due_v (f : str) (x : item) : Z :=
  if reference_is f x then encodes_allowed (snd x) - 1 else 0.

Definition on_busy (weight : item -> Z) (p : wpc) : Z :=
  match p with WBusy x => weight x | _ => 0 end.

Definition spent_and_due (f : str) (s : sys) : Z :=
  encodes_of f (trace (shared s))
  + total (due_t f) (pending TQ (shared s))
  + total (due_v f) (pending VQ (shared s))
  + total (on_busy (due_t f)) (t_workers s)
  + total (on_busy (due_v f)) (v_workers s).

(** Output of a measurement that prints a score. *)
Definition scored_output : bytes := blit "VMAF score: 1.0".

(** A turn of a worker in which the external process, if there is one,
    exits normally, a measurement with a score in its output. *)
Definition good_turn (a : action) : Prop :=
  match a with
  | TGet _ | TMark _ | VGet _ | VMark _ => True
  | TForward _ o => o = Exited [] 0
  | VMeasure _ o => o = Exited scored_output 0
  | Orch => False
  end.

(** A bound on the turns the workers still need: an item counts six turns
    for every encode its search can still start, and a few more for where
    it stands in its round. *)
Definition turns_of (extra : Z) (x : item) : Z :=
  6 * encodes_allowed (snd x) + extra.

Definition turns_t (p : wpc) : Z :=
  match p with WBusy x => turns_of 5 x | WMarking => 1 | _ => 0 end.

Definition turns_v (p : wpc) : Z :=
  match p with WBusy x => turns_of 2 x | WMarking => 1 | _ => 0 end.

Definition turns_left (s : sys) : Z :=
  total (turns_of 6) (pending TQ (shared s))
  + total (turns_of 3) (pending VQ (shared s))
  + total turns_t (t_workers s) + total turns_v (v_workers s).

(** The pools keep their sizes; before the workers are cancelled none of
    them is. *)
Definition pool_inv (n_t n_v : nat) (s : sys) : Prop :=
  List.length (t_workers s) = n_t /\ List.length (v_workers s) = n_v
  /\ (orch s <> ODone ->
      ~ In WCancelled (t_workers s) /\ ~ In WCancelled (v_workers s)).

Definition no_dead (s : sys) : Prop :=
  ~ In WDead (t_workers s) /\ ~ In WDead (v_workers s).

(** *** Example runs

    One input, one worker per pool.  [example_busy]: after the first check
    the encoder has taken the item.  [example_dead]: its process could not
    be started.  [example_stuck]: three more turns of
    [queues_wait_for_done].  [example_unstaffed]: no encoder at all, after
    two turns of [queues_wait_for_done]. *)
Definition example_start : sys :=
  main_start [lit "a.mp4"] DEFAULT_OUT_DIR DEFAULT_CQ_INITIAL 1 1.

Definition state_after (acts : list action) (s : sys) : sys :=
  match exec_all ascii_digits_only exact_decimal (95 # 1) acts s with
  | Some s' => s'
  | None => s
  end.

Definition example_busy : sys :=
  Eval vm_compute in state_after [Orch; TGet 0] example_start.

Definition example_dead : sys :=
  Eval vm_compute in state_after [TForward 0 SpawnRaises] example_busy.

Definition example_stuck : sys :=
  Eval vm_compute in state_after [Orch; Orch; Orch] example_dead.

Definition example_unstaffed : sys :=
  Eval vm_compute in
    state_after [Orch; Orch]
                (main_start [lit "a.mp4"] DEFAULT_OUT_DIR DEFAULT_CQ_INITIAL
                            0 1).

(** * Properties *)

Lemma str_eqb_eq (a b : str) : str_eqb a b = true <-> a = b.
Proof.
  unfold str_eqb. destruct (list_eq_dec N.eq_dec a b); split; congruence.
Qed.

Lemma str_eqb_refl (a : str) : str_eqb a a = true.
Proof. now apply str_eqb_eq. Qed.

Lemma str_eqb_neq (a b : str) : str_eqb a b = false <-> a <> b.
Proof.
  unfold str_eqb. destruct (list_eq_dec N.eq_dec a b); split; congruence.
Qed.

Lemma str_eqb_sym (a b : str) : str_eqb a b = str_eqb b a.
Proof.
  unfold str_eqb.
  destruct (list_eq_dec N.eq_dec a b), (list_eq_dec N.eq_dec b a); congruence.
Qed.

(** ** The counting queue *)

Lemma queue_ok_init : queue_ok (Queue.init 0).
Proof. unfold queue_ok; cbn; lia. Qed.

Lemma queue_ok_not_full q : queue_ok q -> Queue.full q = false.
Proof. intros (Hm & _). unfold Queue.full. now rewrite Hm. Qed.

Lemma put_nowait_ok q x :
  queue_ok q ->
  Queue.put_nowait x q
  = (Val tt, Queue.mk 0 (Queue._queue q ++ [x])
                      (Queue._unfinished_tasks_custom q + 1)
                      (Queue._unfinished_tasks_custom q + 1)).
Proof.
  intros H. pose proof (queue_ok_not_full q H) as Hf.
  destruct H as (Hm & Hb & Hn).
  unfold Queue.put_nowait, Queue.base_put_nowait. rewrite Hf. cbn.
  unfold Queue.bump_custom; cbn. now rewrite Hm, Hb.
Qed.

Lemma put_ok q x : queue_ok q -> Queue.put x q = Queue.put_nowait x q.
Proof.
  intros H. unfold Queue.put. now rewrite (queue_ok_not_full q H).
Qed.

Lemma task_done_pos q :
  queue_ok q -> 0 < Queue._unfinished_tasks_custom q ->
  Queue.task_done q
  = (Val tt, Queue.mk 0 (Queue._queue q)
                      (Queue._unfinished_tasks_custom q - 1)
                      (Queue._unfinished_tasks_custom q - 1)).
Proof.
  intros (Hm & Hb & Hn) Hpos.
  unfold Queue.task_done, Queue.base_task_done.
  destruct (Z.leb_spec (Queue._unfinished_tasks q) 0); [lia|].
  cbn. unfold Queue.bump_custom; cbn. rewrite Hm, Hb. reflexivity.
Qed.

Lemma task_done_zero q :
  queue_ok q -> Queue._unfinished_tasks_custom q = 0 ->
  Queue.task_done q = (Exc ValueError, q).
Proof.
  intros (Hm & Hb & Hn) Hz.
  unfold Queue.task_done, Queue.base_task_done.
  destruct (Z.leb_spec (Queue._unfinished_tasks q) 0); [reflexivity | lia].
Qed.

Lemma get_counters q :
  Queue.maxsize (snd (Queue.get q)) = Queue.maxsize q
  /\ Queue._unfinished_tasks (snd (Queue.get q)) = Queue._unfinished_tasks q
  /\ Queue._unfinished_tasks_custom (snd (Queue.get q))
     = Queue._unfinished_tasks_custom q.
Proof. unfold Queue.get. destruct (Queue._queue q); cbn; auto. Qed.

Lemma queue_ok_apply o q : queue_ok q -> queue_ok (snd (Queue.apply o q)).
Proof.
  intros H. destruct o; cbn.
  - rewrite (put_nowait_ok q x H). destruct H as (_ & _ & Hn).
    unfold queue_ok; cbn. lia.
  - rewrite (put_ok q x H), (put_nowait_ok q x H). destruct H as (_ & _ & Hn).
    unfold queue_ok; cbn. lia.
  - pose proof (get_counters q) as (E1 & E2 & E3).
    destruct (Queue.get q) as [r q']. cbn in *.
    unfold queue_ok in *. rewrite E1, E2, E3. exact H.
  - destruct (Z.eq_dec (Queue._unfinished_tasks_custom q) 0) as [Hz|Hz].
    + rewrite (task_done_zero q H Hz). exact H.
    + assert (0 < Queue._unfinished_tasks_custom q)
        by (destruct H as (_ & _ & ?); lia).
      rewrite (task_done_pos q H H0). unfold queue_ok; cbn. lia.
  - exact H.
Qed.

Lemma queue_ok_run ops : forall q, queue_ok q -> queue_ok (Queue.run ops q).
Proof.
  induction ops as [|o ops IH]; intros q H; cbn; [exact H|].
  apply IH, queue_ok_apply, H.
Qed.

Lemma queue_ok_reachable q : Queue.reachable q -> queue_ok q.
Proof. intros [ops ->]. apply queue_ok_run, queue_ok_init. Qed.

Ltac count_step :=
  cbn; rewrite ?orb_true_r, ?orb_false_r;
  unfold Queue.get_unfinished_tasks; cbn; try lia.

(** The counter after a run, from a well-formed start: what it was, plus
    the enqueues, minus the mark-dones that returned. *)
Lemma run_counts ops : forall q,
  queue_ok q ->
  Queue.get_unfinished_tasks (Queue.run ops q)
  = Queue.get_unfinished_tasks q
    + Queue.count Queue.is_enqueue false ops q
    - Queue.count Queue.is_mark_done true ops q.
Proof.
  induction ops as [|o ops IH]; intros q H; cbn [Queue.run Queue.count].
  - lia.
  - pose proof (queue_ok_apply o q H) as H'.
    rewrite (IH _ H'). clear IH.
    destruct (Queue.apply o q) as [ok q'] eqn:E. cbn [snd] in *.
    assert (Queue.get_unfinished_tasks q'
            = Queue.get_unfinished_tasks q
              + (if Queue.is_enqueue o && (ok || negb false) then 1 else 0)
              - (if Queue.is_mark_done o && (ok || negb true) then 1 else 0))
      as Hstep.
    { destruct o; cbn in E |- *.
      - rewrite (put_nowait_ok q x H) in E. inversion E; subst. count_step.
      - rewrite (put_ok q x H), (put_nowait_ok q x H) in E.
        inversion E; subst. count_step.
      - pose proof (get_counters q) as (_ & _ & E3).
        destruct (Queue.get q) as [r q'']. inversion E; subst. cbn in E3.
        unfold Queue.get_unfinished_tasks. lia.
      - destruct (Z.eq_dec (Queue._unfinished_tasks_custom q) 0) as [Hz|Hz].
        + rewrite (task_done_zero q H Hz) in E. inversion E; subst.
          count_step.
        + assert (0 < Queue._unfinished_tasks_custom q) as Hp
            by (destruct H as (_ & _ & ?); lia).
          rewrite (task_done_pos q H Hp) in E. inversion E; subst.
          count_step.
      - inversion E; subst. count_step. }
    rewrite Hstep. lia.
Qed.

Lemma enqueues_all_return ops : forall q,
  queue_ok q ->
  Queue.count Queue.is_enqueue true ops q
  = Queue.count Queue.is_enqueue false ops q.
Proof.
  induction ops as [|o ops IH]; intros q H; cbn [Queue.count]; [reflexivity|].
  pose proof (queue_ok_apply o q H) as H'.
  destruct (Queue.apply o q) as [ok q'] eqn:E. cbn [snd] in H'.
  rewrite (IH _ H'). f_equal.
  destruct o; cbn in E |- *; try reflexivity.
  - rewrite (put_nowait_ok q x H) in E. now inversion E.
  - rewrite (put_ok q x H), (put_nowait_ok q x H) in E. now inversion E.
Qed.

(** C4, as the code has it.  For every queue created by
    [CustomAsyncQueue()] and every sequence of calls made on it: the
    outstanding count is never negative; [put_nowait] and [put] return and
    raise it by exactly one; [task_done] lowers it by exactly one when it is
    positive, and raises [ValueError] leaving the queue as it was when it is
    zero; [get] leaves it unchanged; [get_unfinished_tasks] returns the
    current value and changes nothing.  Hence the count equals the number
    of enqueues minus the number of mark-dones that returned. *)
Theorem outstanding_counts_enqueues_minus_returned_mark_dones :
  forall (ops : list Queue.op),
    let q := Queue.run ops (Queue.init 0) in
    let n := Queue.get_unfinished_tasks q in
    0 <= n
    /\ (forall x, fst (Queue.put_nowait x q) = Val tt
                  /\ Queue.get_unfinished_tasks
                       (snd (Queue.put_nowait x q)) = n + 1)
    /\ (forall x, fst (Queue.put x q) = Val tt
                  /\ Queue.get_unfinished_tasks (snd (Queue.put x q)) = n + 1)
    /\ (0 < n -> fst (Queue.task_done q) = Val tt
                 /\ Queue.get_unfinished_tasks
                      (snd (Queue.task_done q)) = n - 1)
    /\ (n = 0 -> Queue.task_done q = (Exc ValueError, q))
    /\ Queue.get_unfinished_tasks (snd (Queue.get q)) = n
    /\ Queue.apply Queue.GetUnfinishedTasks q = (true, q)
    /\ n = Queue.count Queue.is_enqueue false ops (Queue.init 0)
           - Queue.count Queue.is_mark_done true ops (Queue.init 0)
    /\ Queue.count Queue.is_enqueue true ops (Queue.init 0)
       = Queue.count Queue.is_enqueue false ops (Queue.init 0).
Proof.
  intros ops q n.
  assert (queue_ok q) as H by (apply queue_ok_run, queue_ok_init).
  repeat split.
  - destruct H as (_ & _ & ?); exact H.
  - now rewrite (put_nowait_ok q x H).
  - now rewrite (put_nowait_ok q x H).
  - now rewrite (put_ok q x H), (put_nowait_ok q x H).
  - now rewrite (put_ok q x H), (put_nowait_ok q x H).
  - now rewrite (task_done_pos q H H0).
  - now rewrite (task_done_pos q H H0).
  - intros Hz. now apply task_done_zero.
  - apply get_counters.
  - unfold n, q. rewrite (run_counts ops _ queue_ok_init). cbn. lia.
  - apply enqueues_all_return, queue_ok_init.
Qed.

Lemma outstanding_counts_witness :
  let ops := [Queue.PutNowait ([], [], 40); Queue.Get; Queue.TaskDone;
              Queue.TaskDone] in
  Queue.get_unfinished_tasks (Queue.run ops (Queue.init 0)) = 0
  /\ Queue.task_done (Queue.run ops (Queue.init 0))
     = (Exc ValueError, Queue.run ops (Queue.init 0))
  /\ Queue.count Queue.is_mark_done true ops (Queue.init 0) = 1.
Proof.
  intro ops.
  pose proof (outstanding_counts_enqueues_minus_returned_mark_dones ops)
    as (_ & _ & _ & _ & Hz & _).
  split; [reflexivity|]. split; [apply Hz; reflexivity | reflexivity].
Defined.

(** C4 as stated fails: on a queue with nothing outstanding,
    [task_done] raises and the count stays 0 instead of dropping to -1, so
    the count is not the number of enqueues minus the number of
    mark-dones. *)
Lemma task_done_on_fresh_queue_does_not_decrement :
  let q := Queue.init 0 in
  Queue.task_done q = (Exc ValueError, q)
  /\ Queue.get_unfinished_tasks (snd (Queue.task_done q))
     <> Queue.get_unfinished_tasks q - 1
  /\ Queue.get_unfinished_tasks (Queue.run [Queue.TaskDone] q)
     <> Queue.count Queue.is_enqueue false [Queue.TaskDone] q
        - Queue.count Queue.is_mark_done false [Queue.TaskDone] q.
Proof. cbn. repeat split; discriminate. Qed.

(** ** One turn of a worker loop *)

Lemma float_lt_true score threshold :
  float_lt score threshold = true <-> score_lt score threshold.
Proof.
  destruct score as [q|]; cbn; [|split; [discriminate | tauto]].
  rewrite negb_true_iff. split; intros H.
  - apply Qnot_le_lt. intros Hle. apply Qle_bool_iff in Hle. congruence.
  - destruct (Qle_bool threshold q) eqn:E; [|reflexivity].
    apply Qle_bool_iff in E. exfalso. exact (Qlt_not_le _ _ H E).
Qed.

Lemma float_lt_false score threshold :
  float_lt score threshold = false <-> score_ge score threshold.
Proof.
  destruct score as [q|]; cbn; [|tauto].
  rewrite negb_false_iff. apply Qle_bool_iff.
Qed.

Lemma score_ge_or_lt score threshold :
  score_ge score threshold \/ score_lt score threshold.
Proof.
  destruct (float_lt score threshold) eqn:E.
  - right. now apply float_lt_true.
  - left. now apply float_lt_false.
Qed.

Ltac open_world w :=
  let tq := fresh "tq" in let vq := fresh "vq" in let tr := fresh "tr" in
  destruct w as [tq vq tr];
  let m := fresh "tmax" in let l := fresh "tpend" in
  let b := fresh "tbase" in let c := fresh "tcount" in
  destruct tq as [m l b c];
  let m := fresh "vmax" in let l := fresh "vpend" in
  let b := fresh "vbase" in let c := fresh "vcount" in
  destruct vq as [m l b c];
  unfold world_ok, queue_ok, queue_counted, pending, outstanding,
    Queue.get_unfinished_tasks in *;
  cbn [transcode_q vmaf_q trace queue_of Queue.maxsize Queue._queue
       Queue._unfinished_tasks Queue._unfinished_tasks_custom] in *.

Ltac coro_unfold :=
  unfold transcode_worker, transcode_worker_get, transcode_worker_forward,
    transcode_worker_mark, transcode_async, ffmpeg_run_async,
    vmaf_worker_iter, vmaf_worker_get, vmaf_worker_decide, vmaf_worker_mark,
    measured, q_get, q_put, q_put_nowait, q_task_done, on_queue, bind, ret,
    raise, log, Queue.get, Queue.put, Queue.put_nowait, Queue.task_done,
    Queue.base_put_nowait, Queue.base_task_done, Queue.full, Queue.bump_custom.

(** Opens the world of a turn that starts with an item waiting. *)
Ltac start_turn w Hok Hp :=
  open_world w;
  destruct Hok as ((? & ? & ?) & (? & ? & ?) & ? & ?);
  subst; cbn [List.length] in *.

Ltac finish_turn :=
  unfold turns, world_ok, queue_ok, queue_counted, pending, outstanding,
    Queue.get_unfinished_tasks;
  cbn [fst snd transcode_q vmaf_q trace queue_of Queue.maxsize Queue._queue
       Queue._unfinished_tasks Queue._unfinished_tasks_custom];
  rewrite <- ?app_assoc; cbn [app];
  rewrite ?length_app; cbn [List.length];
  repeat split; try reflexivity; try lia.

Lemma transcode_turn_exited w in_path out_path cq rest stdout rc :
  world_ok w -> pending TQ w = (in_path, out_path, cq) :: rest ->
  let r := transcode_worker (Exited stdout rc) w in
  turns r w (Val tt)
        [EvGet TQ (in_path, out_path, cq); EvRun (Encode in_path out_path cq);
         EvPut VQ (out_path, in_path, cq); EvTaskDone TQ]
        rest (pending VQ w ++ [(out_path, in_path, cq)]) (-1) 1
  /\ world_ok (snd r).
Proof.
  intros Hok Hp. start_turn w Hok Hp.
  coro_unfold. cbn.
  destruct (Z.leb_spec tcount 0); [lia|]. cbn.
  finish_turn.
Qed.

Lemma transcode_turn_spawn_raises w in_path out_path cq rest :
  world_ok w -> pending TQ w = (in_path, out_path, cq) :: rest ->
  let r := transcode_worker SpawnRaises w in
  turns r w (Exc UnboundLocalError)
        [EvGet TQ (in_path, out_path, cq); EvRun (Encode in_path out_path cq)]
        rest (pending VQ w) 0 0
  /\ world_ok (snd r).
Proof.
  intros Hok Hp. start_turn w Hok Hp.
  coro_unfold. cbn. finish_turn.
Qed.

Lemma transcode_turn_interrupted w in_path out_path cq rest :
  world_ok w -> pending TQ w = (in_path, out_path, cq) :: rest ->
  let r := transcode_worker Interrupted w in
  turns r w (Exc CancelledError)
        [EvGet TQ (in_path, out_path, cq); EvRun (Encode in_path out_path cq);
         EvTerminate]
        rest (pending VQ w) 0 0
  /\ world_ok (snd r).
Proof.
  intros Hok Hp. start_turn w Hok Hp.
  coro_unfold. cbn. finish_turn.
Qed.

Lemma vmaf_turn_retry w threshold cq_step distorted reference cq rest score :
  world_ok w -> pending VQ w = (distorted, reference, cq) :: rest ->
  float_lt score threshold && (0 <=? cq - cq_step) = true ->
  let r := vmaf_worker_iter threshold cq_step (measured (Some score)) w in
  turns r w (Val tt)
        [EvGet VQ (distorted, reference, cq);
         EvRun (Measure distorted reference);
         EvPut TQ (reference, distorted, cq - cq_step); EvTaskDone VQ]
        (pending TQ w ++ [(reference, distorted, cq - cq_step)]) rest 1 (-1)
  /\ world_ok (snd r).
Proof.
  intros Hok Hp Hc. start_turn w Hok Hp.
  coro_unfold. cbn. rewrite Hc. cbn.
  destruct (Z.leb_spec vcount 0); [lia|]. cbn.
  finish_turn.
Qed.

Lemma vmaf_turn_keep w threshold cq_step distorted reference cq rest score :
  world_ok w -> pending VQ w = (distorted, reference, cq) :: rest ->
  float_lt score threshold && (0 <=? cq - cq_step) = false ->
  let r := vmaf_worker_iter threshold cq_step (measured (Some score)) w in
  turns r w (Val tt)
        [EvGet VQ (distorted, reference, cq);
         EvRun (Measure distorted reference); EvTaskDone VQ]
        (pending TQ w) rest 0 (-1)
  /\ world_ok (snd r).
Proof.
  intros Hok Hp Hc. start_turn w Hok Hp.
  coro_unfold. cbn. rewrite Hc. cbn.
  destruct (Z.leb_spec vcount 0); [lia|]. cbn.
  finish_turn.
Qed.

Lemma vmaf_turn_unmeasurable w threshold cq_step distorted reference cq rest :
  world_ok w -> pending VQ w = (distorted, reference, cq) :: rest ->
  let r := vmaf_worker_iter threshold cq_step (measured None) w in
  turns r w (Val tt)
        [EvGet VQ (distorted, reference, cq);
         EvRun (Measure distorted reference);
         EvPut VQ (distorted, reference, cq); EvTaskDone VQ]
        (pending TQ w) (rest ++ [(distorted, reference, cq)]) 0 0
  /\ world_ok (snd r).
Proof.
  intros Hok Hp. start_turn w Hok Hp.
  coro_unfold. cbn.
  destruct (Z.leb_spec (vcount + 1) 0); [lia|]. cbn.
  finish_turn.
Qed.

Ltac example_ok :=
  unfold world_ok, queue_ok, queue_counted; cbn; repeat split; lia.

(** C2.  One turn of the quality-check worker on the item
    [(distorted, reference, cq)] whose measurement returned [score]:
    with [score >= threshold] nothing is enqueued; with
    [score < threshold] and [cq - cq_step >= 0] exactly the item
    [(reference, distorted, cq - cq_step)] is put on the encode queue,
    the candidate's path being the output path again; with
    [score < threshold] and [cq - cq_step < 0] nothing is enqueued.  In
    each case the item taken is marked done. *)
Theorem quality_check_decision :
  forall w threshold cq_step distorted reference cq rest score,
    world_ok w -> pending VQ w = (distorted, reference, cq) :: rest ->
    let r := vmaf_worker_iter threshold cq_step (measured (Some score)) w in
    let taken := [EvGet VQ (distorted, reference, cq);
                  EvRun (Measure distorted reference)] in
    (score_ge score threshold ->
     turns r w (Val tt) (taken ++ [EvTaskDone VQ]) (pending TQ w) rest 0 (-1))
    /\ (score_lt score threshold -> 0 <= cq - cq_step ->
        turns r w (Val tt)
              (taken ++ [EvPut TQ (reference, distorted, cq - cq_step);
                         EvTaskDone VQ])
              (pending TQ w ++ [(reference, distorted, cq - cq_step)])
              rest 1 (-1))
    /\ (score_lt score threshold -> cq - cq_step < 0 ->
        turns r w (Val tt) (taken ++ [EvTaskDone VQ]) (pending TQ w) rest
              0 (-1)).
Proof.
  intros w threshold cq_step distorted reference cq rest score Hok Hp r taken.
  split; [|split].
  - intros Hge. apply float_lt_false in Hge.
    apply (vmaf_turn_keep w threshold cq_step distorted reference cq rest
                          score Hok Hp).
    now rewrite Hge.
  - intros Hlt Hnew. apply float_lt_true in Hlt.
    apply (vmaf_turn_retry w threshold cq_step distorted reference cq rest
                           score Hok Hp).
    rewrite Hlt. cbn. now apply Z.leb_le.
  - intros Hlt Hnew. apply float_lt_true in Hlt.
    apply (vmaf_turn_keep w threshold cq_step distorted reference cq rest
                          score Hok Hp).
    rewrite Hlt. cbn. now apply Z.leb_gt.
Qed.

Lemma quality_check_decision_witness :
  (pending TQ (snd (vmaf_worker_iter (95 # 1) 2 (measured (Some (Finite (96 # 1))))
                                     (example_encoded 40))) = [])
  /\ (pending TQ (snd (vmaf_worker_iter (95 # 1) 2
                                        (measured (Some (Finite (50 # 1))))
                                        (example_encoded 40)))
      = [(lit "a.mp4", lit "out/a.mkv", 38)])
  /\ (pending TQ (snd (vmaf_worker_iter (95 # 1) 2
                                        (measured (Some (Finite (50 # 1))))
                                        (example_encoded 1))) = []).
Proof.
  split; [|split].
  - assert (world_ok (example_encoded 40)) as Hok by example_ok.
    destruct (quality_check_decision (example_encoded 40) (95 # 1) 2
                (lit "out/a.mkv") (lit "a.mp4") 40 [] (Finite (96 # 1))
                Hok eq_refl) as (Hacc & _ & _).
    assert (score_ge (Finite (96 # 1)) (95 # 1)) as Hge
      by (unfold score_ge, Qle; cbn; lia).
    destruct (Hacc Hge) as (_ & _ & Htq & _). exact Htq.
  - assert (world_ok (example_encoded 40)) as Hok by example_ok.
    destruct (quality_check_decision (example_encoded 40) (95 # 1) 2
                (lit "out/a.mkv") (lit "a.mp4") 40 [] (Finite (50 # 1))
                Hok eq_refl) as (_ & Hretry & _).
    assert (score_lt (Finite (50 # 1)) (95 # 1)) as Hlt
      by (unfold score_lt, Qlt; cbn; lia).
    assert (0 <= 40 - 2) as Hnew by lia.
    destruct (Hretry Hlt Hnew) as (_ & _ & Htq & _). exact Htq.
  - assert (world_ok (example_encoded 1)) as Hok by example_ok.
    destruct (quality_check_decision (example_encoded 1) (95 # 1) 2
                (lit "out/a.mkv") (lit "a.mp4") 1 [] (Finite (50 # 1))
                Hok eq_refl) as (_ & _ & Hab).
    assert (score_lt (Finite (50 # 1)) (95 # 1)) as Hlt
      by (unfold score_lt, Qlt; cbn; lia).
    assert (1 - 2 < 0) as Hnew by lia.
    destruct (Hab Hlt Hnew) as (_ & _ & Htq & _). exact Htq.
Defined.

(** C3, as the code has it.  The encode worker never looks at how the
    encode process ended.  When the process ran and exited, with whatever
    return code, the worker puts the quality-check item
    [(out_path, in_path, cq)] on the quality-check queue and then marks
    the encode item done, and it puts nothing on the encode queue (no
    retry).  When the invocation raises because the process could not be
    started, the exception leaves the worker loop: nothing is enqueued,
    no retry is made, and the item is not marked done. *)
Theorem encode_exit_status_is_not_inspected :
  forall w in_path out_path cq rest,
    world_ok w -> pending TQ w = (in_path, out_path, cq) :: rest ->
    let started := [EvGet TQ (in_path, out_path, cq);
                    EvRun (Encode in_path out_path cq)] in
    (forall stdout returncode,
        turns (transcode_worker (Exited stdout returncode) w) w (Val tt)
              (started ++ [EvPut VQ (out_path, in_path, cq); EvTaskDone TQ])
              rest (pending VQ w ++ [(out_path, in_path, cq)]) (-1) 1)
    /\ turns (transcode_worker SpawnRaises w) w (Exc UnboundLocalError)
             started rest (pending VQ w) 0 0.
Proof.
  intros w in_path out_path cq rest Hok Hp started. split.
  - intros stdout returncode.
    apply (transcode_turn_exited w in_path out_path cq rest stdout returncode
                                 Hok Hp).
  - apply (transcode_turn_spawn_raises w in_path out_path cq rest Hok Hp).
Qed.

Lemma encode_exit_status_witness :
  pending VQ (snd (transcode_worker (Exited [] 1) example_seeded))
  = [(lit "out/a.mkv", lit "a.mp4", 40)]
  /\ outstanding TQ (snd (transcode_worker SpawnRaises example_seeded))
     = 1.
Proof.
  assert (world_ok example_seeded) as Hok by example_ok.
  destruct (encode_exit_status_is_not_inspected example_seeded
              (lit "a.mp4") (lit "out/a.mkv") 40 [] Hok eq_refl)
    as (Hexit & Hraise).
  split.
  - destruct (Hexit [] 1) as (_ & _ & _ & Hvq & _). exact Hvq.
  - destruct Hraise as (_ & _ & _ & _ & Htq & _). exact Htq.
Defined.

(** C3 as stated fails: an encode process that exits with status 1 is
    followed by the quality-check item all the same. *)
Lemma failed_encode_still_enqueues_quality_check :
  let r := transcode_worker (Exited [] 1) example_seeded in
  fst r = Val tt
  /\ pending VQ (snd r) = [(lit "out/a.mkv", lit "a.mp4", 40)]
  /\ outstanding VQ (snd r) = 1
  /\ pending VQ (snd r) <> [].
Proof. cbn. repeat split; discriminate. Qed.

(** ** Order of the queue calls within a turn *)

(** C5.  In a turn of the encode worker whose encode returned, the
    quality-check item is put on the quality-check queue before the encode
    item is marked done.  In a turn of the quality-check worker, on each
    of the four branches, whatever is enqueued (the retry on the encode
    queue, the same item again on the quality-check queue, or nothing) is
    enqueued before the item is marked done.  In every such turn the item
    taken is marked done exactly once, as the last queue call. *)
Theorem successor_enqueued_before_mark_done :
  (forall w in_path out_path cq rest stdout returncode,
      world_ok w -> pending TQ w = (in_path, out_path, cq) :: rest ->
      let r := transcode_worker (Exited stdout returncode) w in
      fst r = Val tt
      /\ exists evs, trace (snd r) = trace w ++ evs
                     /\ put_then_done TQ [EvPut VQ (out_path, in_path, cq)] evs)
  /\ (forall w threshold cq_step distorted reference cq rest vmaf_score,
         world_ok w -> pending VQ w = (distorted, reference, cq) :: rest ->
         let r := vmaf_worker_iter threshold cq_step (measured vmaf_score) w in
         let successors :=
           match vmaf_score with
           | None => [EvPut VQ (distorted, reference, cq)]
           | Some score =>
               if float_lt score threshold
               then if 0 <=? cq - cq_step
                    then [EvPut TQ (reference, distorted, cq - cq_step)]
                    else []
               else []
           end in
         fst r = Val tt
         /\ exists evs, trace (snd r) = trace w ++ evs
                        /\ put_then_done VQ successors evs).
Proof.
  split.
  - intros w in_path out_path cq rest stdout returncode Hok Hp r.
    destruct (transcode_turn_exited w in_path out_path cq rest stdout
                returncode Hok Hp) as ((Hr & Htr & _) & _).
    split; [exact Hr|]. eexists. split; [exact Htr|].
    unfold put_then_done. split; [|cbn; auto].
    exists (in_path, out_path, cq), [EvRun (Encode in_path out_path cq)].
    cbn. auto.
  - intros w threshold cq_step distorted reference cq rest vmaf_score Hok Hp
           r successors.
    destruct vmaf_score as [score|].
    + destruct (float_lt score threshold && (0 <=? cq - cq_step)) eqn:Hc.
      * destruct (vmaf_turn_retry w threshold cq_step distorted reference cq
                    rest score Hok Hp Hc) as ((Hr & Htr & _) & _).
        apply andb_true_iff in Hc. destruct Hc as [Hlt Hnew].
        unfold successors. rewrite Hlt, Hnew.
        split; [exact Hr|]. eexists. split; [exact Htr|].
        unfold put_then_done. split; [|cbn; auto].
        exists (distorted, reference, cq),
          [EvRun (Measure distorted reference)].
        cbn. auto.
      * destruct (vmaf_turn_keep w threshold cq_step distorted reference cq
                    rest score Hok Hp Hc) as ((Hr & Htr & _) & _).
        assert (successors = []) as ->.
        { unfold successors.
          destruct (float_lt score threshold); [|reflexivity].
          cbn in Hc. now rewrite Hc. }
        split; [exact Hr|]. eexists. split; [exact Htr|].
        unfold put_then_done. split; [|cbn; auto].
        exists (distorted, reference, cq),
          [EvRun (Measure distorted reference)].
        cbn. auto.
    + destruct (vmaf_turn_unmeasurable w threshold cq_step distorted
                  reference cq rest Hok Hp) as ((Hr & Htr & _) & _).
      split; [exact Hr|]. eexists. split; [exact Htr|].
      unfold put_then_done. split; [|cbn; auto].
      exists (distorted, reference, cq),
        [EvRun (Measure distorted reference)].
      cbn. auto.
Qed.

Lemma successor_enqueued_before_mark_done_witness :
  (exists evs,
      trace (snd (transcode_worker (Exited [] 0) example_seeded))
      = trace example_seeded ++ evs
      /\ put_then_done TQ [EvPut VQ (lit "out/a.mkv", lit "a.mp4", 40)] evs)
  /\ (exists evs,
         trace (snd (vmaf_worker_iter (95 # 1) 2 (measured None)
                                      (example_encoded 40)))
         = trace (example_encoded 40) ++ evs
         /\ put_then_done VQ [EvPut VQ (lit "out/a.mkv", lit "a.mp4", 40)]
                          evs).
Proof.
  destruct successor_enqueued_before_mark_done as (Ht & Hv). split.
  - assert (world_ok example_seeded) as Hok by example_ok.
    exact (proj2 (Ht example_seeded (lit "a.mp4") (lit "out/a.mkv") 40 []
                     [] 0 Hok eq_refl)).
  - assert (world_ok (example_encoded 40)) as Hok by example_ok.
    exact (proj2 (Hv (example_encoded 40) (95 # 1) 2 (lit "out/a.mkv")
                     (lit "a.mp4") 40 [] None Hok eq_refl)).
Defined.

(** ** Measurements without a score *)

Lemma measurements_app a b :
  measurements (a ++ b) = (measurements a + measurements b)%nat.
Proof.
  induction a as [|e a IH]; cbn; [reflexivity|].
  destruct e as [| | |p|]; cbn; try apply IH. destruct p; cbn; rewrite IH; lia.
Qed.

Lemma repeat_unmeasurable n : forall w threshold cq_step x,
  world_ok w -> pending VQ w = [x] ->
  let r := repeat_turn n (vmaf_worker_iter threshold cq_step (measured None))
                       w in
  fst r = Val tt
  /\ world_ok (snd r)
  /\ pending VQ (snd r) = [x]
  /\ pending TQ (snd r) = pending TQ w
  /\ outstanding VQ (snd r) = outstanding VQ w
  /\ outstanding TQ (snd r) = outstanding TQ w
  /\ measurements (trace (snd r)) = (measurements (trace w) + n)%nat.
Proof.
  induction n as [|n IH]; intros w threshold cq_step x Hok Hp; cbv zeta.
  - cbn. rewrite Nat.add_0_r. auto 10.
  - destruct x as [[d rf] cq].
    destruct (vmaf_turn_unmeasurable w threshold cq_step d rf cq [] Hok Hp)
      as ((Hr & Htr & Htq & Hvq & Hot & Hov) & Hok').
    cbn [repeat_turn]. unfold bind.
    destruct (vmaf_worker_iter threshold cq_step (measured None) w)
      as [o w'] eqn:E.
    cbn [fst snd] in *. subst o.
    pose proof (IH w' threshold cq_step (d, rf, cq) Hok' Hvq) as H.
    cbv zeta in H. destruct H as (H1 & H2 & H3 & H4 & H5 & H6 & H7).
    split; [exact H1|]. split; [exact H2|]. split; [exact H3|].
    split; [congruence|]. split; [lia|]. split; [lia|].
    rewrite H7, Htr, measurements_app. cbn. lia.
Qed.

Lemma simulate_unmeasurable_never_ends fuel :
  forall w threshold cq_step enc k,
    world_ok w -> pending TQ w = [] -> pending VQ w <> [] ->
    simulate fuel threshold cq_step enc (fun _ => None) k w = None.
Proof.
  induction fuel as [|fuel IH]; intros w threshold cq_step enc k Hok Ht Hv.
  - unfold pending in *. cbn in *. unfold Queue.empty. rewrite Ht.
    destruct (Queue._queue (vmaf_q w)); [congruence|reflexivity].
  - destruct (pending VQ w) as [|[[d rf] cq] rest] eqn:Hp; [congruence|].
    destruct (vmaf_turn_unmeasurable w threshold cq_step d rf cq rest Hok Hp)
      as ((Hr & Htr & Htq & Hvq & Hot & Hov) & Hok').
    cbn [simulate]. unfold pending in Ht, Hp. cbn [queue_of] in Ht, Hp.
    unfold Queue.empty. rewrite Ht, Hp. cbn [negb].
    destruct (vmaf_worker_iter threshold cq_step (measured None) w)
      as [o w'] eqn:E.
    cbn [fst snd] in *. subst o.
    apply IH; [exact Hok' | | ].
    + rewrite <- Ht. exact Htq.
    + rewrite Hvq. destruct rest; discriminate.
Qed.

(** C7.  When the measurement yields no score, the quality-check worker
    puts the very item it took, [(distorted, reference, cq)], back on the
    quality-check queue and then marks the taken item done, whatever the
    threshold, the step and the state of the queues.  Nothing limits the
    repetition: after any number [n] of such turns the item is waiting
    again, [n] measurements were made, and a run in which every
    measurement yields no score does not end within any number of
    turns. *)
Theorem unmeasurable_item_requeued_unchanged :
  forall w threshold cq_step distorted reference cq rest,
    world_ok w -> pending VQ w = (distorted, reference, cq) :: rest ->
    turns (vmaf_worker_iter threshold cq_step (measured None) w) w (Val tt)
          [EvGet VQ (distorted, reference, cq);
           EvRun (Measure distorted reference);
           EvPut VQ (distorted, reference, cq); EvTaskDone VQ]
          (pending TQ w) (rest ++ [(distorted, reference, cq)]) 0 0
    /\ (rest = [] ->
        forall n,
          let r := repeat_turn n (vmaf_worker_iter threshold cq_step
                                                   (measured None)) w in
          fst r = Val tt
          /\ pending VQ (snd r) = [(distorted, reference, cq)]
          /\ outstanding VQ (snd r) = outstanding VQ w
          /\ measurements (trace (snd r)) = (measurements (trace w) + n)%nat)
    /\ (pending TQ w = [] ->
        forall fuel enc k,
          simulate fuel threshold cq_step enc (fun _ => None) k w = None).
Proof.
  intros w threshold cq_step distorted reference cq rest Hok Hp.
  split; [|split].
  - apply (vmaf_turn_unmeasurable w threshold cq_step distorted reference cq
                                  rest Hok Hp).
  - intros -> n.
    destruct (repeat_unmeasurable n w threshold cq_step
                (distorted, reference, cq) Hok Hp)
      as (H1 & _ & H3 & _ & H5 & _ & H7).
    auto.
  - intros Ht fuel enc k.
    apply simulate_unmeasurable_never_ends; [exact Hok | exact Ht |].
    rewrite Hp. discriminate.
Qed.

Lemma unmeasurable_item_requeued_witness :
  pending VQ (snd (vmaf_worker_iter (95 # 1) 2 (measured None)
                                    (example_encoded 40)))
  = [(lit "out/a.mkv", lit "a.mp4", 40)]
  /\ simulate 1000 (95 # 1) 2 (Exited [] 0) (fun _ => None) 0
              (example_encoded 40) = None.
Proof.
  assert (world_ok (example_encoded 40)) as Hok by example_ok.
  destruct (unmeasurable_item_requeued_unchanged (example_encoded 40)
              (95 # 1) 2 (lit "out/a.mkv") (lit "a.mp4") 40 [] Hok eq_refl)
    as ((_ & _ & _ & Hvq & _) & _ & Hnever).
  split; [exact Hvq|]. apply Hnever. reflexivity.
Defined.

(** ** The search over the parameter *)

Lemma simulate_round fuel threshold cq_step stdout rc scores k i o cq tr score :
  scores k = Some score ->
  simulate (S (S fuel)) threshold cq_step (Exited stdout rc) scores k
           (one_task i o cq tr)
  = if float_lt score threshold && (0 <=? cq - cq_step)
    then simulate fuel threshold cq_step (Exited stdout rc) scores (S k)
           (one_task i o (cq - cq_step)
              (tr ++ round_events i o cq
                  ++ [EvPut TQ (i, o, cq - cq_step); EvTaskDone VQ]))
    else Some (Val tt, all_done (tr ++ round_events i o cq ++ [EvTaskDone VQ])).
Proof.
  intros Hs.
  cbn [simulate one_task transcode_q vmaf_q Queue.empty Queue._queue negb].
  coro_unfold. cbn -[simulate]. rewrite Hs.
  destruct (float_lt score threshold && (0 <=? cq - cq_step));
    cbn -[simulate].
  - unfold one_task, round_events. rewrite <- !app_assoc. reflexivity.
  - destruct fuel; cbn; unfold all_done, round_events;
      rewrite <- !app_assoc; reflexivity.
Qed.

Lemma visited_app a b : visited (a ++ b) = visited a ++ visited b.
Proof.
  induction a as [|e a IH]; cbn; [reflexivity|].
  destruct e as [| | |p|]; cbn; try apply IH. destruct p; cbn; now rewrite IH.
Qed.

Lemma descending_length n start step :
  List.length (descending n start step) = n.
Proof. revert start. induction n; intros; cbn; auto. Qed.

Lemma descending_decreasing n : forall start step,
  0 < step -> strictly_decreasing (descending n start step).
Proof.
  induction n as [|n IH]; intros start step Hs; cbn; [exact I|].
  destruct n as [|n]; cbn; [exact I|].
  split; [lia|]. apply (IH (start - step) step Hs).
Qed.

Lemma descending_range n : forall start step c,
  0 < step -> Z.of_nat n <= start / step + 1 -> 0 <= start ->
  In c (descending n start step) -> 0 <= c <= start.
Proof.
  induction n as [|n IH]; intros start step c Hs Hn H0 Hin; cbn in Hin;
    [contradiction|].
  destruct Hin as [<-|Hin]; [lia|].
  destruct n as [|n]; [contradiction|].
  assert (1 <= start / step) as Hq by lia.
  assert (step <= start) as Hle.
  { pose proof (Z.mul_div_le start step Hs). nia. }
  assert ((start - step) / step = start / step - 1) as Hdiv.
  { replace (start - step) with (start + (-1) * step) by lia.
    rewrite Z.div_add by lia. lia. }
  assert (0 <= c <= start - step); [|lia].
  apply (IH (start - step) step c Hs); [rewrite Hdiv; lia | lia | exact Hin].
Qed.

(** From one encode item at [cq], with every measurement giving a score:
    the run ends within [2 * (cq / cq_step + 1)] worker turns, and the
    encodes it started are at [cq], [cq - cq_step], ... *)
Lemma search_terminates m :
  forall threshold cq_step stdout rc (scores : nat -> pyfloat) k i o cq tr fuel,
    0 < cq_step -> 0 <= cq -> Z.to_nat (cq / cq_step) = m ->
    (2 * (m + 1) <= fuel)%nat ->
    exists tr' n,
      simulate fuel threshold cq_step (Exited stdout rc)
               (fun j => Some (scores j)) k (one_task i o cq tr)
      = Some (Val tt, all_done tr')
      /\ visited tr' = visited tr ++ descending n cq cq_step
      /\ (1 <= n <= m + 1)%nat
      /\ ((forall j, float_lt (scores j) threshold = true) -> n = (m + 1)%nat).
Proof.
  induction m as [|m IH];
    intros threshold cq_step stdout rc scores k i o cq tr fuel Hs Hcq Hm Hf.
  - destruct fuel as [|[|fuel]]; [lia | lia |].
    rewrite (simulate_round fuel threshold cq_step stdout rc _ k i o cq tr
                            (scores k) eq_refl).
    assert (cq / cq_step = 0) as Hq.
    { pose proof (Z.div_pos cq cq_step Hcq Hs). lia. }
    assert (cq < cq_step) as Hlt.
    { apply Z.div_small_iff in Hq; lia. }
    assert ((0 <=? cq - cq_step) = false) as -> by (apply Z.leb_gt; lia).
    rewrite andb_false_r.
    eexists. exists 1%nat. split; [reflexivity|].
    split; [|split; [lia | reflexivity]].
    rewrite visited_app. reflexivity.
  - destruct fuel as [|[|fuel]]; [lia | lia |].
    rewrite (simulate_round fuel threshold cq_step stdout rc _ k i o cq tr
                            (scores k) eq_refl).
    assert (cq / cq_step = Z.of_nat (S m)) as Hq.
    { pose proof (Z.div_pos cq cq_step Hcq Hs). lia. }
    assert (cq_step <= cq) as Hle.
    { pose proof (Z.mul_div_le cq cq_step Hs). nia. }
    assert ((cq - cq_step) / cq_step = cq / cq_step - 1) as Hdiv.
    { replace (cq - cq_step) with (cq + (-1) * cq_step) by lia.
      rewrite Z.div_add by lia. lia. }
    assert ((0 <=? cq - cq_step) = true) as -> by (apply Z.leb_le; lia).
    rewrite andb_true_r.
    destruct (float_lt (scores k) threshold) eqn:Hrej.
    + destruct (IH threshold cq_step stdout rc scores (S k) i o
                   (cq - cq_step)
                   (tr ++ round_events i o cq
                       ++ [EvPut TQ (i, o, cq - cq_step); EvTaskDone VQ])
                   fuel Hs ltac:(lia) ltac:(lia) ltac:(lia))
        as (tr' & n & Hsim & Hvis & Hn & Hall).
      exists tr', (S n). split; [exact Hsim|].
      split; [|split; [lia|]].
      * rewrite Hvis, visited_app. cbn. rewrite <- app_assoc. reflexivity.
      * intros Hrejall. rewrite (Hall Hrejall). reflexivity.
    + eexists. exists 1%nat. split; [reflexivity|].
      split; [|split; [lia|]].
      * rewrite visited_app. reflexivity.
      * intros Hrejall. rewrite Hrejall in Hrej. discriminate.
Qed.

Lemma seed_one_task file output_dir init_cq ext :
  snd (queues_populate [file] output_dir init_cq ext fresh_world)
  = one_task file (out_path output_dir ext file) init_cq
             [EvPut TQ (file, out_path output_dir ext file, init_cq)].
Proof. reflexivity. Qed.

(** C6.  One logical task, seeded at [init_cq >= 0], with a fixed
    [cq_step > 0], whose encodes all exit and whose measurements all give
    a score: the run ends (both queues empty, nothing outstanding) within
    [2 * (init_cq / cq_step + 1)] worker turns; the parameters of the
    encodes are [init_cq, init_cq - cq_step, ...], strictly decreasing and
    never below zero; there are at most [init_cq / cq_step + 1] of them,
    and exactly that many when every score is below the threshold. *)
Theorem parameter_search_is_bounded :
  forall file output_dir init_cq cq_step threshold stdout rc
         (scores : nat -> pyfloat) fuel,
    0 <= init_cq -> 0 < cq_step ->
    (2 * (Z.to_nat (init_cq / cq_step) + 1) <= fuel)%nat ->
    let w0 := snd (queues_populate [file] output_dir init_cq
                                   DEFAULT_OUT_FILE_EXTENSION fresh_world) in
    exists w n,
      simulate fuel threshold cq_step (Exited stdout rc)
               (fun j => Some (scores j)) 0 w0 = Some (Val tt, w)
      /\ pending TQ w = [] /\ pending VQ w = []
      /\ outstanding TQ w = 0 /\ outstanding VQ w = 0
      /\ visited (trace w) = descending n init_cq cq_step
      /\ strictly_decreasing (visited (trace w))
      /\ (forall c, In c (visited (trace w)) -> 0 <= c <= init_cq)
      /\ 1 <= Z.of_nat n <= init_cq / cq_step + 1
      /\ ((forall j, score_lt (scores j) threshold) ->
          Z.of_nat n = init_cq / cq_step + 1).
Proof.
  intros file output_dir init_cq cq_step threshold stdout rc scores fuel
         Hcq Hs Hf w0.
  unfold w0. rewrite seed_one_task.
  destruct (search_terminates (Z.to_nat (init_cq / cq_step)) threshold
              cq_step stdout rc scores 0%nat file
              (out_path output_dir DEFAULT_OUT_FILE_EXTENSION file) init_cq
              [EvPut TQ (file, out_path output_dir DEFAULT_OUT_FILE_EXTENSION
                                        file, init_cq)]
              fuel Hs Hcq eq_refl Hf)
    as (tr' & n & Hsim & Hvis & Hn & Hall).
  cbn [visited app] in Hvis.
  pose proof (Z.div_pos init_cq cq_step Hcq Hs) as Hq.
  assert (1 <= Z.of_nat n <= init_cq / cq_step + 1) as Hn' by lia.
  exists (all_done tr'), n. split; [exact Hsim|].
  repeat (split; [reflexivity|]).
  cbn [trace all_done]. rewrite Hvis.
  split; [reflexivity|].
  split; [now apply descending_decreasing|].
  split; [intros c Hin; apply (descending_range n init_cq cq_step c);
          try assumption; lia|].
  split; [exact Hn'|].
  intros Hrej. rewrite Hall; [lia|].
  intros j. apply float_lt_true, Hrej.
Qed.

Lemma parameter_search_witness :
  exists w n,
    simulate 6 (95 # 1) 2 (Exited [] 0) (fun _ => Some (Finite (50 # 1))) 0
             (snd (queues_populate [lit "a.mp4"] DEFAULT_OUT_DIR 4
                                   DEFAULT_OUT_FILE_EXTENSION fresh_world))
    = Some (Val tt, w)
    /\ visited (trace w) = descending n 4 2
    /\ Z.of_nat n = 4 / 2 + 1.
Proof.
  destruct (parameter_search_is_bounded (lit "a.mp4") DEFAULT_OUT_DIR 4 2
              (95 # 1) [] 0 (fun _ => Finite (50 # 1)) 6%nat
              ltac:(lia) ltac:(lia) ltac:(cbn; lia))
    as (w & n & Hsim & _ & _ & _ & _ & Hvis & _ & _ & _ & Hall).
  exists w, n. split; [exact Hsim|]. split; [exact Hvis|].
  apply Hall. intros j. unfold score_lt, Qlt. cbn. lia.
Defined.

(** ** Deduplication and seeding *)

Lemma is_in_In l f : is_in l f = true <-> In f l.
Proof.
  unfold is_in. rewrite existsb_exists. split.
  - intros (g & Hin & Hg). apply str_eqb_eq in Hg. now subst.
  - intros Hin. exists f. split; [exact Hin | apply str_eqb_refl].
Qed.

Lemma is_in_not_In l f : is_in l f = false <-> ~ In f l.
Proof.
  rewrite <- is_in_In. destruct (is_in l f); split; congruence.
Qed.

Lemma dict_keys_setitem {V} (k : str) (v : V) (d : pydict V) :
  dict_keys (dict_setitem k v d)
  = if is_in (dict_keys d) k then dict_keys d else dict_keys d ++ [k].
Proof.
  induction d as [|[k' v'] d IH]; cbn; [reflexivity|].
  destruct (str_eqb k' k) eqn:E; cbn; [reflexivity|].
  unfold dict_keys in *. rewrite IH.
  unfold is_in. now destruct (existsb _ _).
Qed.

Lemma store_all_snoc d files f :
  store_all d (files ++ [f]) = dict_setitem f tt (store_all d files).
Proof. unfold store_all. now rewrite fold_left_app. Qed.

Lemma deduplicate_snoc files f :
  deduplicate_files (files ++ [f])
  = if is_in (deduplicate_files files) f
    then deduplicate_files files
    else deduplicate_files files ++ [f].
Proof.
  unfold deduplicate_files, dict_fromkeys.
  change (fold_left (fun d k => dict_setitem k tt d) (files ++ [f]) [])
    with (store_all [] (files ++ [f])).
  rewrite store_all_snoc. apply dict_keys_setitem.
Qed.

Lemma deduplicate_In files : forall f,
  In f (deduplicate_files files) <-> In f files.
Proof.
  induction files as [|g files IH] using rev_ind; intros f.
  - cbn. tauto.
  - rewrite deduplicate_snoc, in_app_iff.
    destruct (is_in (deduplicate_files files) g) eqn:E.
    + apply is_in_In in E. rewrite IH. cbn. split; [tauto|].
      intros [H|[<-|[]]]; [exact H | now apply IH].
    + rewrite in_app_iff, IH. tauto.
Qed.

Lemma deduplicate_NoDup files : NoDup (deduplicate_files files).
Proof.
  induction files as [|g files IH] using rev_ind.
  - constructor.
  - rewrite deduplicate_snoc.
    destruct (is_in (deduplicate_files files) g) eqn:E; [exact IH|].
    apply is_in_not_In in E.
    apply NoDup_rev in IH. rewrite <- (rev_involutive (_ ++ [g])).
    apply NoDup_rev. rewrite rev_app_distr. cbn.
    constructor; [|exact IH]. now rewrite <- in_rev.
Qed.

(** Storing [files] into a dictionary that has keys already appends the
    new keys, in the order of their first occurrence. *)
Lemma store_all_keys files : forall d,
  dict_keys (store_all d files)
  = dict_keys d
    ++ filter (fun f => negb (is_in (dict_keys d) f)) (deduplicate_files files).
Proof.
  induction files as [|g files IH] using rev_ind; intros d.
  - cbn. now rewrite app_nil_r.
  - rewrite store_all_snoc, dict_keys_setitem, IH, deduplicate_snoc.
    set (kept := filter (fun f => negb (is_in (dict_keys d) f))
                        (deduplicate_files files)).
    assert (is_in (dict_keys d ++ kept) g
            = is_in (dict_keys d) g || is_in (deduplicate_files files) g)
      as Hin.
    { unfold is_in at 1. rewrite existsb_app. fold (is_in (dict_keys d) g).
      destruct (is_in (dict_keys d) g) eqn:Ed; [reflexivity|]. cbn.
      destruct (is_in (deduplicate_files files) g) eqn:Ef.
      - apply is_in_In. apply is_in_In in Ef. unfold kept.
        apply filter_In. split; [exact Ef|]. now rewrite Ed.
      - apply is_in_not_In. apply is_in_not_In in Ef. unfold kept.
        rewrite filter_In. tauto. }
    rewrite Hin.
    destruct (is_in (deduplicate_files files) g) eqn:Ef.
    + now rewrite orb_true_r.
    + rewrite orb_false_r, filter_app. cbn.
      destruct (is_in (dict_keys d) g); cbn.
      * now rewrite app_nil_r.
      * now rewrite app_assoc.
Qed.

Lemma deduplicate_app l1 l2 :
  deduplicate_files (l1 ++ l2)
  = deduplicate_files l1
    ++ filter (fun f => negb (is_in (deduplicate_files l1) f))
              (deduplicate_files l2).
Proof.
  unfold deduplicate_files at 1, dict_fromkeys.
  rewrite fold_left_app.
  change (fold_left (fun d k => dict_setitem k tt d) l1 [])
    with (dict_fromkeys l1).
  apply (store_all_keys l2 (dict_fromkeys l1)).
Qed.

Lemma deduplicate_keep_first files : deduplicate_files files = keep_first files.
Proof.
  induction files as [|f files IH]; [reflexivity|].
  change (f :: files) with ([f] ++ files).
  rewrite deduplicate_app, IH. cbn. f_equal.
  apply filter_ext. intros g. unfold deduplicate_files. cbn.
  now rewrite orb_false_r, str_eqb_sym.
Qed.

Lemma keep_first_NoDup files : NoDup files -> keep_first files = files.
Proof.
  induction files as [|f files IH]; intros Hnd; [reflexivity|].
  inversion Hnd as [|? ? Hnotin Hnd']; subst. cbn. f_equal.
  rewrite (IH Hnd').
  rewrite forallb_filter_id; [reflexivity|].
  apply forallb_forall. intros g Hg. apply negb_true_iff, str_eqb_neq.
  intros ->. contradiction.
Qed.

Lemma deduplicate_idempotent files :
  deduplicate_files (deduplicate_files files) = deduplicate_files files.
Proof.
  rewrite (deduplicate_keep_first (deduplicate_files files)).
  apply keep_first_NoDup, deduplicate_NoDup.
Qed.

Lemma seed_spec files : forall output_dir init_cq ext w,
  world_ok w ->
  let r := seed files output_dir init_cq ext w in
  turns r w (Val tt) (map (fun f => EvPut TQ (seed_item output_dir init_cq ext f))
                          files)
        (pending TQ w ++ map (seed_item output_dir init_cq ext) files)
        (pending VQ w) (Z.of_nat (List.length files)) 0
  /\ world_ok (snd r).
Proof.
  induction files as [|f files IH]; intros output_dir init_cq ext w Hok;
    cbv zeta.
  - cbn [seed map List.length]. unfold ret, turns. cbn [fst snd].
    rewrite !app_nil_r. repeat split; try reflexivity; try lia; apply Hok.
  - cbn [seed]. unfold bind.
    assert (let r1 := q_put_nowait TQ (seed_item output_dir init_cq ext f) w in
            turns r1 w (Val tt) [EvPut TQ (seed_item output_dir init_cq ext f)]
                  (pending TQ w ++ [seed_item output_dir init_cq ext f])
                  (pending VQ w) 1 0
            /\ world_ok (snd r1)) as H1.
    { clear IH. start_turn w Hok Hok. coro_unfold. cbn. finish_turn. }
    cbv zeta in H1. fold (seed_item output_dir init_cq ext f).
    destruct (q_put_nowait TQ (seed_item output_dir init_cq ext f) w)
      as [o w1] eqn:E.
    destruct H1 as ((Ho & Htr & Htq & Hvq & Hot & Hov) & Hok1).
    cbn [fst snd] in *. subst o.
    pose proof (IH output_dir init_cq ext w1 Hok1) as H2. cbv zeta in H2.
    destruct H2 as ((Ho2 & Htr2 & Htq2 & Hvq2 & Hot2 & Hov2) & Hok2).
    split; [|exact Hok2].
    unfold turns. rewrite Ho2, Htr2, Htq2, Hvq2, Hot2, Hov2.
    rewrite Htr, Htq, Hvq, Hot, Hov.
    cbn [map List.length]. rewrite <- !app_assoc. cbn [app].
    repeat split; try reflexivity; lia.
Qed.

Lemma fresh_world_ok : world_ok fresh_world.
Proof. unfold world_ok, queue_ok, queue_counted. cbn. lia. Qed.

(** C8.  [deduplicate_files] keeps exactly the first occurrence of every
    path, in the order of the first occurrences: its result has no
    repetition and the same members as the input, it is the list obtained
    by keeping each head and dropping its later copies, and the paths that
    first occur in a prefix of the input come first and are the
    deduplication of that prefix.  It is idempotent.  [queues_populate]
    does the same on a list and on its deduplication, and on fresh queues
    it enqueues one item per distinct input, at the initial parameter, in
    that order. *)
Theorem deduplication_keeps_first_occurrences :
  forall files : list str,
    NoDup (deduplicate_files files)
    /\ (forall f, In f (deduplicate_files files) <-> In f files)
    /\ deduplicate_files files = keep_first files
    /\ (forall l1 l2, files = l1 ++ l2 ->
          exists later,
            deduplicate_files files = deduplicate_files l1 ++ later
            /\ forall f, In f later -> ~ In f l1)
    /\ deduplicate_files (deduplicate_files files) = deduplicate_files files
    /\ (forall output_dir init_cq ext w,
          queues_populate files output_dir init_cq ext w
          = queues_populate (deduplicate_files files) output_dir init_cq ext w)
    /\ (forall output_dir init_cq ext,
          let r := queues_populate files output_dir init_cq ext fresh_world in
          fst r = Val tt
          /\ pending TQ (snd r)
             = map (fun f => (f, out_path output_dir ext f, init_cq))
                   (deduplicate_files files)
          /\ outstanding TQ (snd r)
             = Z.of_nat (List.length (deduplicate_files files))
          /\ pending VQ (snd r) = []
          /\ outstanding VQ (snd r) = 0).
Proof.
  intros files.
  split; [apply deduplicate_NoDup|].
  split; [apply deduplicate_In|].
  split; [apply deduplicate_keep_first|].
  split.
  { intros l1 l2 ->. rewrite deduplicate_app. eexists. split; [reflexivity|].
    intros f Hin. apply filter_In in Hin. destruct Hin as [_ Hin].
    apply negb_true_iff, is_in_not_In in Hin.
    now rewrite deduplicate_In in Hin. }
  split; [apply deduplicate_idempotent|].
  split.
  { intros. unfold queues_populate. now rewrite deduplicate_idempotent. }
  intros output_dir init_cq ext r.
  destruct (seed_spec (deduplicate_files files) output_dir init_cq ext
                      fresh_world fresh_world_ok)
    as ((Ho & _ & Htq & Hvq & Hot & Hov) & _).
  unfold r, queues_populate.
  split; [exact Ho|]. split; [exact Htq|]. split; [exact Hot|].
  split; [exact Hvq | exact Hov].
Qed.

Lemma deduplication_witness :
  deduplicate_files [lit "a.mp4"; lit "b.mp4"; lit "a.mp4"]
  = [lit "a.mp4"; lit "b.mp4"]
  /\ exists later,
       deduplicate_files [lit "a.mp4"; lit "b.mp4"; lit "a.mp4"]
       = deduplicate_files [lit "a.mp4"] ++ later
       /\ forall f, In f later -> ~ In f [lit "a.mp4"].
Proof.
  destruct (deduplication_keeps_first_occurrences
              [lit "a.mp4"; lit "b.mp4"; lit "a.mp4"])
    as (_ & _ & Hkeep & Hprefix & _).
  split; [rewrite Hkeep; reflexivity|].
  apply (Hprefix [lit "a.mp4"] [lit "b.mp4"; lit "a.mp4"]). reflexivity.
Defined.

(** ** Output paths *)

Lemma rfind_from_app c a : forall b i found,
  rfind_from c (a ++ b) i found
  = rfind_from c b (i + Z.of_nat (List.length a)) (rfind_from c a i found).
Proof.
  induction a as [|x a IH]; intros b i found; cbn [app rfind_from List.length].
  - now rewrite Z.add_0_r.
  - rewrite IH. f_equal. lia.
Qed.

Lemma rfind_from_notin c s : forall i found,
  ~ In c s -> rfind_from c s i found = found.
Proof.
  induction s as [|x s IH]; intros i found Hn; cbn; [reflexivity|].
  destruct (N.eqb_spec x c) as [->|_].
  - exfalso. apply Hn. now left.
  - apply IH. intros H. apply Hn. now right.
Qed.

Lemma rfind_notin c s : ~ In c s -> rfind c s = -1.
Proof. apply rfind_from_notin. Qed.

Lemma rfind_last c d b :
  ~ In c b -> rfind c (d ++ c :: b) = Z.of_nat (List.length d).
Proof.
  intros Hn. unfold rfind. rewrite rfind_from_app. cbn [rfind_from].
  rewrite N.eqb_refl. now rewrite rfind_from_notin.
Qed.

(** A string either has no [c], or splits at its last [c]. *)
Lemma split_at_last c (s : str) :
  ~ In c s \/ exists d b, s = d ++ c :: b /\ ~ In c b.
Proof.
  induction s as [|x s IH]; [left; intros []|].
  destruct IH as [Hn|(d & b & -> & Hb)].
  - destruct (N.eq_dec x c) as [->|Hx].
    + right. exists [], s. split; [reflexivity | exact Hn].
    + left. intros [H|H]; [now apply Hx | now apply Hn].
  - right. exists (x :: d), b. split; [reflexivity | exact Hb].
Qed.

Lemma slice_from_app (a b : str) :
  slice_from (a ++ b) (Z.of_nat (List.length a)) = b.
Proof.
  unfold slice_from. rewrite Nat2Z.id.
  rewrite skipn_app, skipn_all, Nat.sub_diag. reflexivity.
Qed.

Lemma slice_to_app (a b : str) :
  slice_to (a ++ b) (Z.of_nat (List.length a)) = a.
Proof.
  unfold slice_to. rewrite Nat2Z.id.
  rewrite firstn_app, firstn_all, Nat.sub_diag. cbn. now rewrite app_nil_r.
Qed.

Lemma basename_no_sep p : ~ In SEP p -> basename p = p.
Proof.
  intros Hn. unfold basename. now rewrite (rfind_notin SEP p Hn).
Qed.

Lemma basename_last d b : ~ In SEP b -> basename (d ++ SEP :: b) = b.
Proof.
  intros Hn. unfold basename. rewrite (rfind_last SEP d b Hn).
  replace (Z.of_nat (List.length d) + 1)
    with (Z.of_nat (List.length (d ++ [SEP])))
    by (rewrite length_app; cbn; lia).
  change (d ++ SEP :: b) with (d ++ [SEP] ++ b). rewrite app_assoc.
  apply slice_from_app.
Qed.

Lemma basename_free p : ~ In SEP (basename p).
Proof.
  destruct (split_at_last SEP p) as [Hn|(d & b & -> & Hb)].
  - now rewrite basename_no_sep.
  - now rewrite basename_last.
Qed.

Lemma path_parts p : exists d, dir_part d /\ p = d ++ basename p.
Proof.
  destruct (split_at_last SEP p) as [Hn|(d & b & -> & Hb)].
  - exists []. split; [now left | now rewrite basename_no_sep].
  - exists (d ++ [SEP]). split; [right; now exists d|].
    rewrite basename_last by exact Hb. now rewrite <- app_assoc.
Qed.

Lemma basename_after_dir d s : dir_part d -> basename (d ++ s) = basename s.
Proof.
  intros [->|(d' & ->)]; [reflexivity|].
  destruct (split_at_last SEP s) as [Hn|(e & b & -> & Hb)].
  - rewrite <- app_assoc. cbn [app].
    now rewrite basename_last, basename_no_sep.
  - rewrite app_assoc. now rewrite !basename_last.
Qed.

Lemma rfind_sep_dir d b :
  dir_part d -> ~ In SEP b ->
  rfind SEP (d ++ b) = Z.of_nat (List.length d) - 1.
Proof.
  intros [->|(d' & ->)] Hb.
  - cbn [app List.length]. now rewrite rfind_notin.
  - rewrite <- app_assoc. cbn [app]. rewrite rfind_last by exact Hb.
    rewrite length_app. cbn. lia.
Qed.

Lemma rfind_upper c s : rfind c s < Z.of_nat (List.length s).
Proof.
  destruct (split_at_last c s) as [Hn|(d & b & -> & Hb)].
  - rewrite rfind_notin by exact Hn. lia.
  - rewrite rfind_last by exact Hb. rewrite length_app. cbn. lia.
Qed.

Lemma rfind_dot_dir d :
  dir_part d -> rfind FULL_STOP d <= Z.of_nat (List.length d) - 1 - 1
                \/ d = [].
Proof.
  intros [->|(d' & ->)]; [now right|left].
  unfold rfind. rewrite rfind_from_app. cbn [rfind_from].
  change (SEP =? FULL_STOP)%N with false.
  fold (rfind FULL_STOP d'). pose proof (rfind_upper FULL_STOP d').
  rewrite length_app. cbn. lia.
Qed.

Lemma slice_middle (a b c : str) :
  slice (a ++ b ++ c) (Z.of_nat (List.length a))
        (Z.of_nat (List.length a) + Z.of_nat (List.length b)) = b.
Proof.
  unfold slice.
  replace (Z.of_nat (List.length a) + Z.of_nat (List.length b))
    with (Z.of_nat (List.length (a ++ b))) by (rewrite length_app; lia).
  rewrite app_assoc, slice_to_app. apply slice_from_app.
Qed.

Lemma slice_start (b c : str) :
  slice (b ++ c) 0 (Z.of_nat (List.length b)) = b.
Proof. unfold slice. now rewrite slice_to_app. Qed.

(** [splitext] only works on the base name. *)
Lemma splitext_after_dir d b :
  dir_part d -> ~ In SEP b ->
  fst (splitext (d ++ b)) = d ++ fst (splitext b).
Proof.
  intros Hd Hb. unfold splitext.
  rewrite (rfind_sep_dir d b Hd Hb), (rfind_notin SEP b Hb).
  destruct (split_at_last FULL_STOP b) as [Hn|(b1 & b2 & -> & Hb2)].
  - rewrite (rfind_notin FULL_STOP b Hn).
    replace (rfind FULL_STOP (d ++ b)) with (rfind FULL_STOP d)
      by (unfold rfind; rewrite rfind_from_app;
          now rewrite (rfind_from_notin FULL_STOP b _ _ Hn)).
    assert ((Z.of_nat (List.length d) - 1 <? rfind FULL_STOP d) = false)
      as ->.
    { apply Z.ltb_ge.
      destruct (rfind_dot_dir d Hd) as [H| ->]; [lia | cbn; lia]. }
    reflexivity.
  - rewrite (rfind_last FULL_STOP b1 b2 Hb2).
    rewrite app_assoc, (rfind_last FULL_STOP (d ++ b1) b2 Hb2), length_app.
    rewrite <- app_assoc.
    assert ((Z.of_nat (List.length d) - 1
             <? Z.of_nat (List.length d + List.length b1)) = true) as ->
      by (apply Z.ltb_lt; lia).
    assert ((-1 <? Z.of_nat (List.length b1)) = true) as ->
      by (apply Z.ltb_lt; lia).
    cbn [andb].
    replace (Z.of_nat (List.length d) - 1 + 1)
      with (Z.of_nat (List.length d)) by lia.
    replace (Z.of_nat (List.length d + List.length b1))
      with (Z.of_nat (List.length d) + Z.of_nat (List.length b1)) by lia.
    rewrite (slice_middle d b1 (FULL_STOP :: b2)).
    change (-1 + 1) with 0.
    rewrite (slice_start b1 (FULL_STOP :: b2)).
    destruct (existsb _ b1); cbn [fst]; [|reflexivity].
    replace (Z.of_nat (List.length d) + Z.of_nat (List.length b1))
      with (Z.of_nat (List.length (d ++ b1))) by (rewrite length_app; lia).
    now rewrite app_assoc, !slice_to_app.
Qed.

Lemma out_name_of_basename ext p : out_name ext p = out_name ext (basename p).
Proof.
  destruct (path_parts p) as (d & Hd & Hp).
  unfold out_name. rewrite Hp at 1.
  rewrite (splitext_after_dir d (basename p) Hd (basename_free p)).
  rewrite <- app_assoc. now rewrite (basename_after_dir d _ Hd).
Qed.

Lemma splitext_root_free b : ~ In SEP b -> ~ In SEP (fst (splitext b)).
Proof.
  intros Hb. unfold splitext.
  destruct (_ && _); cbn [fst]; [|exact Hb].
  unfold slice_to. intros H. apply Hb.
  rewrite <- (firstn_skipn (Z.to_nat (rfind FULL_STOP b)) b).
  apply in_or_app. now left.
Qed.

Lemma out_name_replaces_extension ext p :
  ~ In SEP ext -> out_name ext p = fst (splitext (basename p)) ++ ext.
Proof.
  intros Hext. rewrite out_name_of_basename. unfold out_name.
  apply basename_no_sep. intros H. apply in_app_or in H.
  destruct H as [H|H]; [|now apply Hext].
  exact (splitext_root_free (basename p) (basename_free p) H).
Qed.

(** C9.  The output path seeded for an input file is a function of the
    input's base name and the output directory: two inputs with the same
    base name get the same output path, whatever their directories; with
    an extension that has no separator, such as [.mkv], the output name
    is the base name with its extension replaced.  Deduplication compares
    whole paths, so two distinct inputs with the same base name are both
    seeded, with one and the same output path. *)
Theorem output_path_depends_only_on_base_name :
  (forall output_dir ext p1 p2,
      basename p1 = basename p2 ->
      out_path output_dir ext p1 = out_path output_dir ext p2)
  /\ (forall output_dir ext p,
         ~ In SEP ext ->
         out_path output_dir ext p
         = normpath (join output_dir (fst (splitext (basename p)) ++ ext)))
  /\ (exists p1 p2 o,
         p1 <> p2
         /\ basename p1 = basename p2
         /\ deduplicate_files [p1; p2] = [p1; p2]
         /\ pending TQ (snd (queues_populate [p1; p2] DEFAULT_OUT_DIR
                               DEFAULT_CQ_INITIAL DEFAULT_OUT_FILE_EXTENSION
                               fresh_world))
            = [(p1, o, DEFAULT_CQ_INITIAL); (p2, o, DEFAULT_CQ_INITIAL)]).
Proof.
  split; [|split].
  - intros output_dir ext p1 p2 Hb. unfold out_path.
    now rewrite (out_name_of_basename ext p1), (out_name_of_basename ext p2),
      Hb.
  - intros output_dir ext p Hext. unfold out_path.
    now rewrite (out_name_replaces_extension ext p Hext).
  - exists (lit "a/x.mp4"), (lit "b/x.mp4"), (lit "out/x.mkv").
    split; [discriminate|]. repeat split.
Qed.

Lemma output_path_witness :
  out_path DEFAULT_OUT_DIR DEFAULT_OUT_FILE_EXTENSION (lit "a/x.mp4")
  = out_path DEFAULT_OUT_DIR DEFAULT_OUT_FILE_EXTENSION (lit "b/x.mp4")
  /\ out_path DEFAULT_OUT_DIR DEFAULT_OUT_FILE_EXTENSION (lit "a/x.mp4")
     = normpath (join DEFAULT_OUT_DIR
                      (fst (splitext (basename (lit "a/x.mp4")))
                       ++ DEFAULT_OUT_FILE_EXTENSION)).
Proof.
  destruct output_path_depends_only_on_base_name as (Hsame & Hext & _).
  split.
  - apply Hsame. reflexivity.
  - apply Hext. cbn. intros [H|[H|[H|[H|[]]]]]; discriminate.
Defined.

(** ** The parser of the measurement output *)

Lemma starts_with_iff pre : forall s,
  starts_with pre s = true <-> exists t, s = pre ++ t.
Proof.
  induction pre as [|a pre IH]; intros s; cbn.
  - split; [intros _; now exists s | reflexivity].
  - destruct s as [|b s]; [split; [discriminate | intros (t & H); discriminate]|].
    rewrite andb_true_iff, IH, N.eqb_eq. split.
    + intros (-> & t & ->). now exists t.
    + intros (t & H). inversion H; subst. split; [reflexivity | now exists t].
Qed.

Lemma lookbehind_iff seen_rev :
  lookbehind seen_rev = true <-> exists pre, rev seen_rev = pre ++ SCORE_LABEL.
Proof.
  unfold lookbehind. rewrite starts_with_iff. split.
  - intros (t & ->). exists (rev t). now rewrite rev_app_distr, rev_involutive.
  - intros (pre & H). exists (rev pre).
    rewrite <- (rev_involutive seen_rev), H. now rewrite rev_app_distr.
Qed.

Section MeasurementFacts.

Variable unicode_Nd : N -> bool.
Variable float_of_str : str -> pyfloat.

Local Abbreviation digit := (re_digit unicode_Nd).

Lemma full_stop_is_no_digit : digit FULL_STOP = false.
Proof. reflexivity. Qed.

Lemma span_spec p s :
  let '(a, b) := span p s in
  s = a ++ b /\ Forall (fun c => p c = true) a
  /\ match b with [] => True | c :: _ => p c = false end.
Proof.
  induction s as [|c s IH]; cbn; [auto|].
  destruct (p c) eqn:E.
  - destruct (span p s) as [a b]. destruct IH as (-> & Ha & Hb).
    split; [reflexivity|]. split; [now constructor | exact Hb].
  - split; [reflexivity|]. split; [constructor | exact E].
Qed.

Lemma span_run p d : forall r,
  Forall (fun c => p c = true) d ->
  match r with [] => True | c :: _ => p c = false end ->
  span p (d ++ r) = (d, r).
Proof.
  induction d as [|c d IH]; intros r Hd Hr.
  - destruct r as [|c r]; cbn; [reflexivity|]. now rewrite Hr.
  - inversion Hd as [|? ? Hc Hd']; subst. cbn. rewrite Hc.
    now rewrite (IH r Hd' Hr).
Qed.

Lemma span_nonempty p c s : p c = true -> fst (span p (c :: s)) <> [].
Proof. intros H. cbn. rewrite H. destruct (span p s). discriminate. Qed.

Lemma match_number_complete d1 d2 rest :
  d1 <> [] -> d2 <> [] ->
  Forall (fun c => digit c = true) d1 ->
  Forall (fun c => digit c = true) d2 ->
  exists m, match_number unicode_Nd (d1 ++ [FULL_STOP] ++ d2 ++ rest) = Some m.
Proof.
  intros H1 H2 F1 F2. unfold match_number.
  rewrite (span_run digit d1 ([FULL_STOP] ++ d2 ++ rest) F1
                    full_stop_is_no_digit).
  destruct d1 as [|c1 d1]; [congruence|]. cbn [app].
  rewrite N.eqb_refl.
  destruct d2 as [|c2 d2]; [congruence|].
  inversion F2 as [|? ? Hc2 _]; subst.
  pose proof (span_nonempty digit c2 (d2 ++ rest) Hc2) as Hne.
  cbn [app]. destruct (span digit (c2 :: d2 ++ rest)) as [[|x a] b];
    [now cbn in Hne | eexists; reflexivity].
Qed.

Lemma match_number_sound s m :
  match_number unicode_Nd s = Some m ->
  exists d1 d2 rest,
    s = d1 ++ [FULL_STOP] ++ d2 ++ rest
    /\ d1 <> [] /\ d2 <> []
    /\ Forall (fun c => digit c = true) d1
    /\ Forall (fun c => digit c = true) d2.
Proof.
  unfold match_number. pose proof (span_spec digit s) as H1.
  destruct (span digit s) as [d1 r1]. destruct H1 as (-> & F1 & _).
  destruct d1 as [|c1 d1]; [discriminate|].
  destruct r1 as [|c r2]; [discriminate|].
  destruct (N.eqb_spec c FULL_STOP) as [->|]; [|discriminate].
  pose proof (span_spec digit r2) as H2.
  destruct (span digit r2) as [d2 r3]. destruct H2 as (-> & F2 & _).
  destruct d2 as [|c2 d2]; [discriminate|]. intros _.
  exists (c1 :: d1), (c2 :: d2), r3.
  split; [reflexivity|]. repeat split; try discriminate; assumption.
Qed.

Lemma re_search_from_sound s : forall seen_rev m,
  re_search_from unicode_Nd seen_rev s = Some m ->
  has_score unicode_Nd (rev seen_rev ++ s).
Proof.
  induction s as [|c s IH]; intros seen_rev m; cbn [re_search_from].
  - destruct (lookbehind seen_rev); [|discriminate].
    destruct (match_number unicode_Nd []) eqn:E; [|discriminate].
    cbn in E. discriminate.
  - destruct (lookbehind seen_rev) eqn:El.
    + destruct (match_number unicode_Nd (c :: s)) as [m'|] eqn:E.
      * intros _. apply lookbehind_iff in El. destruct El as (pre & Hpre).
        destruct (match_number_sound _ _ E)
          as (d1 & d2 & rest & Hs & H1 & H2 & F1 & F2).
        exists pre, d1, d2, rest. rewrite Hpre, Hs, <- app_assoc. auto.
      * intros H. apply IH in H. cbn [rev] in H.
        now rewrite <- app_assoc in H.
    + intros H. apply IH in H. cbn [rev] in H.
      now rewrite <- app_assoc in H.
Qed.

Lemma re_search_from_here seen_rev s m :
  lookbehind seen_rev = true -> match_number unicode_Nd s = Some m ->
  re_search_from unicode_Nd seen_rev s = Some m.
Proof.
  intros El Hm. destruct s; cbn [re_search_from]; now rewrite El, Hm.
Qed.

Lemma re_search_from_complete s1 : forall seen_rev pre d1 d2 rest,
  rev seen_rev ++ s1 = pre ++ SCORE_LABEL ->
  d1 <> [] -> d2 <> [] ->
  Forall (fun c => digit c = true) d1 ->
  Forall (fun c => digit c = true) d2 ->
  exists m,
    re_search_from unicode_Nd seen_rev
                   (s1 ++ d1 ++ [FULL_STOP] ++ d2 ++ rest) = Some m.
Proof.
  induction s1 as [|c s1 IH]; intros seen_rev pre d1 d2 rest Hseen H1 H2 F1 F2.
  - rewrite app_nil_r in Hseen.
    assert (lookbehind seen_rev = true) as El
      by (apply lookbehind_iff; now exists pre).
    destruct (match_number_complete d1 d2 rest H1 H2 F1 F2) as (m & Hm).
    exists m.
    exact (re_search_from_here seen_rev _ m El Hm).
  - rewrite <- app_comm_cons. cbn [re_search_from].
    destruct (if lookbehind seen_rev then _ else None) as [m|];
      [now exists m|].
    apply (IH (c :: seen_rev) pre d1 d2 rest); try assumption.
    cbn [rev]. now rewrite <- app_assoc.
Qed.

Lemma re_search_iff text :
  (exists m, re_search unicode_Nd text = Some m) <-> has_score unicode_Nd text.
Proof.
  unfold re_search. split.
  - intros (m & H). exact (re_search_from_sound text [] m H).
  - intros (pre & d1 & d2 & rest & -> & H1 & H2 & F1 & F2).
    rewrite app_assoc.
    apply (re_search_from_complete (pre ++ SCORE_LABEL) [] pre d1 d2 rest);
      auto.
Qed.

Lemma vmaf_worker_as_measured threshold cq_step stdout rc r w :
  vmaf_get_score unicode_Nd float_of_str stdout = Val r ->
  vmaf_worker unicode_Nd float_of_str threshold cq_step (Exited stdout rc) w
  = vmaf_worker_iter threshold cq_step (measured r) w.
Proof.
  intros Hr. unfold vmaf_worker, vmaf_worker_iter, vmaf_async, measured,
               ffmpeg_run_async, bind, ret.
  destruct (vmaf_worker_get w) as [[x| |] w1]; try reflexivity.
  cbn. now rewrite Hr.
Qed.

Lemma vmaf_turn_undecodable w threshold cq_step distorted reference cq rest
      stdout rc :
  world_ok w -> pending VQ w = (distorted, reference, cq) :: rest ->
  decode_utf8 stdout = None ->
  turns (vmaf_worker unicode_Nd float_of_str threshold cq_step
                     (Exited stdout rc) w)
        w (Exc UnicodeDecodeError)
        [EvGet VQ (distorted, reference, cq);
         EvRun (Measure distorted reference)]
        (pending TQ w) rest 0 0.
Proof.
  intros Hok Hp Hd. start_turn w Hok Hp.
  unfold vmaf_worker, vmaf_async. coro_unfold. cbn.
  unfold vmaf_get_score. rewrite Hd. cbn. finish_turn.
Qed.

(** C10, as the code has it.  On output that decodes as UTF-8,
    [vmaf_get_score] returns a score exactly when the text contains
    ["VMAF score: "] followed at once by digits, a decimal point and
    digits, and returns [None] on every other such text, one with a score
    without a fractional part included; the worker then puts the item back
    on the quality-check queue and marks it done.  On output that does not
    decode, [vmaf_get_score] raises [UnicodeDecodeError], which leaves the
    worker loop: the item is neither put back nor marked done. *)
Theorem score_parsed_iff_label_and_decimal :
  forall stdout : bytes,
    (forall text,
        decode_utf8 stdout = Some text ->
        ((exists v, vmaf_get_score unicode_Nd float_of_str stdout
                    = Val (Some v)) <-> has_score unicode_Nd text)
        /\ (~ has_score unicode_Nd text ->
            vmaf_get_score unicode_Nd float_of_str stdout = Val None
            /\ forall w threshold cq_step distorted reference cq rest rc,
                world_ok w ->
                pending VQ w = (distorted, reference, cq) :: rest ->
                turns (vmaf_worker unicode_Nd float_of_str threshold cq_step
                                   (Exited stdout rc) w)
                      w (Val tt)
                      [EvGet VQ (distorted, reference, cq);
                       EvRun (Measure distorted reference);
                       EvPut VQ (distorted, reference, cq); EvTaskDone VQ]
                      (pending TQ w) (rest ++ [(distorted, reference, cq)])
                      0 0))
    /\ (decode_utf8 stdout = None ->
        vmaf_get_score unicode_Nd float_of_str stdout = Exc UnicodeDecodeError
        /\ forall w threshold cq_step distorted reference cq rest rc,
            world_ok w ->
            pending VQ w = (distorted, reference, cq) :: rest ->
            turns (vmaf_worker unicode_Nd float_of_str threshold cq_step
                               (Exited stdout rc) w)
                  w (Exc UnicodeDecodeError)
                  [EvGet VQ (distorted, reference, cq);
                   EvRun (Measure distorted reference)]
                  (pending TQ w) rest 0 0)
    /\ vmaf_get_score unicode_Nd float_of_str (blit "VMAF score: 95")
       = Val None.
Proof.
  intros stdout. split; [|split].
  - intros text Hd.
    assert (~ has_score unicode_Nd text ->
            vmaf_get_score unicode_Nd float_of_str stdout = Val None) as Hnone.
    { intros Hno. unfold vmaf_get_score. rewrite Hd.
      destruct (re_search unicode_Nd text) as [m|] eqn:E; [|reflexivity].
      exfalso. apply Hno, re_search_iff. now exists m. }
    split; [split|].
    + intros (v & Hv). unfold vmaf_get_score in Hv. rewrite Hd in Hv.
      destruct (re_search unicode_Nd text) as [m|] eqn:E; [|discriminate].
      apply re_search_iff. now exists m.
    + intros Hs. apply re_search_iff in Hs. destruct Hs as (m & Hm).
      exists (float_of_str m). unfold vmaf_get_score. now rewrite Hd, Hm.
    + intros Hno. split; [exact (Hnone Hno)|].
      intros w threshold cq_step distorted reference cq rest rc Hok Hp.
      rewrite (vmaf_worker_as_measured threshold cq_step stdout rc None w
                                       (Hnone Hno)).
      apply (vmaf_turn_unmeasurable w threshold cq_step distorted reference
                                    cq rest Hok Hp).
  - intros Hd. split; [unfold vmaf_get_score; now rewrite Hd|].
    intros w threshold cq_step distorted reference cq rest rc Hok Hp.
    now apply vmaf_turn_undecodable.
  - reflexivity.
Qed.

End MeasurementFacts.

Lemma score_parsed_witness :
  (exists v, vmaf_get_score ascii_digits_only exact_decimal
                            (blit "VMAF score: 96.5") = Val (Some v))
  /\ vmaf_get_score ascii_digits_only exact_decimal
                    (blit "frame= 100 fps= 25") = Val None
  /\ vmaf_get_score ascii_digits_only exact_decimal [xff]
     = Exc UnicodeDecodeError.
Proof.
  split; [|split].
  - destruct (score_parsed_iff_label_and_decimal ascii_digits_only
                exact_decimal (blit "VMAF score: 96.5")) as (Hdec & _ & _).
    destruct (Hdec (lit "VMAF score: 96.5") eq_refl) as ((_ & Hfound) & _).
    apply Hfound. exists [], (lit "96"), (lit "5"), [].
    split; [reflexivity|]. split; [discriminate|]. split; [discriminate|].
    split; repeat constructor.
  - destruct (score_parsed_iff_label_and_decimal ascii_digits_only
                exact_decimal (blit "frame= 100 fps= 25")) as (Hdec & _ & _).
    destruct (Hdec (lit "frame= 100 fps= 25") eq_refl)
      as ((_ & Hfound) & Hnone).
    apply Hnone. intros Hs. destruct (Hfound Hs) as (v & Hv). discriminate.
  - destruct (score_parsed_iff_label_and_decimal ascii_digits_only
                exact_decimal [xff]) as (_ & Hraise & _).
    apply Hraise. reflexivity.
Defined.

(** C10 as stated fails: output that is not UTF-8 has no score in it, and
    it is not treated as unmeasurable; [vmaf_get_score] raises, and the
    worker's turn ends with the exception, the item neither put back nor
    marked done. *)
Lemma undecodable_output_raises_instead_of_none :
  let r := vmaf_get_score ascii_digits_only exact_decimal [xff] in
  let t := vmaf_worker ascii_digits_only exact_decimal (95 # 1) 2
                       (Exited [xff] 0) (example_encoded 40) in
  decode_utf8 [xff] = None
  /\ r = Exc UnicodeDecodeError
  /\ r <> Val None
  /\ fst t = Exc UnicodeDecodeError
  /\ pending VQ (snd t) = []
  /\ outstanding VQ (snd t) = 1.
Proof. cbn. repeat split; discriminate. Qed.

(** ** Completion detection *)

Lemma holders_set_nth ps : forall i old p,
  nth_error ps i = Some old ->
  holders (set_nth i p ps)
  = holders ps - b2z (holds_item old) + b2z (holds_item p).
Proof.
  unfold holders.
  induction ps as [|q ps IH]; intros i old p Hn.
  - destruct i; discriminate.
  - destruct i as [|i]; cbn in Hn.
    + inversion Hn; subst. cbn [set_nth filter].
      destruct (holds_item old), (holds_item p); cbn [List.length b2z]; lia.
    + cbn [set_nth filter]. specialize (IH i old p Hn).
      destruct (holds_item q); cbn [List.length]; lia.
Qed.

Lemma holders_nonneg ps : 0 <= holders ps.
Proof. unfold holders. lia. Qed.

Lemma cancelled_nth ps i p :
  Forall (eq WCancelled) ps -> nth_error ps i = Some p -> p = WCancelled.
Proof.
  intros HF Hn. apply nth_error_In in Hn.
  rewrite Forall_forall in HF. symmetry. now apply HF.
Qed.

Lemma holders_zero_cancel ps :
  holders ps = 0 ->
  Forall (eq WCancelled) (map cancel ps) /\ holders (map cancel ps) = 0.
Proof.
  unfold holders. induction ps as [|p ps IH]; cbn; intros H.
  - split; [constructor | reflexivity].
  - destruct p; cbn in H |- *; try lia;
      destruct (IH H) as [IH1 IH2]; split; try (constructor; auto); exact IH2.
Qed.

Ltac open_sys s :=
  let w := fresh "w" in let ts := fresh "ts" in let vs := fresh "vs" in
  let o := fresh "o" in
  destruct s as [w ts vs o];
  let tq := fresh "tq" in let vq := fresh "vq" in let tr := fresh "tr" in
  destruct w as [tq vq tr];
  let m := fresh "tmax" in let l := fresh "tpend" in
  let b := fresh "tbase" in let c := fresh "tcount" in
  destruct tq as [m l b c];
  let m := fresh "vmax" in let l := fresh "vpend" in
  let b := fresh "vbase" in let c := fresh "vcount" in
  destruct vq as [m l b c];
  unfold loop_inv, queue_ok, pending, outstanding,
    Queue.get_unfinished_tasks in *;
  cbn [shared t_workers v_workers orch transcode_q vmaf_q trace queue_of
       Queue.maxsize Queue._queue Queue._unfinished_tasks
       Queue._unfinished_tasks_custom] in *.

Section EventLoopFacts.
Variable unicode_Nd : N -> bool.
Variable float_of_str : str -> pyfloat.
Variable threshold : Q.

Lemma holders_pos ps i p :
  nth_error ps i = Some p -> holds_item p = true -> 1 <= holders ps.
Proof.
  intros Hn Hh. pose proof (holders_set_nth ps i p WIdle Hn) as H.
  pose proof (holders_nonneg (set_nth i WIdle ps)).
  rewrite Hh in H. cbn [holds_item b2z] in H. lia.
Qed.

Ltac coro_unfold_in H :=
  unfold transcode_worker, transcode_worker_get, transcode_worker_forward,
    transcode_worker_mark, transcode_async, ffmpeg_run_async,
    vmaf_worker_iter, vmaf_worker_get, vmaf_worker_decide, vmaf_worker_mark,
    vmaf_async, measured, q_get, q_put, q_put_nowait, q_task_done, on_queue,
    bind, ret, raise, log, Queue.get, Queue.put, Queue.put_nowait,
    Queue.task_done, Queue.base_put_nowait, Queue.base_task_done, Queue.full,
    Queue.bump_custom in H.

Ltac sys_fields :=
  cbn [shared t_workers v_workers orch transcode_q vmaf_q trace queue_of
       Queue.maxsize Queue._queue Queue._unfinished_tasks
       Queue._unfinished_tasks_custom] in *.

(** Closes the goals that assume the loop has fired although a worker
    still moves. *)
Ltac not_after_fire Hdone En :=
  try (exfalso;
       match goal with
       | H : _ = ODone |- _ =>
           destruct (Hdone H) as (_ & _ & ?HFt & ?HFv)
       end;
       match goal with
       | HF : Forall (eq WCancelled) ?ps, E : nth_error ?ps _ = Some _ |- _ =>
           pose proof (cancelled_nth ps _ _ HF E); discriminate
       end).

Ltac worker_moved Hex Hdone En :=
  inversion Hex; subst; clear Hex;
  unfold Queue.bump_custom in *; sys_fields;
  rewrite ?length_app; cbn [List.length holds_item] in *;
  match goal with
  | E : nth_error ?ps ?i = Some ?old |- context [set_nth ?i ?p ?ps] =>
      rewrite (holders_set_nth ps i old p E)
  end;
  cbn [holds_item b2z] in *;
  repeat split; try lia; not_after_fire Hdone En.

Lemma loop_inv_exec a s s' :
  loop_inv s -> exec unicode_Nd float_of_str threshold a s = Some s' ->
  loop_inv s'.
Proof.
  intros Hinv Hex. open_sys s.
  destruct Hinv as ((Hm1 & Hb1 & Hn1) & (Hm2 & Hb2 & Hn2) & Ht & Hv & Hdone).
  subst tmax vmax tbase vbase.
  destruct a as [i|i out|i|i|i out|i|];
    cbn [exec shared t_workers v_workers orch] in Hex.
  - (* the encode worker takes an item *)
    destruct (nth_error ts i) as [[| | | |]|] eqn:En; try discriminate.
    coro_unfold_in Hex. cbn in Hex.
    destruct tpend as [|y tpend]; cbn in Hex; [discriminate|].
    worker_moved Hex Hdone En.
  - (* the encode returns *)
    destruct (nth_error ts i) as [[|[[a b] c]| | |]|] eqn:En; try discriminate.
    destruct out; coro_unfold_in Hex; cbn in Hex; worker_moved Hex Hdone En.
  - (* the encode worker marks the item done *)
    destruct (nth_error ts i) as [[| | | |]|] eqn:En; try discriminate.
    pose proof (holders_pos ts i WMarking En eq_refl) as Hpos.
    coro_unfold_in Hex. cbn in Hex.
    destruct (Z.leb_spec tcount 0); [lia|]. cbn in Hex. 
    worker_moved Hex Hdone En.
  - (* the quality-check worker takes an item *)
    destruct (nth_error vs i) as [[| | | |]|] eqn:En; try discriminate.
    coro_unfold_in Hex. cbn in Hex.
    destruct vpend as [|y vpend]; cbn in Hex; [discriminate|].
    worker_moved Hex Hdone En.
  - (* the measurement returns *)
    destruct (nth_error vs i) as [[|[[a b] c]| | |]|] eqn:En; try discriminate.
    destruct out as [|stdout rc|]; coro_unfold_in Hex; cbn in Hex;
      try (worker_moved Hex Hdone En).
    destruct (vmaf_get_score unicode_Nd float_of_str stdout)
      as [[score|]|e|]; cbn in Hex; try discriminate.
    + destruct (float_lt score threshold && (0 <=? c - DEFAULT_CQ_STEP));
        cbn in Hex; worker_moved Hex Hdone En.
    + worker_moved Hex Hdone En.
    + worker_moved Hex Hdone En.
  - (* the quality-check worker marks the item done *)
    destruct (nth_error vs i) as [[| | | |]|] eqn:En; try discriminate.
    pose proof (holders_pos vs i WMarking En eq_refl) as Hpos.
    coro_unfold_in Hex. cbn in Hex.
    destruct (Z.leb_spec vcount 0); [lia|]. cbn in Hex.
    worker_moved Hex Hdone En.
  - (* queues_wait_for_done *)
    unfold queues_wait_for_done, work_left, Queue.get_unfinished_tasks in Hex.
    sys_fields. destruct o; try discriminate.
    + destruct (Z.ltb_spec 0 tcount); cbn in Hex.
      * inversion Hex; subst; sys_fields. repeat split; try lia; discriminate.
      * destruct (Z.ltb_spec 0 vcount); cbn in Hex.
        -- inversion Hex; subst; sys_fields.
           repeat split; try lia; discriminate.
        -- inversion Hex; subst; sys_fields.
           pose proof (holders_nonneg ts). pose proof (holders_nonneg vs).
           destruct (holders_zero_cancel ts ltac:(lia)) as [F1 Z1].
           destruct (holders_zero_cancel vs ltac:(lia)) as [F2 Z2].
           rewrite Z1, Z2. repeat split; try lia; assumption.
    + inversion Hex; subst; sys_fields. repeat split; try lia; discriminate.
    + inversion Hex; subst; sys_fields. repeat split; try lia; discriminate.
Qed.

Lemma loop_inv_reachable s0 s :
  loop_inv s0 -> reachable unicode_Nd float_of_str threshold s0 s ->
  loop_inv s.
Proof.
  intros H0 Hr. induction Hr as [|s s' _ IH (a & Hex)]; [exact H0|].
  exact (loop_inv_exec a s s' IH Hex).
Qed.

Lemma exec_all_reachable acts : forall s0 s,
  exec_all unicode_Nd float_of_str threshold acts s0 = Some s ->
  reachable unicode_Nd float_of_str threshold s0 s.
Proof.
  assert (forall s0 s1 s2,
             reachable unicode_Nd float_of_str threshold s1 s2 ->
             reachable unicode_Nd float_of_str threshold s0 s1 ->
             reachable unicode_Nd float_of_str threshold s0 s2) as Htrans.
  { intros s0 s1 s2 H12 H01. induction H12; [exact H01|].
    eapply reach_step; eauto. }
  induction acts as [|a acts IH]; intros s0 s; cbn.
  - intros H. inversion H; subst. constructor.
  - destruct (exec unicode_Nd float_of_str threshold a s0) as [s1|] eqn:E;
      [|discriminate].
    intros H. apply (Htrans s0 s1 s (IH s1 s H)).
    eapply reach_step; [constructor | now exists a].
Qed.

Lemma no_step_after_fire s a :
  Forall (eq WCancelled) (t_workers s) ->
  Forall (eq WCancelled) (v_workers s) ->
  orch s = ODone ->
  exec unicode_Nd float_of_str threshold a s = None.
Proof.
  intros Ft Fv Ho.
  destruct a as [i|i out|i|i|i out|i|]; cbn [exec];
    try (destruct (nth_error (t_workers s) i) as [p|] eqn:En;
         [rewrite (cancelled_nth _ _ _ Ft En)|]; reflexivity);
    try (destruct (nth_error (v_workers s) i) as [p|] eqn:En;
         [rewrite (cancelled_nth _ _ _ Fv En)|]; reflexivity).
  unfold queues_wait_for_done. now rewrite Ho.
Qed.

End EventLoopFacts.

Lemma holders_idle n : holders (repeat WIdle n) = 0.
Proof. unfold holders. induction n; cbn; auto. Qed.

Lemma main_start_inv input_files output_dir init_cq n_t n_v :
  loop_inv (main_start input_files output_dir init_cq n_t n_v).
Proof.
  unfold main_start, workers_create, queues_populate.
  pose proof (seed_spec (deduplicate_files input_files) output_dir init_cq
                        DEFAULT_OUT_FILE_EXTENSION fresh_world fresh_world_ok)
    as H. cbv zeta in H.
  destruct H as ((_ & _ & Htq & Hvq & Hot & Hov) & (Hq1 & Hq2 & _)).
  unfold loop_inv. cbn [shared t_workers v_workers orch].
  rewrite !holders_idle, Htq, Hvq, Hot, Hov.
  split; [exact Hq1|]. split; [exact Hq2|].
  cbn [pending outstanding fresh_world queue_of transcode_q vmaf_q
       Queue.get_unfinished_tasks Queue.init Queue._queue
       Queue._unfinished_tasks_custom app List.length].
  rewrite length_map. repeat split; try lia; discriminate.
Qed.

(** C1.  In every state that the event loop can reach from the start of
    [main], under any interleaving of the workers and any outcomes of the
    external processes: [queues_wait_for_done] leaves its loop and cancels
    the workers only in a turn in which it reads both outstanding counts
    as zero, and then nothing waits in either queue and no worker holds an
    item; while either count is positive its turn never cancels; a worker
    that has taken an item and not yet marked it done, in particular one
    standing between its [put] and its [task_done], keeps the count of its
    queue positive; and once the workers are cancelled both counts are
    zero and nothing runs any more. *)
Theorem completion_fires_only_when_both_queues_are_drained :
  forall unicode_Nd float_of_str threshold
         input_files output_dir init_cq n_transcode_workers n_vmaf_workers s,
    reachable unicode_Nd float_of_str threshold
              (main_start input_files output_dir init_cq
                          n_transcode_workers n_vmaf_workers) s ->
    (forall s',
        exec unicode_Nd float_of_str threshold Orch s = Some s' ->
        orch s' = ODone ->
        orch s = OCheck
        /\ outstanding TQ (shared s) = 0 /\ outstanding VQ (shared s) = 0
        /\ pending TQ (shared s) = [] /\ pending VQ (shared s) = []
        /\ holders (t_workers s) = 0 /\ holders (v_workers s) = 0
        /\ shared s' = shared s)
    /\ (0 < outstanding TQ (shared s) \/ 0 < outstanding VQ (shared s) ->
        forall s',
          exec unicode_Nd float_of_str threshold Orch s = Some s' ->
          orch s' <> ODone)
    /\ (forall i p,
           nth_error (t_workers s) i = Some p -> holds_item p = true ->
           0 < outstanding TQ (shared s))
    /\ (forall i p,
           nth_error (v_workers s) i = Some p -> holds_item p = true ->
           0 < outstanding VQ (shared s))
    /\ (orch s = ODone ->
        outstanding TQ (shared s) = 0 /\ outstanding VQ (shared s) = 0
        /\ pending TQ (shared s) = [] /\ pending VQ (shared s) = []
        /\ forall a, exec unicode_Nd float_of_str threshold a s = None).
Proof.
  intros unicode_Nd float_of_str threshold input_files output_dir init_cq
         n_t n_v s Hreach.
  pose proof (loop_inv_reachable unicode_Nd float_of_str threshold _ s
                (main_start_inv input_files output_dir init_cq n_t n_v)
                Hreach) as Hinv.
  destruct Hinv as ((_ & _ & Hn1) & (_ & _ & Hn2) & Ht & Hv & Hdone).
  fold (outstanding TQ (shared s)) in Hn1.
  fold (outstanding VQ (shared s)) in Hn2.
  pose proof (holders_nonneg (t_workers s)) as Hh1.
  pose proof (holders_nonneg (v_workers s)) as Hh2.
  assert (forall s',
             exec unicode_Nd float_of_str threshold Orch s = Some s' ->
             orch s' = ODone ->
             orch s = OCheck /\ work_left (shared s) = false
             /\ shared s' = shared s) as Hfire.
  { intros s' Hex Hd. cbn [exec] in Hex. unfold queues_wait_for_done in Hex.
    destruct (orch s); try discriminate.
    - destruct (work_left (shared s)); inversion Hex; subst;
        cbn in Hd |- *; try discriminate. auto.
    - inversion Hex; subst. discriminate.
    - inversion Hex; subst. discriminate. }
  assert (work_left (shared s) = false ->
          outstanding TQ (shared s) = 0 /\ outstanding VQ (shared s) = 0)
    as Hzero.
  { unfold work_left, outstanding in *. cbn [queue_of] in *. intros Hw.
    apply orb_false_iff in Hw. destruct Hw as [H1 H2].
    apply Z.ltb_ge in H1, H2. lia. }
  assert (forall (q : qid) (n : Z),
             Z.of_nat (List.length (pending q (shared s))) + n = 0 ->
             0 <= n -> pending q (shared s) = [] /\ n = 0) as Hempty.
  { intros q n H Hn.
    destruct (pending q (shared s)); cbn [List.length] in H;
      [split; [reflexivity | lia] | lia]. }
  split; [|split; [|split; [|split]]].
  - intros s' Hex Hd. destruct (Hfire s' Hex Hd) as (Ho & Hw & Hs).
    destruct (Hzero Hw) as (Z1 & Z2).
    rewrite Z1 in Ht. rewrite Z2 in Hv.
    destruct (Hempty TQ _ (eq_sym Ht) Hh1) as (P1 & H1).
    destruct (Hempty VQ _ (eq_sym Hv) Hh2) as (P2 & H2).
    auto 10.
  - intros Hpos s' Hex Hd. destruct (Hfire s' Hex Hd) as (_ & Hw & _).
    destruct (Hzero Hw). lia.
  - intros i p En Hp. pose proof (holders_pos _ i p En Hp). lia.
  - intros i p En Hp. pose proof (holders_pos _ i p En Hp). lia.
  - intros Hd. destruct (Hdone Hd) as (Z1 & Z2 & Ft & Fv).
    rewrite Z1 in Ht. rewrite Z2 in Hv.
    destruct (Hempty TQ _ (eq_sym Ht) Hh1) as (P1 & _).
    destruct (Hempty VQ _ (eq_sym Hv) Hh2) as (P2 & _).
    repeat (split; [assumption|]).
    intros a. now apply no_step_after_fire.
Qed.

Lemma completion_witness :
  exists s,
    example_final = Some s
    /\ exec_all ascii_digits_only exact_decimal (95 # 1) example_schedule
                (main_start [lit "a.mp4"] DEFAULT_OUT_DIR DEFAULT_CQ_INITIAL
                            1 1)
       = Some s
    /\ orch s = ODone
    /\ outstanding TQ (shared s) = 0 /\ outstanding VQ (shared s) = 0
    /\ pending TQ (shared s) = [] /\ pending VQ (shared s) = [].
Proof.
  destruct example_final as [s|] eqn:Efinal; [|discriminate].
  assert (exec_all ascii_digits_only exact_decimal (95 # 1) example_schedule
            (main_start [lit "a.mp4"] DEFAULT_OUT_DIR DEFAULT_CQ_INITIAL 1 1)
          = Some s) as Hrun by (rewrite <- Efinal; reflexivity).
  assert (orch s = ODone) as Hfired
    by (unfold example_final in Efinal; inversion Efinal; reflexivity).
  exists s. split; [reflexivity|]. split; [exact Hrun|].
  split; [exact Hfired|].
  destruct (completion_fires_only_when_both_queues_are_drained
              ascii_digits_only exact_decimal (95 # 1)
              [lit "a.mp4"] DEFAULT_OUT_DIR DEFAULT_CQ_INITIAL 1%nat 1%nat s
              (exec_all_reachable ascii_digits_only exact_decimal (95 # 1)
                 example_schedule _ s Hrun))
    as (_ & _ & _ & _ & Hdone).
  destruct (Hdone Hfired) as (Z1 & Z2 & P1 & P2 & _).
  repeat split; assumption.
Defined.

(** ** The counting queue, bounded or not *)

Lemma queue_wf_apply maxsize o q :
  queue_wf maxsize q -> queue_wf maxsize (snd (Queue.apply o q)).
Proof.
  intros (Hm & Hb & Hn & Hcap). destruct q as [m l b c]. cbn in Hm, Hb, Hn.
  subst m b. unfold Queue.qsize in Hcap. cbn in Hcap.
  assert (forall x,
             queue_wf maxsize
               (snd (Queue.put_nowait x (Queue.mk maxsize l c c)))) as Hput.
  { intros x. unfold Queue.put_nowait, Queue.base_put_nowait, Queue.full,
      Queue.qsize. cbn.
    destruct (Z.leb_spec maxsize 0).
    - cbn. unfold queue_wf, Queue.qsize; cbn. repeat split; lia.
    - destruct (Z.leb_spec maxsize (Z.of_nat (List.length l))); cbn.
      + unfold queue_wf, Queue.qsize; cbn. repeat split; lia.
      + unfold queue_wf, Queue.qsize; cbn. rewrite length_app. cbn.
        repeat split; lia. }
  destruct o; cbn.
  - specialize (Hput x).
    destruct (Queue.put_nowait x _) as [r q']. exact Hput.
  - unfold Queue.put. destruct (Queue.full _) eqn:Ef.
    + cbn. unfold queue_wf, Queue.qsize; cbn. repeat split; lia.
    + specialize (Hput x).
      destruct (Queue.put_nowait x _) as [r q']. exact Hput.
  - unfold Queue.get. cbn. destruct l as [|y l]; cbn.
    + unfold queue_wf, Queue.qsize; cbn. repeat split; lia.
    + unfold queue_wf, Queue.qsize; cbn. cbn in Hcap. repeat split; lia.
  - unfold Queue.task_done, Queue.base_task_done. cbn.
    destruct (Z.leb_spec c 0); cbn;
      unfold queue_wf, Queue.qsize; cbn; repeat split; lia.
  - unfold queue_wf, Queue.qsize; cbn. repeat split; lia.
Qed.

Lemma queue_wf_run maxsize ops : forall q,
  queue_wf maxsize q -> queue_wf maxsize (Queue.run ops q).
Proof.
  induction ops as [|o ops IH]; intros q H; cbn; [exact H|].
  apply IH, queue_wf_apply, H.
Qed.

(** X1.  For a queue created with any [maxsize] and after any sequence of
    calls: [get_unfinished_tasks] returns the counter of the base class,
    which is not negative; [maxsize] is kept; a bounded queue never holds
    more than [maxsize] items; and on a full queue [put_nowait] raises
    [QueueFull] and [put] waits, both leaving the queue as it is. *)
Theorem custom_counter_agrees_with_base_counter :
  forall (maxsize : Z) (ops : list Queue.op),
    let q := Queue.run ops (Queue.init maxsize) in
    Queue.get_unfinished_tasks q = Queue._unfinished_tasks q
    /\ 0 <= Queue.get_unfinished_tasks q
    /\ Queue.maxsize q = maxsize
    /\ (0 < maxsize -> Queue.qsize q <= maxsize)
    /\ (Queue.full q = true ->
        forall x, Queue.put_nowait x q = (Exc QueueFull, q)
                  /\ Queue.put x q = (Blocked, q)).
Proof.
  intros maxsize ops q.
  assert (queue_wf maxsize q) as (Hm & Hb & Hn & Hcap).
  { apply queue_wf_run. unfold queue_wf, Queue.qsize; cbn.
    repeat split; lia. }
  unfold Queue.get_unfinished_tasks.
  repeat split; try assumption; try congruence.
  - unfold Queue.put_nowait, Queue.base_put_nowait. now rewrite H.
  - unfold Queue.put. now rewrite H.
Qed.

Lemma custom_counter_witness :
  let q := Queue.run [Queue.PutNowait ([], [], 1); Queue.PutNowait ([], [], 2)]
                     (Queue.init 1) in
  Queue.qsize q <= 1
  /\ Queue.put_nowait ([], [], 3) q = (Exc QueueFull, q).
Proof.
  intro q.
  destruct (custom_counter_agrees_with_base_counter
              1 [Queue.PutNowait ([], [], 1); Queue.PutNowait ([], [], 2)])
    as (_ & _ & _ & Hcap & Hfull).
  split; [apply Hcap; lia|].
  apply (Hfull eq_refl).
Defined.

Lemma get_many_spec xs : forall q rest,
  Queue._queue q = xs ++ rest ->
  get_many (List.length xs) q
  = (xs, Queue.mk (Queue.maxsize q) rest (Queue._unfinished_tasks q)
                  (Queue._unfinished_tasks_custom q)).
Proof.
  induction xs as [|x xs IH]; intros q rest Hq; cbn [get_many List.length].
  - destruct q; cbn in *. now subst.
  - unfold Queue.get. rewrite Hq. cbn [app].
    rewrite (IH (Queue.mk (Queue.maxsize q) (xs ++ rest)
                          (Queue._unfinished_tasks q)
                          (Queue._unfinished_tasks_custom q)) rest eq_refl).
    reflexivity.
Qed.

Lemma run_puts xs : forall q,
  queue_ok q ->
  Queue.run (map Queue.PutNowait xs) q
  = Queue.mk 0 (Queue._queue q ++ xs)
             (Queue._unfinished_tasks_custom q + Z.of_nat (List.length xs))
             (Queue._unfinished_tasks_custom q + Z.of_nat (List.length xs)).
Proof.
  induction xs as [|x xs IH]; intros q Hok.
  - cbn. destruct Hok as (Hm & Hb & _). destruct q; cbn in *. subst.
    rewrite app_nil_r, Z.add_0_r. reflexivity.
  - cbn [map Queue.run Queue.apply]. rewrite (put_nowait_ok q x Hok).
    cbn [snd]. rewrite IH.
    + cbn. rewrite <- app_assoc. cbn [app]. f_equal; lia.
    + destruct Hok as (_ & _ & Hn). unfold queue_ok; cbn. lia.
Qed.

(** X2.  Items leave an unbounded queue in the order they were put:
    after [put_nowait] of the items [xs] on a new queue, as many [get]s
    return [xs] in order and the next [get] waits; the [get]s leave the
    outstanding count at the number of items, and one [task_done] per
    item brings it to zero. *)
Theorem queue_is_first_in_first_out :
  forall xs : list item,
    let q := Queue.run (map Queue.PutNowait xs) (Queue.init 0) in
    let '(got, q') := get_many (List.length xs) q in
    got = xs
    /\ Queue.get q' = (Blocked, q')
    /\ Queue.get_unfinished_tasks q' = Z.of_nat (List.length xs)
    /\ Queue.get_unfinished_tasks
         (Queue.run (repeat Queue.TaskDone (List.length xs)) q') = 0.
Proof.
  intros xs q. unfold q. rewrite (run_puts xs _ queue_ok_init).
  cbn [Queue.init Queue._queue Queue._unfinished_tasks_custom app].
  rewrite (get_many_spec xs _ [])
    by (cbn; now rewrite app_nil_r).
  cbn [Queue.maxsize Queue._unfinished_tasks Queue._unfinished_tasks_custom].
  split; [reflexivity|]. split; [reflexivity|].
  split; [unfold Queue.get_unfinished_tasks; cbn; lia|].
  generalize (List.length xs) as n. intros n.
  rewrite Z.add_0_l.
  induction n as [|n IH]; [reflexivity|].
  cbn [repeat Queue.run Queue.apply].
  rewrite task_done_pos; [|unfold queue_ok; cbn; lia | cbn; lia].
  cbn [snd Queue._queue Queue._unfinished_tasks_custom].
  replace (Z.of_nat (S n) - 1) with (Z.of_nat n) by lia. exact IH.
Qed.

(** ** Command lines *)

Lemma lit_back (s : string) :
  string_of_list_ascii (map ascii_of_N (lit s)) = s.
Proof.
  unfold lit. rewrite map_map.
  rewrite (map_ext _ (fun a => a)) by apply ascii_N_embedding.
  rewrite map_id. apply string_of_list_ascii_of_string.
Qed.

Lemma int_of_str_of_Z (z : Z) : Z_of_str (str_of_Z z) = Some z.
Proof.
  unfold Z_of_str, str_of_Z. rewrite lit_back.
  rewrite DecimalString.NilZero.isi.
  - cbn. now rewrite DecimalZ.of_to.
  - destruct z; cbn; try discriminate.
    intros H. inversion H as [Hp].
    now apply DecimalPos.Unsigned.to_uint_nonnil in Hp.
  - destruct z; cbn; try discriminate.
    intros H. inversion H as [Hp].
    now apply DecimalPos.Unsigned.to_uint_nonnil in Hp.
Qed.

Lemma isabs_iff p : isabs p = true <-> exists t, p = SEP :: t.
Proof.
  unfold isabs. rewrite starts_with_iff. reflexivity.
Qed.

Lemma normpath_isabs p : isabs p = true -> isabs (normpath p) = true.
Proof.
  intros H. apply isabs_iff in H. destruct H as (t & ->).
  unfold normpath.
  change (starts_with [SEP] (SEP :: t)) with true. cbv iota.
  destruct (starts_with [SEP; SEP] (SEP :: t)
            && negb (starts_with [SEP; SEP; SEP] (SEP :: t))); reflexivity.
Qed.

Lemma join_isabs a b : isabs a = true -> isabs (join a b) = true.
Proof.
  intros H. unfold join.
  destruct (starts_with [SEP] b) eqn:E; [exact E|].
  apply isabs_iff in H. destruct H as (t & ->).
  destruct (ends_with_sep (SEP :: t)); reflexivity.
Qed.

Lemma abspath_isabs cwd p : isabs cwd = true -> isabs (abspath cwd p) = true.
Proof.
  intros H. unfold abspath. apply normpath_isabs.
  destruct (isabs p) eqn:E; [exact E | now apply join_isabs].
Qed.

Lemma abspath_of_absolute cwd cwd' p :
  isabs p = true -> abspath cwd p = abspath cwd' p.
Proof. intros H. unfold abspath. now rewrite H. Qed.

Lemma fold_left_extend {A} (f : A -> list str) (l : list A) : forall cmd,
  fold_left (fun cmd x => cmd ++ f x) l cmd = cmd ++ flat_map f l.
Proof.
  induction l as [|x l IH]; intros cmd; cbn.
  - now rewrite app_nil_r.
  - now rewrite IH, app_assoc.
Qed.

Lemma ffmpeg_compile_cmd_shape cwd input_path output_path ffmpeg_args
      override_output progress nostdin nostats :
  ffmpeg_compile_cmd cwd input_path output_path ffmpeg_args
                     override_output progress nostdin nostats
  = [lit "ffmpeg"]
    ++ switches override_output progress nostdin nostats
    ++ flat_map (fun p => [lit "-i"; abspath cwd p])
                (match input_path with OnePath p => [p] | Paths l => l end)
    ++ flat_map (fun e => [lit "-" ++ fst e; py_str (snd e)]) ffmpeg_args
    ++ [if str_eqb output_path (lit "-") then output_path
        else abspath cwd output_path].
Proof.
  unfold ffmpeg_compile_cmd, switches.
  rewrite (fold_left_extend (fun e => [lit "-" ++ fst e; py_str (snd e)])).
  rewrite (fold_left_extend (fun p => [lit "-i"; abspath cwd p])).
  destruct (str_eqb output_path (lit "-")), override_output, progress,
    nostdin, nostats; cbn [app]; rewrite <- ?app_assoc; reflexivity.
Qed.

Lemma flat_map_pairs_length {A} (f : A -> list str) (l : list A) :
  (forall x, List.length (f x) = 2%nat) ->
  List.length (flat_map f l) = (2 * List.length l)%nat.
Proof.
  intros Hf. induction l as [|x l IH]; cbn [flat_map List.length];
    [reflexivity|].
  rewrite length_app, Hf, IH. lia.
Qed.

(** X3.  With an absolute working directory, the command
    [ffmpeg_compile_cmd] builds starts with [ffmpeg]; besides that word,
    the switches and the output it has two words per input and two per
    setting; every input is passed as [-i] followed by its absolute path;
    and the last word is the output: [-] as it is, any other path made
    absolute. *)
Theorem command_paths_are_absolute :
  forall cwd input_path output_path ffmpeg_args
         override_output progress nostdin nostats,
    isabs cwd = true ->
    let inputs := match input_path with OnePath p => [p] | Paths l => l end in
    let cmd := ffmpeg_compile_cmd cwd input_path output_path ffmpeg_args
                 override_output progress nostdin nostats in
    hd [] cmd = lit "ffmpeg"
    /\ List.length cmd
       = (2 + List.length (switches override_output progress nostdin nostats)
          + 2 * List.length inputs + 2 * List.length ffmpeg_args)%nat
    /\ (forall p, In p inputs ->
          isabs (abspath cwd p) = true
          /\ exists before after,
               cmd = before ++ [lit "-i"; abspath cwd p] ++ after)
    /\ (output_path = lit "-" -> last cmd [] = lit "-")
    /\ (output_path <> lit "-" ->
        last cmd [] = abspath cwd output_path
        /\ isabs (last cmd []) = true).
Proof.
  intros cwd input_path output_path ffmpeg_args oo pr ni ns Hcwd inputs cmd.
  unfold cmd. rewrite ffmpeg_compile_cmd_shape. fold inputs.
  split; [reflexivity|]. split; [|split; [|split]].
  - rewrite !length_app, !flat_map_pairs_length by reflexivity.
    cbn [List.length]. clear cmd. clearbody inputs.
    unfold pydict, str in *. lia.
  - intros p Hp. split; [now apply abspath_isabs|].
    apply in_split in Hp. destruct Hp as (l1 & l2 & ->).
    rewrite flat_map_app. cbn [flat_map].
    eexists ([lit "ffmpeg"] ++ switches oo pr ni ns ++ flat_map _ l1).
    eexists. rewrite <- !app_assoc. cbn [app]. reflexivity.
  - intros ->. rewrite !app_assoc, last_last. now rewrite str_eqb_refl.
  - intros Hne. rewrite !app_assoc, last_last.
    apply str_eqb_neq in Hne. rewrite Hne.
    split; [reflexivity | now apply abspath_isabs].
Qed.

Lemma command_paths_witness :
  last (ffmpeg_compile_cmd (lit "/home/u") (OnePath (lit "in/a.mp4"))
                           (lit "out/a.mkv") [] true false true true) []
  = lit "/home/u/out/a.mkv".
Proof.
  pose proof (command_paths_are_absolute
                (lit "/home/u") (OnePath (lit "in/a.mp4")) (lit "out/a.mkv")
                [] true false true true eq_refl) as H.
  cbv zeta in H. destruct H as (_ & _ & _ & _ & Hout).
  destruct Hout as (Hlast & _); [discriminate|].
  rewrite Hlast. vm_compute. reflexivity.
Defined.

(** X4.  The command of [transcode_async] is [ffmpeg -y -nostdin
    -nostats -i <input> -vcodec hevc_nvenc -preset slow -rc vbr -cq <cq>
    -ac 1 -map_metadata 0 <output>]: an existing output is overwritten
    without asking; the parameter is written in decimal, so that reading
    the word back gives [cq], and commands for different parameters
    differ. *)
Theorem transcode_command_words :
  forall cwd in_path out_path cq,
    transcode_cmd cwd in_path out_path cq
    = [lit "ffmpeg"; lit "-y"; lit "-nostdin"; lit "-nostats";
       lit "-i"; abspath cwd in_path;
       lit "-vcodec"; lit "hevc_nvenc"; lit "-preset"; lit "slow";
       lit "-rc"; lit "vbr"; lit "-cq"; str_of_Z cq; lit "-ac"; lit "1";
       lit "-map_metadata"; lit "0";
       if str_eqb out_path (lit "-") then lit "-" else abspath cwd out_path]
    /\ Z_of_str (str_of_Z cq) = Some cq
    /\ (forall cq', transcode_cmd cwd in_path out_path cq'
                    = transcode_cmd cwd in_path out_path cq -> cq' = cq).
Proof.
  intros cwd in_path out_path cq.
  assert (forall c,
             transcode_cmd cwd in_path out_path c
             = [lit "ffmpeg"; lit "-y"; lit "-nostdin"; lit "-nostats";
                lit "-i"; abspath cwd in_path;
                lit "-vcodec"; lit "hevc_nvenc"; lit "-preset"; lit "slow";
                lit "-rc"; lit "vbr"; lit "-cq"; str_of_Z c; lit "-ac";
                lit "1"; lit "-map_metadata"; lit "0";
                if str_eqb out_path (lit "-") then lit "-"
                else abspath cwd out_path]) as Hwords.
  { intros c. unfold transcode_cmd. rewrite ffmpeg_compile_cmd_shape.
    destruct (str_eqb out_path (lit "-")) eqn:E.
    - apply str_eqb_eq in E. subst. reflexivity.
    - reflexivity. }
  split; [apply Hwords|]. split; [apply int_of_str_of_Z|].
  intros cq' H. rewrite !Hwords in H.
  assert (str_of_Z cq' = str_of_Z cq) as Hs by (inversion H; reflexivity).
  pose proof (int_of_str_of_Z cq') as H1. rewrite Hs, int_of_str_of_Z in H1.
  now inversion H1.
Qed.

Lemma transcode_command_witness :
  Z_of_str (str_of_Z 40) = Some 40
  /\ transcode_cmd (lit "/w") (lit "a.mp4") (lit "o.mkv") 38
     <> transcode_cmd (lit "/w") (lit "a.mp4") (lit "o.mkv") 40.
Proof.
  destruct (transcode_command_words (lit "/w") (lit "a.mp4") (lit "o.mkv") 40)
    as (_ & Hback & Hinj).
  split; [exact Hback|]. intros H. apply Hinj in H. discriminate.
Defined.

(** X5.  The command of [vmaf_async] is [ffmpeg -nostdin -nostats -i
    <distorted> -i <reference> -filter_complex libvmaf=n_threads=<threads>
    -f null -]: the distorted file comes first, nothing is written but the
    standard output, and with an absolute working directory no word of
    the command is [-y]. *)
Theorem measurement_command_words :
  forall cwd distorted_path reference_path threads,
    let cmd := vmaf_cmd cwd distorted_path reference_path threads in
    cmd = [lit "ffmpeg"; lit "-nostdin"; lit "-nostats";
           lit "-i"; abspath cwd distorted_path;
           lit "-i"; abspath cwd reference_path;
           lit "-filter_complex";
           lit "libvmaf=n_threads=" ++ str_of_Z threads;
           lit "-f"; lit "null"; lit "-"]
    /\ last cmd [] = lit "-"
    /\ (isabs cwd = true -> ~ In (lit "-y") cmd).
Proof.
  intros cwd distorted_path reference_path threads cmd.
  assert (cmd = [lit "ffmpeg"; lit "-nostdin"; lit "-nostats";
                 lit "-i"; abspath cwd distorted_path;
                 lit "-i"; abspath cwd reference_path;
                 lit "-filter_complex";
                 lit "libvmaf=n_threads=" ++ str_of_Z threads;
                 lit "-f"; lit "null"; lit "-"]) as Hwords.
  { unfold cmd, vmaf_cmd. rewrite ffmpeg_compile_cmd_shape. reflexivity. }
  split; [exact Hwords|]. rewrite Hwords. split; [reflexivity|].
  intros Hcwd Hin.
  assert (forall p, abspath cwd p <> lit "-y") as Habs.
  { intros p Hp. pose proof (abspath_isabs cwd p Hcwd) as Ha.
    rewrite Hp in Ha. discriminate. }
  cbn [In] in Hin.
  repeat match goal with
         | H : _ \/ _ |- _ => destruct H as [H|H]
         end;
    try discriminate; try contradiction;
    try (now apply Habs in Hin).
Qed.

Lemma measurement_command_witness :
  last (vmaf_cmd (lit "/w") (lit "o.mkv") (lit "a.mp4") 14) [] = lit "-"
  /\ ~ In (lit "-y") (vmaf_cmd (lit "/w") (lit "o.mkv") (lit "a.mp4") 14).
Proof.
  pose proof (measurement_command_words (lit "/w") (lit "o.mkv")
                                        (lit "a.mp4") 14) as H.
  cbv zeta in H. destruct H as (_ & Hlast & Hno).
  split; [exact Hlast | exact (Hno eq_refl)].
Defined.

(** ** The literal a score is parsed from *)

Section ParsedLiteral.

Variable unicode_Nd : N -> bool.
Variable float_of_str : str -> pyfloat.

Lemma match_number_exact s m :
  match_number unicode_Nd s = Some m ->
  exists rest,
    s = m ++ rest /\ decimal_literal unicode_Nd m
    /\ no_digit_ahead unicode_Nd rest.
Proof.
  unfold match_number. pose proof (span_spec (re_digit unicode_Nd) s) as H1.
  destruct (span (re_digit unicode_Nd) s) as [d1 r1].
  destruct H1 as (-> & F1 & _).
  destruct d1 as [|c1 d1]; [discriminate|].
  destruct r1 as [|c r2]; [discriminate|].
  destruct (N.eqb_spec c FULL_STOP) as [->|]; [|discriminate].
  pose proof (span_spec (re_digit unicode_Nd) r2) as H2.
  destruct (span (re_digit unicode_Nd) r2) as [d2 r3].
  destruct H2 as (-> & F2 & Hstop).
  destruct d2 as [|c2 d2]; [discriminate|]. intros Hm.
  inversion Hm; subst m; clear Hm.
  exists r3. split; [cbn [app]; now rewrite <- app_assoc|].
  split; [|exact Hstop].
  exists (c1 :: d1), (c2 :: d2).
  split; [reflexivity|]. repeat split; try discriminate; assumption.
Qed.

Lemma re_search_from_first s : forall seen_rev m,
  re_search_from unicode_Nd seen_rev s = Some m ->
  exists s1 s2,
    s = s1 ++ s2
    /\ lookbehind (rev s1 ++ seen_rev) = true
    /\ match_number unicode_Nd s2 = Some m
    /\ forall a b, s1 = a ++ b -> b <> [] ->
         lookbehind (rev a ++ seen_rev) = false
         \/ match_number unicode_Nd (b ++ s2) = None.
Proof.
  induction s as [|c s IH]; intros seen_rev m; cbn [re_search_from].
  - destruct (lookbehind seen_rev) eqn:El; [|discriminate].
    destruct (match_number unicode_Nd []) eqn:E; [|discriminate].
    cbn in E. discriminate.
  - destruct (if lookbehind seen_rev
              then match_number unicode_Nd (c :: s) else None)
      as [m'|] eqn:Ehere.
    + intros Hm. inversion Hm; subst m'; clear Hm.
      destruct (lookbehind seen_rev) eqn:El; [|discriminate].
      exists [], (c :: s). split; [reflexivity|]. split; [exact El|].
      split; [exact Ehere|].
      intros a b Hab Hb. destruct a; destruct b; try discriminate.
      congruence.
    + intros Hm. destruct (IH (c :: seen_rev) m Hm)
        as (s1 & s2 & -> & Hl & Hmn & Hfirst).
      exists (c :: s1), s2. split; [reflexivity|].
      split; [cbn [rev]; now rewrite <- app_assoc|].
      split; [exact Hmn|].
      intros a b Hab Hb. destruct a as [|c' a].
      * cbn in Hab. subst b. cbn [rev app].
        destruct (lookbehind seen_rev); [right; exact Ehere | now left].
      * cbn in Hab. inversion Hab; subst c' s1.
        cbn [rev]. rewrite <- app_assoc. now apply Hfirst.
Qed.

(** X6.  When [vmaf_get_score] returns a score for decodable output, the
    text is [pre ++ "VMAF score: " ++ m ++ rest] where [m] is digits, a
    full stop and digits, no digit follows [m] (the literal is taken
    whole), the score is [float(m)], and no occurrence of the label
    followed by such a literal starts further left. *)
Theorem score_is_first_complete_literal :
  forall (stdout : bytes) (text : str) (v : pyfloat),
    decode_utf8 stdout = Some text ->
    vmaf_get_score unicode_Nd float_of_str stdout = Val (Some v) ->
    exists pre m rest,
      text = pre ++ SCORE_LABEL ++ m ++ rest
      /\ v = float_of_str m
      /\ decimal_literal unicode_Nd m
      /\ no_digit_ahead unicode_Nd rest
      /\ forall pre' m' rest',
           text = pre' ++ SCORE_LABEL ++ m' ++ rest' ->
           decimal_literal unicode_Nd m' ->
           (List.length pre <= List.length pre')%nat.
Proof.
  intros stdout text v Hd Hv. unfold vmaf_get_score in Hv. rewrite Hd in Hv.
  destruct (re_search unicode_Nd text) as [m|] eqn:Es; [|discriminate].
  inversion Hv; subst v; clear Hv.
  destruct (re_search_from_first text [] m Es)
    as (s1 & s2 & -> & Hl & Hmn & Hfirst).
  rewrite app_nil_r in Hl. apply lookbehind_iff in Hl.
  rewrite rev_involutive in Hl. destruct Hl as (pre & ->).
  destruct (match_number_exact s2 m Hmn) as (rest & -> & Hlit & Hstop).
  exists pre, m, rest. rewrite <- !app_assoc.
  split; [reflexivity|]. split; [reflexivity|].
  split; [exact Hlit|]. split; [exact Hstop|].
  intros pre' m' rest' Heq (d1 & d2 & -> & H1 & H2 & F1 & F2).
  destruct (Nat.le_gt_cases (List.length pre) (List.length pre'))
    as [Hle|Hgt]; [exact Hle|exfalso].
  rewrite !app_assoc in Heq. rewrite <- !app_assoc in Heq.
  assert ((pre ++ SCORE_LABEL) ++ m ++ rest
          = (pre' ++ SCORE_LABEL) ++ (d1 ++ [FULL_STOP] ++ d2) ++ rest')
    as Heq' by (rewrite <- !app_assoc; exact Heq).
  apply app_eq_app in Heq'. destruct Heq' as (l & [[Ha Hb]|[Ha Hb]]).
  - (* the other occurrence ends earlier *)
    destruct l as [|x l].
    + rewrite app_nil_r in Ha. apply (f_equal (@List.length N)) in Ha.
      rewrite !length_app in Ha. lia.
    + destruct (Hfirst (pre' ++ SCORE_LABEL) (x :: l) Ha ltac:(discriminate))
        as [Hno|Hno].
      * rewrite app_nil_r in Hno.
        assert (lookbehind (rev (pre' ++ SCORE_LABEL)) = true) as Hyes
          by (apply lookbehind_iff; rewrite rev_involutive; now exists pre').
        congruence.
      * rewrite <- Hb in Hno.
        destruct (match_number_complete unicode_Nd d1 d2 rest' H1 H2 F1 F2)
          as (m2 & Hm2).
        rewrite <- !app_assoc in Hno. cbn [app] in Hno, Hm2. congruence.
  - apply (f_equal (@List.length N)) in Ha.
    rewrite !length_app in Ha. lia.
Qed.

Lemma decode_ascii (stdout : bytes) :
  Forall (fun b => (byte_val b < 128)%N) stdout ->
  decode_utf8 stdout = Some (map byte_val stdout).
Proof.
  induction 1 as [|b bs Hb _ IH]; [reflexivity|].
  cbn [decode_utf8 map]. apply N.ltb_lt in Hb. rewrite Hb, IH. reflexivity.
Qed.

(** X7.  Output made of ASCII bytes only is decoded byte by byte, and
    [vmaf_get_score] returns on it (a score or [None]): it does not
    raise. *)
Theorem ascii_output_never_raises :
  forall stdout : bytes,
    Forall (fun b => (byte_val b < 128)%N) stdout ->
    decode_utf8 stdout = Some (map byte_val stdout)
    /\ exists r, vmaf_get_score unicode_Nd float_of_str stdout = Val r.
Proof.
  intros stdout H. pose proof (decode_ascii stdout H) as Hd.
  split; [exact Hd|]. unfold vmaf_get_score. rewrite Hd.
  destruct (re_search unicode_Nd (map byte_val stdout)); eexists; reflexivity.
Qed.

End ParsedLiteral.

Lemma score_is_first_complete_literal_witness :
  exists pre m rest,
    lit "x VMAF score: 96.50 VMAF score: 1.5" = pre ++ SCORE_LABEL ++ m ++ rest
    /\ exact_decimal (lit "96.50") = exact_decimal m
    /\ List.length pre = 2%nat.
Proof.
  destruct (score_is_first_complete_literal ascii_digits_only exact_decimal
              (blit "x VMAF score: 96.50 VMAF score: 1.5")
              (lit "x VMAF score: 96.50 VMAF score: 1.5")
              (exact_decimal (lit "96.50")) eq_refl eq_refl)
    as (pre & m & rest & Ht & Hv & _ & _ & Hfirst).
  exists pre, m, rest. split; [exact Ht|]. split; [exact Hv|].
  assert (List.length pre <= 2)%nat as Hle.
  { apply (Hfirst (lit "x ") (lit "96.50") (lit " VMAF score: 1.5"));
      [reflexivity|].
    exists (lit "96"), (lit "50"). split; [reflexivity|].
    split; [discriminate|]. split; [discriminate|].
    split; repeat constructor. }
  destruct pre as [|a [|b [|c pre]]]; cbn in Hle; try lia;
    cbn in Ht; try discriminate.
  reflexivity.
Defined.

Lemma ascii_output_witness :
  exists r, vmaf_get_score ascii_digits_only exact_decimal
                           (blit "VMAF score: 96.5") = Val r.
Proof.
  apply (ascii_output_never_raises ascii_digits_only exact_decimal
           (blit "VMAF score: 96.5")).
  repeat constructor.
Defined.

(** ** The name of an output file *)

Lemma split_sep_nonempty s : split_sep s <> [].
Proof.
  induction s as [|c s IH]; cbn; [discriminate|].
  destruct (c =? SEP)%N; [discriminate|].
  destruct (split_sep s); [contradiction | discriminate].
Qed.

Lemma split_sep_at_sep a : forall b,
  split_sep (a ++ SEP :: b) = split_sep a ++ split_sep b.
Proof.
  induction a as [|c a IH]; intros b; cbn [app split_sep].
  - rewrite N.eqb_refl. reflexivity.
  - destruct (c =? SEP)%N; [now rewrite IH|].
    rewrite IH. pose proof (split_sep_nonempty a).
    destruct (split_sep a); [contradiction | reflexivity].
Qed.

Lemma split_sep_plain name : ~ In SEP name -> split_sep name = [name].
Proof.
  induction name as [|c name IH]; intros Hn; [reflexivity|].
  cbn. destruct (N.eqb_spec c SEP) as [->|].
  - exfalso. apply Hn. now left.
  - rewrite IH; [reflexivity|]. intros H. apply Hn. now right.
Qed.

Lemma normpath_comps_app k a : forall b acc,
  normpath_comps k (a ++ b) acc = normpath_comps k b (normpath_comps k a acc).
Proof.
  induction a as [|c a IH]; intros b acc; cbn [app normpath_comps];
    [reflexivity|].
  destruct (str_eqb c [] || str_eqb c DOT); [apply IH|].
  destruct (_ || _ || _); apply IH.
Qed.

Lemma plain_name_kept k name acc :
  plain_name name -> normpath_comps k [name] acc = acc ++ [name].
Proof.
  intros (_ & c & Hin & Hc). cbn [normpath_comps].
  assert (str_eqb name [] = false) as ->
    by (apply str_eqb_neq; intros ->; contradiction).
  assert (str_eqb name DOT = false) as ->.
  { apply str_eqb_neq. intros ->. destruct Hin as [<-|[]]. now apply Hc. }
  assert (str_eqb name DOTDOT = false) as ->.
  { apply str_eqb_neq. intros ->.
    destruct Hin as [<-|[<-|[]]]; now apply Hc. }
  reflexivity.
Qed.

Lemma join_sep_snoc cs name :
  join_sep (cs ++ [name])
  = match cs with
    | [] => name
    | _ => join_sep cs ++ [SEP] ++ name
    end.
Proof.
  induction cs as [|c cs IH]; [reflexivity|].
  cbn [app join_sep]. rewrite IH.
  destruct cs as [|c' cs]; [reflexivity|].
  cbn [app]. now rewrite <- app_assoc.
Qed.

Lemma repeat_sep_dir k : dir_part (repeat SEP k).
Proof.
  destruct k as [|k]; [now left|right].
  exists (repeat SEP k). now rewrite <- repeat_cons.
Qed.

Lemma normpath_keeps_plain_name d name :
  dir_part d -> plain_name name ->
  basename (normpath (d ++ name)) = name.
Proof.
  intros Hd Hname. pose proof Hname as (Hsep & c & Hin & Hc).
  assert (exists k comps,
             normpath (d ++ name)
             = repeat SEP k ++ join_sep (comps ++ [name])) as (k & cs & ->).
  { unfold normpath.
    destruct (d ++ name) as [|x t] eqn:Epath.
    { destruct d; destruct name; try discriminate. contradiction. }
    rewrite <- Epath.
    set (k := if starts_with [SEP] (d ++ name) then _ else 0%nat).
    assert (exists cs, normpath_comps k (split_sep (d ++ name)) []
                       = cs ++ [name]) as (cs & Hcs).
    { destruct Hd as [->|(d' & ->)].
      - cbn [app]. rewrite (split_sep_plain name Hsep).
        exists []. now apply plain_name_kept.
      - rewrite <- app_assoc. cbn [app].
        rewrite split_sep_at_sep, (split_sep_plain name Hsep).
        rewrite normpath_comps_app.
        eexists. now apply plain_name_kept. }
    rewrite Hcs. exists k, cs.
    destruct (repeat SEP k ++ join_sep (cs ++ [name])) eqn:E; [|reflexivity].
    exfalso. apply app_eq_nil in E. destruct E as [_ E].
    rewrite join_sep_snoc in E.
    destruct cs; [subst; contradiction|].
    apply app_eq_nil in E. destruct E as [_ E]. discriminate. }
  rewrite join_sep_snoc.
  destruct cs as [|c0 cs].
  - rewrite (basename_after_dir _ _ (repeat_sep_dir k)).
    now apply basename_no_sep.
  - assert (dir_part (repeat SEP k ++ join_sep (c0 :: cs) ++ [SEP])) as Hdir.
    { right. exists (repeat SEP k ++ join_sep (c0 :: cs)).
      now rewrite <- app_assoc. }
    replace (repeat SEP k ++ join_sep (c0 :: cs) ++ [SEP] ++ name)
      with ((repeat SEP k ++ join_sep (c0 :: cs) ++ [SEP]) ++ name)
      by (now rewrite <- !app_assoc).
    rewrite (basename_after_dir _ _ Hdir). now apply basename_no_sep.
Qed.

Lemma join_dir_part a name :
  plain_name name -> exists d, dir_part d /\ join a name = d ++ name.
Proof.
  intros (Hsep & c & Hin & Hc). unfold join.
  assert (starts_with [SEP] name = false) as ->.
  { destruct name as [|x name]; [reflexivity|]. cbn [starts_with].
    destruct (N.eqb_spec SEP x) as [<-|]; [|reflexivity].
    exfalso. apply Hsep. now left. }
  destruct a as [|x a].
  - exists []. split; [now left | reflexivity].
  - destruct (ends_with_sep (x :: a)) eqn:E.
    + exists (x :: a). split; [|reflexivity]. right.
      unfold ends_with_sep in E.
      destruct (rev (x :: a)) as [|y r] eqn:Er; [discriminate|].
      apply N.eqb_eq in E. subst y. exists (rev r).
      rewrite <- (rev_involutive (x :: a)), Er. reflexivity.
    + exists ((x :: a) ++ [SEP]). split; [right; now eexists|].
      now rewrite <- app_assoc.
Qed.

(** X8.  For an extension without a separator that is not made of full
    stops only: the base name of the output path is the base name of the
    input with its extension replaced, whatever the output directory is;
    the output name has no separator and ends with the extension. *)
Theorem output_keeps_base_name_with_new_extension :
  forall output_dir ext p,
    ~ In SEP ext -> (exists c, In c ext /\ c <> FULL_STOP) ->
    basename (out_path output_dir ext p) = fst (splitext (basename p)) ++ ext
    /\ ~ In SEP (out_name ext p)
    /\ exists root, out_name ext p = root ++ ext.
Proof.
  intros output_dir ext p Hsep (c & Hin & Hc).
  pose proof (out_name_replaces_extension ext p Hsep) as Hname.
  assert (plain_name (out_name ext p)) as Hplain.
  { rewrite Hname. split.
    - intros H. apply in_app_or in H. destruct H as [H|H]; [|now apply Hsep].
      exact (splitext_root_free (basename p) (basename_free p) H).
    - exists c. split; [apply in_or_app; now right | exact Hc]. }
  split; [|split; [apply Hplain | eexists; exact Hname]].
  unfold out_path.
  destruct (join_dir_part output_dir _ Hplain) as (d & Hd & ->).
  rewrite (normpath_keeps_plain_name d _ Hd Hplain). exact Hname.
Qed.

Lemma output_keeps_base_name_witness :
  basename (out_path (lit "/data/../videos//done/") DEFAULT_OUT_FILE_EXTENSION
                     (lit "in/clip.2024.mp4"))
  = lit "clip.2024.mkv".
Proof.
  destruct (output_keeps_base_name_with_new_extension
              (lit "/data/../videos//done/") DEFAULT_OUT_FILE_EXTENSION
              (lit "in/clip.2024.mp4")) as (H & _).
  - cbn. intros [H|[H|[H|[H|[]]]]]; discriminate.
  - exists 109%N. split; [cbn; tauto | discriminate].
  - rewrite H. reflexivity.
Defined.

(** ** Runs of the event loop *)

Ltac unfold_code_in H :=
  unfold transcode_worker, transcode_worker_get, transcode_worker_forward,
    transcode_worker_mark, transcode_async, ffmpeg_run_async,
    vmaf_worker_iter, vmaf_worker_get, vmaf_worker_decide, vmaf_worker_mark,
    vmaf_async, measured, q_get, q_put, q_put_nowait, q_task_done, on_queue,
    bind, ret, raise, log, Queue.get, Queue.put, Queue.put_nowait,
    Queue.task_done, Queue.base_put_nowait, Queue.base_task_done, Queue.full,
    Queue.bump_custom in H.

Ltac state_fields :=
  cbn [shared t_workers v_workers orch transcode_q vmaf_q trace queue_of
       Queue.maxsize Queue._queue Queue._unfinished_tasks
       Queue._unfinished_tasks_custom] in *.

Ltac took_effect Hex :=
  inversion Hex; subst; clear Hex; rewrite <- ?app_assoc; cbn [app].

(** Applies a constructor of [effect] at the state of the goal. *)
Ltac by_effect c :=
  match goal with
  | |- effect ?s _ _ =>
      first [ now apply (c s)
            | eapply (c s); cbn [t_workers v_workers];
              first [ eassumption | now left | now right
                    | left; now split | right; now split ] ]
  end.

Section Effects.

Variable unicode_Nd : N -> bool.
Variable float_of_str : str -> pyfloat.
Variable threshold : Q.

Lemma exec_effect a s s' :
  loop_inv s -> exec unicode_Nd float_of_str threshold a s = Some s' ->
  effect s a s'.
Proof.
  intros Hinv Hex. open_sys s.
  destruct Hinv as ((Hm1 & Hb1 & Hn1) & (Hm2 & Hb2 & Hn2) & Ht & Hv & Hdone).
  subst tmax vmax tbase vbase.
  destruct a as [i|i out|i|i|i out|i|];
    cbn [exec shared t_workers v_workers orch] in Hex.
  - destruct (nth_error ts i) as [[| | | |]|] eqn:En; try discriminate.
    unfold_code_in Hex. cbn in Hex.
    destruct tpend as [|y tpend]; cbn in Hex; [discriminate|].
    took_effect Hex. by_effect (fun s => eff_t_get s i y tpend).
  - destruct (nth_error ts i) as [[|[[a b] c]| | |]|] eqn:En; try discriminate.
    destruct out as [|stdout rc|]; unfold_code_in Hex; cbn in Hex;
      took_effect Hex.
    + by_effect (fun s => eff_t_dead s i a b c SpawnRaises).
    + by_effect (fun s => eff_t_forward s i a b c stdout rc).
    + by_effect (fun s => eff_t_dead s i a b c Interrupted).
  - destruct (nth_error ts i) as [[| | | |]|] eqn:En; try discriminate.
    pose proof (holders_pos ts i WMarking En eq_refl) as Hpos.
    unfold_code_in Hex. cbn in Hex.
    destruct (Z.leb_spec tcount 0); [lia|]. cbn in Hex.
    took_effect Hex. by_effect (fun s => eff_t_mark s i).
  - destruct (nth_error vs i) as [[| | | |]|] eqn:En; try discriminate.
    unfold_code_in Hex. cbn in Hex.
    destruct vpend as [|y vpend]; cbn in Hex; [discriminate|].
    took_effect Hex. by_effect (fun s => eff_v_get s i y vpend).
  - destruct (nth_error vs i) as [[|[[a b] c]| | |]|] eqn:En; try discriminate.
    destruct out as [|stdout rc|]; unfold_code_in Hex; cbn in Hex.
    + took_effect Hex. by_effect (fun s => eff_v_dead s i a b c).
    + destruct (vmaf_get_score unicode_Nd float_of_str stdout)
        as [[score|]|e|]; cbn in Hex; try discriminate.
      * destruct (float_lt score threshold) eqn:Elt; cbn in Hex.
        -- destruct (Z.leb_spec 0 (c - DEFAULT_CQ_STEP)); cbn in Hex;
             took_effect Hex.
           ++ by_effect (fun s => eff_v_retry s i a b c).
           ++ by_effect (fun s => eff_v_keep s i a b c).
        -- took_effect Hex. by_effect (fun s => eff_v_keep s i a b c).
      * took_effect Hex. by_effect (fun s => eff_v_requeue s i a b c).
      * took_effect Hex. by_effect (fun s => eff_v_dead s i a b c).
    + took_effect Hex. by_effect (fun s => eff_v_dead s i a b c).
  - destruct (nth_error vs i) as [[| | | |]|] eqn:En; try discriminate.
    pose proof (holders_pos vs i WMarking En eq_refl) as Hpos.
    unfold_code_in Hex. cbn in Hex.
    destruct (Z.leb_spec vcount 0); [lia|]. cbn in Hex.
    took_effect Hex. by_effect (fun s => eff_v_mark s i).
  - unfold queues_wait_for_done in Hex. state_fields.
    destruct o; try discriminate.
    + destruct (work_left _) eqn:Ew; took_effect Hex.
      * by_effect eff_wait.
      * by_effect eff_fire.
    + took_effect Hex. by_effect eff_join_t.
    + took_effect Hex. by_effect eff_join_v.
Qed.

(** Proving an invariant of the event loop from the effects of a turn. *)
Lemma reachable_invariant (P : sys -> Prop) s0 :
  loop_inv s0 -> P s0 ->
  (forall s a s', loop_inv s -> P s -> effect s a s' -> P s') ->
  forall s, reachable unicode_Nd float_of_str threshold s0 s ->
            loop_inv s /\ P s.
Proof.
  intros H0 HP Hstep s Hr.
  induction Hr as [|s s' _ (Hinv & IH) (a & Hex)]; [now split|].
  split; [exact (loop_inv_exec _ _ _ a s s' Hinv Hex)|].
  exact (Hstep s a s' Hinv IH (exec_effect a s s' Hinv Hex)).
Qed.

End Effects.

(** *** Pools of workers *)

Lemma count_set_nth f ps : forall i old p,
  nth_error ps i = Some old ->
  count_w f (set_nth i p ps) = count_w f ps - b2z (f old) + b2z (f p).
Proof.
  unfold count_w.
  induction ps as [|q ps IH]; intros i old p Hn.
  - destruct i; discriminate.
  - destruct i as [|i]; cbn in Hn.
    + inversion Hn; subst. cbn [set_nth filter].
      destruct (f old), (f p); cbn [List.length b2z]; lia.
    + cbn [set_nth filter]. specialize (IH i old p Hn).
      destruct (f q); cbn [List.length]; lia.
Qed.

Lemma count_nonneg f ps : 0 <= count_w f ps.
Proof. unfold count_w. lia. Qed.

Lemma count_le f g ps :
  (forall p, f p = true -> g p = true) -> count_w f ps <= count_w g ps.
Proof.
  intros Hfg. unfold count_w. induction ps as [|p ps IH]; cbn; [lia|].
  destruct (f p) eqn:Ef.
  - rewrite (Hfg p Ef). cbn [List.length]. lia.
  - destruct (g p); cbn [List.length]; lia.
Qed.

Lemma holders_count ps : holders ps = count_w holds_item ps.
Proof. reflexivity. Qed.

Lemma length_set_nth {A} (ps : list A) : forall i p,
  List.length (set_nth i p ps) = List.length ps.
Proof.
  induction ps as [|q ps IH]; intros [|i] p; cbn; auto.
Qed.

Lemma Forall_set_nth {A} (P : A -> Prop) (ps : list A) : forall i p,
  Forall P ps -> P p -> Forall P (set_nth i p ps).
Proof.
  induction ps as [|q ps IH]; intros [|i] p HF Hp; cbn; auto;
    inversion HF; subst; constructor; auto.
Qed.

Lemma In_set_nth_other {A} (ps : list A) : forall i old p d,
  nth_error ps i = Some old -> old <> d -> In d ps -> In d (set_nth i p ps).
Proof.
  induction ps as [|q ps IH]; intros [|i] old p d Hn Hne Hin;
    cbn in Hn; try discriminate.
  - inversion Hn; subst. destruct Hin as [->|Hin]; [contradiction|].
    now right.
  - destruct Hin as [->|Hin]; [now left|]. right. eapply IH; eauto.
Qed.

Lemma nth_error_repeat_eq {A} (x y : A) n i :
  nth_error (repeat x n) i = Some y -> y = x.
Proof.
  intros H. apply nth_error_In in H. now apply repeat_spec in H.
Qed.

Ltac after_effect :=
  unfold flow, pending, outstanding, Queue.get_unfinished_tasks in *;
  cbn [shared t_workers v_workers orch trace queue_of transcode_q vmaf_q
       q_popped q_pushed q_marked Queue._queue Queue.maxsize
       Queue._unfinished_tasks Queue._unfinished_tasks_custom] in *.

Lemma In_set_nth_same {A} (ps : list A) : forall i old p,
  nth_error ps i = Some old -> In p (set_nth i p ps).
Proof.
  induction ps as [|q ps IH]; intros [|i] old p Hn; cbn in Hn;
    try discriminate; cbn; [now left | right; eapply IH; eauto].
Qed.

Lemma dedup_nonempty (files : list str) :
  files <> [] -> (1 <= List.length (deduplicate_files files))%nat.
Proof.
  intros Hne. destruct files as [|f files]; [contradiction|].
  assert (In f (deduplicate_files (f :: files))) as Hin
    by (apply deduplicate_In; now left).
  destruct (deduplicate_files (f :: files)); [contradiction | cbn; lia].
Qed.

Lemma main_start_fields input_files output_dir init_cq n_t n_v :
  let s := main_start input_files output_dir init_cq n_t n_v in
  pending TQ (shared s)
  = map (seed_item output_dir init_cq DEFAULT_OUT_FILE_EXTENSION)
        (deduplicate_files input_files)
  /\ pending VQ (shared s) = []
  /\ trace (shared s)
     = map (fun f => EvPut TQ (seed_item output_dir init_cq
                                         DEFAULT_OUT_FILE_EXTENSION f))
           (deduplicate_files input_files)
  /\ t_workers s = repeat WIdle n_t
  /\ v_workers s = repeat WIdle n_v
  /\ orch s = OCheck.
Proof.
  unfold main_start, workers_create, queues_populate.
  pose proof (seed_spec (deduplicate_files input_files) output_dir init_cq
                        DEFAULT_OUT_FILE_EXTENSION fresh_world fresh_world_ok)
    as H. cbv zeta in H.
  destruct H as ((_ & Htr & Htq & Hvq & _) & _).
  cbn [shared t_workers v_workers orch]. rewrite Htq, Hvq, Htr.
  repeat split; reflexivity.
Qed.

Section DeadWorkers.

Variable unicode_Nd : N -> bool.
Variable float_of_str : str -> pyfloat.
Variable threshold : Q.

Local Abbreviation reaches := (reachable unicode_Nd float_of_str threshold).
Local Abbreviation run := (exec unicode_Nd float_of_str threshold).

(** **** A worker that ended with an exception *)

Lemma dead_stays s a s' :
  effect s a s' ->
  In WDead (t_workers s) \/ In WDead (v_workers s) ->
  In WDead (t_workers s') \/ In WDead (v_workers s').
Proof.
  intros Heff Hdead.
  destruct Heff; cbn [t_workers v_workers]; try exact Hdead;
    destruct Hdead as [Hd|Hd];
    try (left; exact Hd); try (right; exact Hd);
    try (left; eapply In_set_nth_other; [eassumption | discriminate | exact Hd]);
    try (right; eapply In_set_nth_other;
         [eassumption | discriminate | exact Hd]).
  - left. apply in_map_iff. exists WDead. now split.
  - right. apply in_map_iff. exists WDead. now split.
Qed.

Lemma dead_means_work_left s :
  loop_inv s -> In WDead (t_workers s) \/ In WDead (v_workers s) ->
  orch s <> ODone
  /\ (0 < outstanding TQ (shared s) \/ 0 < outstanding VQ (shared s)).
Proof.
  intros (_ & _ & Ht & Hv & Hdone) Hdead. split.
  - intros Ho. destruct (Hdone Ho) as (_ & _ & Ft & Fv).
    rewrite Forall_forall in Ft, Fv.
    destruct Hdead as [Hd|Hd]; [apply Ft in Hd | apply Fv in Hd];
      discriminate.
  - destruct Hdead as [Hd|Hd]; apply In_nth_error in Hd;
      destruct Hd as (i & Hi);
      pose proof (holders_pos _ i WDead Hi eq_refl); [left|right]; lia.
Qed.

Lemma fatal_turn_kills_worker a s s1 :
  fatal_turn a -> run a s = Some s1 ->
  In WDead (t_workers s1) \/ In WDead (v_workers s1).
Proof.
  intros Hf Hex.
  destruct a as [i|i out|i|i|i out|i|]; try contradiction;
    cbn [exec] in Hex.
  - left.
    destruct (nth_error (t_workers s) i) as [[|[[a b] c]| | |]|] eqn:En;
      try discriminate.
    destruct out as [|stdout rc|]; try contradiction;
      unfold_code_in Hex; cbn in Hex; inversion Hex; subst; cbn [t_workers];
      eapply In_set_nth_same; eauto.
  - right.
    destruct (nth_error (v_workers s) i) as [[|[[a b] c]| | |]|] eqn:En;
      try discriminate.
    destruct out as [|stdout rc|]; cbn [fatal_turn] in Hf;
      unfold_code_in Hex; unfold vmaf_get_score in Hex; cbn in Hex;
      rewrite ?Hf in Hex; cbn in Hex; inversion Hex; subst; cbn [v_workers];
      eapply In_set_nth_same; eauto.
Qed.

(** X9.  Once a worker has ended with an exception (its external
    process could not be started, the wait for it was interrupted, or a
    measurement printed bytes that are not UTF-8), the run never
    completes: in every later state work is left, the workers are not
    cancelled, and the ended worker is still there. *)
Theorem dead_worker_blocks_completion :
  forall input_files output_dir init_cq n_transcode_workers n_vmaf_workers
         s a s1 s',
    reaches (main_start input_files output_dir init_cq
                        n_transcode_workers n_vmaf_workers) s ->
    fatal_turn a ->
    run a s = Some s1 ->
    reaches s1 s' ->
    orch s' <> ODone
    /\ work_left (shared s') = true
    /\ (In WDead (t_workers s') \/ In WDead (v_workers s')).
Proof.
  intros input_files output_dir init_cq n_t n_v s a s1 s' Hs Ha Hex Hs'.
  pose proof (loop_inv_reachable unicode_Nd float_of_str threshold _ s
                (main_start_inv input_files output_dir init_cq n_t n_v) Hs)
    as Hinv.
  pose proof (loop_inv_exec unicode_Nd float_of_str threshold a s s1 Hinv Hex)
    as Hinv1.
  pose proof (fatal_turn_kills_worker a s s1 Ha Hex) as Hdead1.
  destruct (reachable_invariant unicode_Nd float_of_str threshold
              (fun x => In WDead (t_workers x) \/ In WDead (v_workers x))
              s1 Hinv1 Hdead1
              (fun x b x' _ Hd Heff => dead_stays x b x' Heff Hd) s' Hs')
    as (Hinv' & Hdead').
  destruct (dead_means_work_left s' Hinv' Hdead') as (Ho & Hw).
  repeat split; auto.
  unfold work_left, outstanding in *. cbn [queue_of] in Hw.
  apply orb_true_iff. destruct Hw as [Hw|Hw]; [left|right];
    now apply Z.ltb_lt.
Qed.

End DeadWorkers.

Lemma dead_worker_witness :
  orch example_stuck <> ODone /\ work_left (shared example_stuck) = true.
Proof.
  destruct (dead_worker_blocks_completion
              ascii_digits_only exact_decimal (95 # 1)
              [lit "a.mp4"] DEFAULT_OUT_DIR DEFAULT_CQ_INITIAL 1%nat 1%nat
              example_busy (TForward 0 SpawnRaises) example_dead
              example_stuck) as (H1 & H2 & _).
  - apply (exec_all_reachable _ _ _ [Orch; TGet 0]). vm_compute. reflexivity.
  - exact I.
  - vm_compute. reflexivity.
  - apply (exec_all_reachable _ _ _ [Orch; Orch; Orch]).
    vm_compute. reflexivity.
  - split; assumption.
Defined.

(** *** Items of the run *)

Lemma nth_busy_with (P : item -> Prop) ps i x :
  Forall (busy_with P) ps -> nth_error ps i = Some (WBusy x) -> P x.
Proof.
  intros HF Hn. apply nth_error_In in Hn. rewrite Forall_forall in HF.
  exact (HF _ Hn).
Qed.

Lemma in_search_start init_cq : in_search init_cq init_cq.
Proof. split; [exists 0; lia | auto]. Qed.

Lemma in_search_step init_cq cq :
  in_search init_cq cq -> 0 <= cq - DEFAULT_CQ_STEP ->
  in_search init_cq (cq - DEFAULT_CQ_STEP).
Proof.
  intros ((k & Hk & ->) & _) H.
  split; [exists (k + 1); unfold DEFAULT_CQ_STEP in *; lia | auto].
Qed.

Ltac item_goal :=
  repeat match goal with
         | |- _ /\ _ => split
         | |- Forall _ (_ ++ _) => apply Forall_app; split
         | |- Forall _ (set_nth _ _ _) => apply Forall_set_nth
         | |- Forall _ (_ :: _) => constructor
         | |- Forall _ [] => constructor
         end;
  try assumption; try exact I.

Section ItemFacts.

Variable input_files : list str.
Variable output_dir : str.
Variable init_cq : Z.

Local Abbreviation inv := (items_inv input_files output_dir init_cq).

Lemma items_inv_effect s a s' : inv s -> effect s a s' -> inv s'.
Proof.
  intros (Htq & Hvq & Hts & Hvs & Htr) Heff.
  destruct Heff; unfold items_inv; after_effect;
    try match goal with
        | H : Queue._queue _ = _ :: _ |- _ =>
            rewrite H in *; cbn [tl];
            match goal with
            | F : Forall _ (_ :: _) |- _ => inversion F; subst; clear F
            end
        end;
    try match goal with
        | H : nth_error (t_workers _) _ = Some (WBusy _) |- _ =>
            pose proof (nth_busy_with _ _ _ _ Hts H) as Hx; cbn in Hx
        | H : nth_error (v_workers _) _ = Some (WBusy _) |- _ =>
            pose proof (nth_busy_with _ _ _ _ Hvs H) as Hx; cbn in Hx
        end;
    item_goal.
  all: try (cbn; assumption).
  all: try (cbn; eexists; eassumption).
  all: try (destruct Hx as (Hin & Hout & Hcq); cbn; repeat split;
            try assumption; now apply in_search_step).
  - destruct H0 as [(_ & ->)|(_ & ->)]; item_goal; cbn; assumption.
  - destruct H0 as [->| ->]; item_goal; cbn; eexists; eassumption.
  - apply Forall_forall. intros p Hp. apply in_map_iff in Hp.
    destruct Hp as ([] & <- & _); exact I.
  - apply Forall_forall. intros p Hp. apply in_map_iff in Hp.
    destruct Hp as ([] & <- & _); exact I.
Qed.

Lemma items_inv_start n_t n_v :
  inv (main_start input_files output_dir init_cq n_t n_v).
Proof.
  pose proof (main_start_fields input_files output_dir init_cq n_t n_v) as H.
  cbv zeta in H. destruct H as (Htq & Hvq & Htr & Hts & Hvs & _).
  unfold items_inv. rewrite Htq, Hvq, Htr, Hts, Hvs.
  assert (forall f, In f (deduplicate_files input_files) ->
                    t_item_ok input_files output_dir init_cq
                      (seed_item output_dir init_cq DEFAULT_OUT_FILE_EXTENSION
                                 f)) as Hseed.
  { intros f Hf. cbn. split; [now apply deduplicate_In|].
    split; [reflexivity | apply in_search_start]. }
  repeat split.
  - apply Forall_forall. intros x Hx. apply in_map_iff in Hx.
    destruct Hx as (f & <- & Hf). now apply Hseed.
  - constructor.
  - apply Forall_forall. intros p Hp. apply repeat_spec in Hp. now subst.
  - apply Forall_forall. intros p Hp. apply repeat_spec in Hp. now subst.
  - apply Forall_forall. intros e He. apply in_map_iff in He.
    destruct He as (f & <- & Hf). now apply Hseed.
Qed.

End ItemFacts.

Section ProcessesOfTheRun.

Variable unicode_Nd : N -> bool.
Variable float_of_str : str -> pyfloat.
Variable threshold : Q.

Local Abbreviation reaches := (reachable unicode_Nd float_of_str threshold).
Local Abbreviation run := (exec unicode_Nd float_of_str threshold).

(** X10.  Every external process of a run works on an input file and on the
    output path of that file: an encode reads an input file and writes the
    output path computed from it, with a parameter that is the initial one
    lowered by a whole number of steps and is not negative unless the
    initial one is; a measurement compares the output path of an input
    file with that input file. *)
Theorem processes_work_on_input_files :
  forall input_files output_dir init_cq n_transcode_workers n_vmaf_workers
         s p,
    reaches (main_start input_files output_dir init_cq
                        n_transcode_workers n_vmaf_workers) s ->
    In (EvRun p) (trace (shared s)) ->
    match p with
    | Encode in_path out cq =>
        In in_path input_files
        /\ out = out_path output_dir DEFAULT_OUT_FILE_EXTENSION in_path
        /\ (exists k, 0 <= k /\ cq = init_cq - k * DEFAULT_CQ_STEP)
        /\ (0 <= init_cq -> 0 <= cq)
    | Measure distorted reference =>
        In reference input_files
        /\ distorted
           = out_path output_dir DEFAULT_OUT_FILE_EXTENSION reference
    end.
Proof.
  intros input_files output_dir init_cq n_t n_v s p Hs Hp.
  destruct (reachable_invariant unicode_Nd float_of_str threshold
              (items_inv input_files output_dir init_cq) _
              (main_start_inv input_files output_dir init_cq n_t n_v)
              (items_inv_start input_files output_dir init_cq n_t n_v)
              (fun x a x' _ Hi Heff =>
                 items_inv_effect input_files output_dir init_cq x a x' Hi
                                  Heff)
              s Hs) as (_ & _ & _ & _ & _ & Htr).
  rewrite Forall_forall in Htr. specialize (Htr _ Hp).
  destruct p as [a b c|d r]; cbn in Htr.
  - destruct Htr as (Hin & Hout & Hk & Hpos). auto.
  - destruct Htr as (c & Hin & Hout & _). auto.
Qed.

End ProcessesOfTheRun.

Lemma processes_witness :
  In (lit "a.mp4") [lit "a.mp4"]
  /\ lit "out/a.mkv"
     = out_path DEFAULT_OUT_DIR DEFAULT_OUT_FILE_EXTENSION (lit "a.mp4").
Proof.
  pose proof (processes_work_on_input_files
                ascii_digits_only exact_decimal (95 # 1)
                [lit "a.mp4"] DEFAULT_OUT_DIR DEFAULT_CQ_INITIAL 1%nat 1%nat
                example_dead
                (Encode (lit "a.mp4") (lit "out/a.mkv") 40)) as H.
  cbv iota beta in H. destruct H as (Hin & Hout & _).
  - apply (exec_all_reachable _ _ _ [Orch; TGet 0; TForward 0 SpawnRaises]).
    vm_compute. reflexivity.
  - cbn. auto 10.
  - split; assumption.
Defined.

(** *** Items in flight *)

Lemma count_q_cons sel x l :
  count_q sel (x :: l) = b2z (sel x) + count_q sel l.
Proof.
  unfold count_q. cbn [filter]. destruct (sel x); cbn [List.length b2z]; lia.
Qed.

Lemma count_q_snoc sel x l :
  count_q sel (l ++ [x]) = count_q sel l + b2z (sel x).
Proof.
  unfold count_q. rewrite filter_app, length_app. cbn [filter].
  destruct (sel x); cbn [List.length b2z]; lia.
Qed.

Lemma count_q_nonneg sel l : 0 <= count_q sel l.
Proof. unfold count_q. lia. Qed.

Lemma count_busy_on_cancel sel ps : count_w (busy_on sel) (map cancel ps) = 0.
Proof.
  unfold count_w. induction ps as [|p ps IH]; [reflexivity|].
  cbn [map filter]. destruct p; cbn; exact IH.
Qed.

Lemma count_busy_on_idle sel n : count_w (busy_on sel) (repeat WIdle n) = 0.
Proof. unfold count_w. induction n; cbn; auto. Qed.

Lemma count_one g ps : forall i p,
  nth_error ps i = Some p -> g p = true -> 1 <= count_w g ps.
Proof.
  unfold count_w.
  induction ps as [|q ps IH]; intros [|i] p Hn Hg; cbn in Hn;
    try discriminate.
  - inversion Hn; subst. cbn [filter]. rewrite Hg. cbn [List.length]. lia.
  - cbn [filter]. pose proof (IH i p Hn Hg).
    destruct (g q); cbn [List.length]; lia.
Qed.

Lemma count_two g ps : forall i j p q,
  i <> j -> nth_error ps i = Some p -> nth_error ps j = Some q ->
  g p = true -> g q = true -> 2 <= count_w g ps.
Proof.
  induction ps as [|r ps IH]; intros [|i] [|j] p q Hij Hi Hj Hp Hq;
    cbn in Hi, Hj; try discriminate; try congruence.
  - inversion Hi; subst. pose proof (count_one g ps j q Hj Hq) as H1.
    unfold count_w in *. cbn [filter]. rewrite Hp. cbn [List.length]. lia.
  - inversion Hj; subst. pose proof (count_one g ps i p Hi Hp) as H1.
    unfold count_w in *. cbn [filter]. rewrite Hq. cbn [List.length]. lia.
  - assert (i <> j) as Hij' by congruence.
    pose proof (IH i j p q Hij' Hi Hj Hp Hq) as H2.
    unfold count_w in *. cbn [filter].
    destruct (g r); cbn [List.length]; lia.
Qed.

Section Flow.

Variables t_sel v_sel : item -> bool.
Hypothesis swapped : forall a b c, v_sel (b, a, c) = t_sel (a, b, c).
Hypothesis any_cq : forall a b c c', t_sel (a, b, c) = t_sel (a, b, c').

Lemma flow_effect s a s' :
  effect s a s' -> flow t_sel v_sel s' <= flow t_sel v_sel s.
Proof.
  intros Heff.
  pose proof (count_nonneg (busy_on t_sel) (t_workers s)) as Nt.
  pose proof (count_nonneg (busy_on v_sel) (v_workers s)) as Nv.
  destruct Heff; after_effect;
    rewrite ?count_busy_on_cancel;
    try match goal with
        | H : Queue._queue _ = _ :: _ |- _ =>
            rewrite H in *; cbn [tl]; rewrite count_q_cons
        end;
    rewrite ?count_q_snoc;
    try match goal with
        | H : nth_error _ _ = Some _ |- _ =>
            rewrite (count_set_nth _ _ _ _ _ H)
        end;
    cbn [busy_on];
    rewrite ?swapped;
    try match goal with
        | |- context [t_sel (?r, ?d, ?c - DEFAULT_CQ_STEP)] =>
            rewrite (any_cq r d (c - DEFAULT_CQ_STEP) c)
        end;
    repeat match goal with
           | |- context [b2z ?b] => destruct b; cbn [b2z]
           end;
    try lia.
Qed.

End Flow.

Lemma flow_start t_sel v_sel input_files output_dir init_cq n_t n_v :
  flow t_sel v_sel (main_start input_files output_dir init_cq n_t n_v)
  = count_q t_sel (map (seed_item output_dir init_cq
                                  DEFAULT_OUT_FILE_EXTENSION)
                       (deduplicate_files input_files)).
Proof.
  pose proof (main_start_fields input_files output_dir init_cq n_t n_v) as H.
  cbv zeta in H. destruct H as (Htq & Hvq & _ & Hts & Hvs & _).
  unfold flow. rewrite Htq, Hvq, Hts, Hvs, !count_busy_on_idle.
  unfold count_q at 2. cbn [filter List.length]. lia.
Qed.

Lemma count_q_all (l : list item) :
  count_q (fun _ => true) l = Z.of_nat (List.length l).
Proof.
  unfold count_q. induction l as [|x l IH]; [reflexivity|].
  cbn [filter List.length]. lia.
Qed.

Lemma count_source_absent f output_dir init_cq ext l :
  ~ In f l ->
  count_q (source_is f) (map (seed_item output_dir init_cq ext) l) = 0.
Proof.
  induction l as [|x l IH]; intros Hn; [reflexivity|].
  cbn [map]. rewrite count_q_cons. unfold source_is at 1. cbn [seed_item fst].
  destruct (str_eqb x f) eqn:E.
  - apply str_eqb_eq in E. subst. exfalso. apply Hn. now left.
  - cbn [b2z]. rewrite IH; [reflexivity|]. intros Hin. apply Hn. now right.
Qed.

Lemma count_source_NoDup f output_dir init_cq ext l :
  NoDup l ->
  count_q (source_is f) (map (seed_item output_dir init_cq ext) l) <= 1.
Proof.
  induction 1 as [|x l Hx Hl IH]; [cbn; lia|].
  cbn [map]. rewrite count_q_cons. unfold source_is at 1. cbn [seed_item fst].
  destruct (str_eqb x f) eqn:E; cbn [b2z]; [|lia].
  apply str_eqb_eq in E. subst.
  rewrite count_source_absent by assumption. lia.
Qed.

Section ItemsInFlight.

Variable unicode_Nd : N -> bool.
Variable float_of_str : str -> pyfloat.
Variable threshold : Q.

Local Abbreviation reaches := (reachable unicode_Nd float_of_str threshold).
Local Abbreviation run := (exec unicode_Nd float_of_str threshold).

Lemma flow_bound t_sel v_sel :
  (forall a b c, v_sel (b, a, c) = t_sel (a, b, c)) ->
  (forall a b c c', t_sel (a, b, c) = t_sel (a, b, c')) ->
  forall s0 s, loop_inv s0 -> reaches s0 s ->
               flow t_sel v_sel s <= flow t_sel v_sel s0.
Proof.
  intros Hsw Hcq s0 s H0 Hs.
  apply (reachable_invariant unicode_Nd float_of_str threshold
           (fun x => flow t_sel v_sel x <= flow t_sel v_sel s0) s0 H0);
    [lia | | exact Hs].
  intros x a x' _ Hx Heff.
  pose proof (flow_effect t_sel v_sel Hsw Hcq x a x' Heff). lia.
Qed.

(** X11.  At any moment of a run, each input file has at most one item that
    waits in a queue or is with an external process, so no more items are
    in flight than there are distinct input files; no two workers are
    busy with the same input file at the same time. *)
Theorem one_item_per_input_file :
  forall input_files output_dir init_cq n_transcode_workers n_vmaf_workers s,
    reaches (main_start input_files output_dir init_cq
                        n_transcode_workers n_vmaf_workers) s ->
    live s <= Z.of_nat (List.length (deduplicate_files input_files))
    /\ (forall f, in_flight f s <= 1)
    /\ (forall i j x y,
           i <> j ->
           nth_error (t_workers s) i = Some (WBusy x) ->
           nth_error (t_workers s) j = Some (WBusy y) ->
           fst (fst x) <> fst (fst y))
    /\ (forall i j x y,
           i <> j ->
           nth_error (v_workers s) i = Some (WBusy x) ->
           nth_error (v_workers s) j = Some (WBusy y) ->
           snd (fst x) <> snd (fst y))
    /\ (forall i j x y,
           nth_error (t_workers s) i = Some (WBusy x) ->
           nth_error (v_workers s) j = Some (WBusy y) ->
           fst (fst x) <> snd (fst y)).
Proof.
  intros input_files output_dir init_cq n_t n_v s Hs.
  pose proof (main_start_inv input_files output_dir init_cq n_t n_v) as H0.
  assert (forall f, in_flight f s <= 1) as Hone.
  { intros f. unfold in_flight.
    pose proof (flow_bound (source_is f) (reference_is f)
                  (fun a b c => eq_refl) (fun a b c c' => eq_refl) _ s H0 Hs)
      as H.
    rewrite flow_start in H.
    pose proof (count_source_NoDup f output_dir init_cq
                  DEFAULT_OUT_FILE_EXTENSION _
                  (deduplicate_NoDup input_files)).
    lia. }
  split; [|split; [exact Hone|]].
  - unfold live.
    pose proof (flow_bound (fun _ => true) (fun _ => true)
                  (fun a b c => eq_refl) (fun a b c c' => eq_refl) _ s H0 Hs)
      as H.
    rewrite flow_start, count_q_all, length_map in H. exact H.
  - repeat split.
    + intros i j x y Hij Hi Hj Heq.
      pose proof (count_two (busy_on (source_is (fst (fst y))))
                    (t_workers s) i j _ _ Hij Hi Hj) as H2.
      cbn [busy_on] in H2. unfold source_is in H2 at 1 2.
      rewrite Heq, str_eqb_refl in H2. specialize (H2 eq_refl eq_refl).
      pose proof (Hone (fst (fst y))) as H1. unfold in_flight, flow in H1.
      pose proof (count_q_nonneg (source_is (fst (fst y)))
                    (pending TQ (shared s))).
      pose proof (count_q_nonneg (reference_is (fst (fst y)))
                    (pending VQ (shared s))).
      pose proof (count_nonneg (busy_on (reference_is (fst (fst y))))
                    (v_workers s)).
      lia.
    + intros i j x y Hij Hi Hj Heq.
      pose proof (count_two (busy_on (reference_is (snd (fst y))))
                    (v_workers s) i j _ _ Hij Hi Hj) as H2.
      cbn [busy_on] in H2. unfold reference_is in H2 at 1 2.
      rewrite Heq, str_eqb_refl in H2. specialize (H2 eq_refl eq_refl).
      pose proof (Hone (snd (fst y))) as H1. unfold in_flight, flow in H1.
      pose proof (count_q_nonneg (source_is (snd (fst y)))
                    (pending TQ (shared s))).
      pose proof (count_q_nonneg (reference_is (snd (fst y)))
                    (pending VQ (shared s))).
      pose proof (count_nonneg (busy_on (source_is (snd (fst y))))
                    (t_workers s)).
      lia.
    + intros i j x y Hi Hj Heq.
      pose proof (count_one (busy_on (source_is (snd (fst y))))
                    (t_workers s) i _ Hi) as H2.
      pose proof (count_one (busy_on (reference_is (snd (fst y))))
                    (v_workers s) j _ Hj) as H3.
      cbn [busy_on] in H2, H3. unfold source_is in H2 at 1.
      unfold reference_is in H3 at 1.
      rewrite Heq, str_eqb_refl in H2. rewrite str_eqb_refl in H3.
      specialize (H2 eq_refl). specialize (H3 eq_refl).
      pose proof (Hone (snd (fst y))) as H1. unfold in_flight, flow in H1.
      pose proof (count_q_nonneg (source_is (snd (fst y)))
                    (pending TQ (shared s))).
      pose proof (count_q_nonneg (reference_is (snd (fst y)))
                    (pending VQ (shared s))).
      lia.
Qed.

End ItemsInFlight.

Lemma one_item_witness :
  live example_busy <= 1 /\ in_flight (lit "a.mp4") example_busy <= 1.
Proof.
  destruct (one_item_per_input_file
              ascii_digits_only exact_decimal (95 # 1)
              [lit "a.mp4"] DEFAULT_OUT_DIR DEFAULT_CQ_INITIAL 1%nat 1%nat
              example_busy) as (Hlive & Hone & _).
  - apply (exec_all_reachable _ _ _ [Orch; TGet 0]). vm_compute. reflexivity.
  - split; [exact Hlive | apply Hone].
Defined.

Lemma work_left_false s :
  loop_inv s -> work_left (shared s) = false ->
  pending TQ (shared s) = [] /\ pending VQ (shared s) = []
  /\ holders (t_workers s) = 0 /\ holders (v_workers s) = 0.
Proof.
  intros (_ & _ & Ht & Hv & _) Hw.
  unfold work_left, outstanding in *. cbn [queue_of] in *.
  apply orb_false_iff in Hw. destruct Hw as [H1 H2].
  apply Z.ltb_ge in H1, H2.
  pose proof (holders_nonneg (t_workers s)).
  pose proof (holders_nonneg (v_workers s)).
  destruct (pending TQ (shared s)), (pending VQ (shared s));
    cbn [List.length] in *; repeat split; try reflexivity; lia.
Qed.

Lemma work_left_true s :
  0 < outstanding TQ (shared s) \/ 0 < outstanding VQ (shared s) ->
  work_left (shared s) = true.
Proof.
  unfold work_left, outstanding. cbn [queue_of]. intros H.
  apply orb_true_iff. destruct H; [left|right]; now apply Z.ltb_lt.
Qed.

Lemma no_encoder_effect s a s' :
  loop_inv s -> no_encoder s -> effect s a s' -> no_encoder s'.
Proof.
  intros Hinv (Hts & Ho & Hq) Heff. unfold no_encoder.
  destruct Heff; after_effect;
    try match goal with
        | H : nth_error (t_workers _) ?i = Some _ |- _ =>
            rewrite Hts in H; destruct i; discriminate
        end;
    rewrite ?length_app; cbn [List.length];
    repeat split; try assumption; try discriminate; try lia.
  all: exfalso; destruct (work_left_false s Hinv H0) as (P & _);
    unfold pending in P; cbn [queue_of] in P; rewrite P in Hq;
    cbn [List.length] in Hq; lia.
Qed.

Lemma busy_or_dead_holds p : busy_or_dead p = true -> holds_item p = true.
Proof. destruct p; cbn; auto. Qed.

Lemma no_checker_effect s a s' :
  loop_inv s -> no_checker s -> effect s a s' -> no_checker s'.
Proof.
  intros Hinv (Hvs & Ho & Hq) Heff. unfold no_checker.
  pose proof (count_nonneg busy_or_dead (t_workers s)) as Nt.
  destruct Heff; after_effect;
    try match goal with
        | H : nth_error (v_workers _) ?i = Some _ |- _ =>
            rewrite Hvs in H; destruct i; discriminate
        end;
    try match goal with
        | H : Queue._queue _ = _ :: _ |- _ =>
            rewrite H in *; cbn [tl List.length] in *
        end;
    try match goal with
        | H : nth_error (t_workers _) _ = Some _ |- _ =>
            rewrite (count_set_nth _ _ _ _ _ H)
        end;
    rewrite ?length_app; cbn [List.length busy_or_dead is_busy is_dead orb b2z];
    repeat split; try assumption; try discriminate; try lia.
  all: exfalso; destruct (work_left_false s Hinv H0) as (P1 & P2 & Z1 & _);
    unfold pending in P1, P2; cbn [queue_of] in P1, P2;
    rewrite P1, P2 in Hq; cbn [List.length] in Hq;
    pose proof (count_le busy_or_dead holds_item (t_workers s)
                         busy_or_dead_holds) as Hle;
    rewrite <- holders_count in Hle; lia.
Qed.

Lemma start_is_fresh output_dir init_cq n_t n_v :
  main_start [] output_dir init_cq n_t n_v
  = mkSys fresh_world (repeat WIdle n_t) (repeat WIdle n_v) OCheck.
Proof. reflexivity. Qed.

Lemma map_cancel_idle n : map cancel (repeat WIdle n) = repeat WCancelled n.
Proof. induction n; cbn; congruence. Qed.

Section EmptyRuns.

Variable unicode_Nd : N -> bool.
Variable float_of_str : str -> pyfloat.
Variable threshold : Q.

Local Abbreviation reaches := (reachable unicode_Nd float_of_str threshold).
Local Abbreviation run := (exec unicode_Nd float_of_str threshold).

(** X12.  With at least one input file and an empty pool of encoders or of
    quality checkers, the wait never ends: at every moment work is left
    and the workers are not cancelled. *)
Theorem empty_pool_never_completes :
  forall input_files output_dir init_cq n_transcode_workers n_vmaf_workers s,
    input_files <> [] ->
    n_transcode_workers = 0%nat \/ n_vmaf_workers = 0%nat ->
    reaches (main_start input_files output_dir init_cq
                        n_transcode_workers n_vmaf_workers) s ->
    orch s <> ODone /\ work_left (shared s) = true.
Proof.
  intros input_files output_dir init_cq n_t n_v s Hne Hpool Hs.
  pose proof (main_start_inv input_files output_dir init_cq n_t n_v) as H0.
  pose proof (main_start_fields input_files output_dir init_cq n_t n_v) as F.
  cbv zeta in F. destruct F as (Ftq & Fvq & _ & Fts & Fvs & Fo).
  pose proof (dedup_nonempty input_files Hne) as Hlen.
  destruct Hpool as [-> | ->].
  - destruct (reachable_invariant unicode_Nd float_of_str threshold
                no_encoder _ H0) with (s := s) as (Hinv & Hts & Ho & Hq).
    + unfold no_encoder. rewrite Fts, Fo, Ftq, length_map.
      repeat split; [discriminate | lia].
    + exact no_encoder_effect.
    + exact Hs.
    + split; [exact Ho|]. apply work_left_true. left.
      destruct Hinv as (_ & _ & Ht & _).
      pose proof (holders_nonneg (t_workers s)). lia.
  - destruct (reachable_invariant unicode_Nd float_of_str threshold
                no_checker _ H0) with (s := s) as (Hinv & Hvs & Ho & Hq).
    + unfold no_checker. rewrite Fvs, Fo, Ftq, Fvq, length_map.
      pose proof (count_nonneg busy_or_dead (t_workers
         (main_start input_files output_dir init_cq n_t 0))).
      repeat split; [discriminate | cbn [List.length]; lia].
    + exact no_checker_effect.
    + exact Hs.
    + split; [exact Ho|]. apply work_left_true.
      destruct Hinv as (_ & _ & Ht & Hv & _).
      pose proof (holders_nonneg (v_workers s)).
      pose proof (count_le busy_or_dead holds_item (t_workers s)
                           busy_or_dead_holds) as Hle.
      rewrite <- holders_count in Hle. lia.
Qed.

(** X13.  With no input file nothing is ever run: the only turn that can be
    taken is the first check of [queues_wait_for_done], which finds no
    work and cancels every worker; after it no turn is left. *)
Theorem empty_input_completes_at_once :
  forall output_dir init_cq n_transcode_workers n_vmaf_workers,
    let start := main_start [] output_dir init_cq
                            n_transcode_workers n_vmaf_workers in
    let fired := fired_at_once n_transcode_workers n_vmaf_workers in
    run Orch start = Some fired
    /\ (forall a s', run a start = Some s' -> a = Orch /\ s' = fired)
    /\ (forall a, run a fired = None)
    /\ (forall s, reaches start s -> s = start \/ s = fired).
Proof.
  intros output_dir init_cq n_t n_v start fired.
  assert (run Orch start = Some fired) as Hfire.
  { unfold start, fired, fired_at_once. rewrite start_is_fresh.
    cbn. now rewrite !map_cancel_idle. }
  assert (forall a s', run a start = Some s' -> a = Orch /\ s' = fired)
    as Honly.
  { intros a s' Hex. destruct a as [i|i out|i|i|i out|i|].
    7: { split; [reflexivity | congruence]. }
    all: exfalso; unfold start in Hex; rewrite start_is_fresh in Hex;
      cbn [exec t_workers v_workers shared] in Hex.
    all: match type of Hex with
         | context [nth_error (repeat WIdle ?n) ?i] =>
             destruct (nth_error (repeat WIdle n) i) as [p|] eqn:En;
             [apply nth_error_repeat_eq in En; subst p | discriminate]
         end; try discriminate.
    all: unfold_code_in Hex; cbn in Hex; discriminate. }
  assert (forall a, run a fired = None) as Hstop.
  { intros a. destruct a as [i|i out|i|i|i out|i|];
      unfold fired, fired_at_once; cbn [exec t_workers v_workers shared];
      try reflexivity.
    all: match goal with
         | |- context [nth_error (repeat WCancelled ?n) ?i] =>
             destruct (nth_error (repeat WCancelled n) i) as [p|] eqn:En;
             [apply nth_error_repeat_eq in En; subst p | reflexivity]
         end; reflexivity. }
  split; [exact Hfire|]. split; [exact Honly|]. split; [exact Hstop|].
  intros s Hs. induction Hs as [|s s' _ IH (a & Hex)]; [now left|].
  destruct IH as [-> | ->].
  - right. now destruct (Honly a s' Hex).
  - rewrite Hstop in Hex. discriminate.
Qed.

End EmptyRuns.

Lemma empty_pool_witness :
  orch example_unstaffed <> ODone
  /\ work_left (shared example_unstaffed) = true.
Proof.
  apply (empty_pool_never_completes
           ascii_digits_only exact_decimal (95 # 1)
           [lit "a.mp4"] DEFAULT_OUT_DIR DEFAULT_CQ_INITIAL 0%nat 1%nat).
  - discriminate.
  - now left.
  - apply (exec_all_reachable _ _ _ [Orch; Orch]). vm_compute. reflexivity.
Defined.

Lemma empty_input_witness :
  fired_at_once 1 2 = main_start [] DEFAULT_OUT_DIR DEFAULT_CQ_INITIAL 1 2
  \/ fired_at_once 1 2 = fired_at_once 1 2.
Proof.
  pose proof (empty_input_completes_at_once
                ascii_digits_only exact_decimal (95 # 1)
                DEFAULT_OUT_DIR DEFAULT_CQ_INITIAL 1%nat 2%nat) as H.
  cbv zeta in H. destruct H as (_ & _ & _ & Hall).
  apply Hall. apply (exec_all_reachable _ _ _ [Orch]). reflexivity.
Defined.

Lemma total_app {A} (w : A -> Z) l1 l2 :
  total w (l1 ++ l2) = total w l1 + total w l2.
Proof. induction l1 as [|x l1 IH]; cbn; [reflexivity | rewrite IH; lia]. Qed.

Lemma total_nonneg {A} (w : A -> Z) l :
  (forall x, 0 <= w x) -> 0 <= total w l.
Proof.
  intros Hw. induction l as [|x l IH]; cbn; [lia|]. specialize (Hw x). lia.
Qed.

Lemma total_set_nth {A} (w : A -> Z) ps : forall i old p,
  nth_error ps i = Some old ->
  total w (set_nth i p ps) = total w ps - w old + w p.
Proof.
  induction ps as [|q ps IH]; intros [|i] old p Hn; cbn in Hn;
    try discriminate.
  - inversion Hn; subst. cbn. lia.
  - cbn. rewrite (IH i old p Hn). lia.
Qed.

Lemma encodes_allowed_pos cq : 1 <= encodes_allowed cq.
Proof.
  unfold encodes_allowed, DEFAULT_CQ_STEP.
  destruct (Z.leb_spec 0 cq); [|lia].
  pose proof (Z.div_pos cq 2). lia.
Qed.

Lemma encodes_allowed_step cq :
  0 <= cq - DEFAULT_CQ_STEP ->
  encodes_allowed (cq - DEFAULT_CQ_STEP) = encodes_allowed cq - 1.
Proof.
  unfold encodes_allowed, DEFAULT_CQ_STEP. intros H.
  destruct (Z.leb_spec 0 (cq - 2)); [|lia].
  destruct (Z.leb_spec 0 cq); [|lia].
  replace (cq - 2) with (cq + (-1) * 2) by lia.
  rewrite Z.div_add by lia. lia.
Qed.

Lemma due_t_nonneg f x : 0 <= due_t f x.
Proof.
  unfold due_t. pose proof (encodes_allowed_pos (snd x)).
  destruct (source_is f x); lia.
Qed.

Lemma due_v_nonneg f x : 0 <= due_v f x.
Proof.
  unfold due_v. pose proof (encodes_allowed_pos (snd x)).
  destruct (reference_is f x); lia.
Qed.

Lemma on_busy_nonneg w p : (forall x, 0 <= w x) -> 0 <= on_busy w p.
Proof. intros Hw. destruct p; cbn; auto; lia. Qed.

Lemma total_cancel w ps : total (on_busy w) (map cancel ps) = 0.
Proof. induction ps as [|p ps IH]; cbn; [reflexivity|]. destruct p; cbn; lia. Qed.

Lemma total_idle w n : total (on_busy w) (repeat WIdle n) = 0.
Proof. induction n; cbn; lia. Qed.

Lemma spent_and_due_effect f s a s' :
  effect s a s' -> spent_and_due f s' <= spent_and_due f s.
Proof.
  intros Heff.
  pose proof (total_nonneg (on_busy (due_t f)) (t_workers s)
                (fun p => on_busy_nonneg _ p (due_t_nonneg f))) as Nt.
  pose proof (total_nonneg (on_busy (due_v f)) (v_workers s)
                (fun p => on_busy_nonneg _ p (due_v_nonneg f))) as Nv.
  unfold spent_and_due, encodes_of.
  destruct Heff; unfold pending in *;
    cbn [shared t_workers v_workers orch trace queue_of transcode_q vmaf_q
         q_popped q_pushed q_marked Queue._queue] in *;
    rewrite ?total_cancel;
    try match goal with
        | H : Queue._queue _ = _ :: _ |- _ => rewrite H in *; cbn [tl]
        end;
    rewrite ?total_app;
    try match goal with
        | H : nth_error _ _ = Some _ |- _ =>
            rewrite (total_set_nth _ _ _ _ _ H)
        end;
    cbn [total on_busy is_encode_of];
    repeat match goal with
           | H : _ \/ _ |- _ => destruct H
           | H : _ /\ _ |- _ => destruct H
           end;
    subst; cbn [total is_encode_of];
    try match goal with
        | H : 0 <= ?c - DEFAULT_CQ_STEP |- _ =>
            pose proof (encodes_allowed_step c H)
        end;
    try match goal with
        | H : nth_error _ _ = Some (WBusy (_, _, ?c)) |- _ =>
            pose proof (encodes_allowed_pos c)
        end;
    try lia;
    unfold due_t, due_v, source_is, reference_is; cbn [fst snd];
    repeat match goal with
           | |- context [str_eqb ?a ?b] => destruct (str_eqb a b)
           end;
    cbn [b2z]; try lia.
Qed.

Lemma spent_and_due_start f input_files output_dir init_cq n_t n_v :
  spent_and_due f (main_start input_files output_dir init_cq n_t n_v)
  <= encodes_allowed init_cq.
Proof.
  pose proof (main_start_fields input_files output_dir init_cq n_t n_v) as H.
  cbv zeta in H. destruct H as (Htq & Hvq & Htr & Hts & Hvs & _).
  unfold spent_and_due, encodes_of.
  rewrite Htq, Hvq, Htr, Hts, Hvs, !total_idle. cbn [total].
  pose proof (encodes_allowed_pos init_cq) as Hpos.
  assert (forall l, total (is_encode_of f)
                      (map (fun g => EvPut TQ (seed_item output_dir init_cq
                                                DEFAULT_OUT_FILE_EXTENSION g))
                           l) = 0) as Hnone.
  { induction l as [|g l IH]; cbn; [reflexivity | exact IH]. }
  rewrite Hnone.
  assert (forall l, ~ In f l ->
                    total (due_t f)
                      (map (seed_item output_dir init_cq
                                      DEFAULT_OUT_FILE_EXTENSION) l) = 0)
    as Habsent.
  { induction l as [|g l IH]; intros Hn; [reflexivity|].
    cbn [map total]. unfold due_t at 1, source_is. cbn [seed_item fst snd].
    destruct (str_eqb g f) eqn:E.
    - apply str_eqb_eq in E. subst. exfalso. apply Hn. now left.
    - rewrite IH; [lia|]. intros Hin. apply Hn. now right. }
  assert (forall l, NoDup l ->
                    total (due_t f)
                      (map (seed_item output_dir init_cq
                                      DEFAULT_OUT_FILE_EXTENSION) l)
                    <= encodes_allowed init_cq) as Hdup.
  { induction 1 as [|g l Hg Hl IH]; [cbn; lia|].
    cbn [map total]. unfold due_t at 1, source_is. cbn [seed_item fst snd].
    destruct (str_eqb g f) eqn:E; [|lia].
    apply str_eqb_eq in E. subst. rewrite Habsent by assumption. lia. }
  pose proof (Hdup _ (deduplicate_NoDup input_files)). lia.
Qed.

Section EncodeBudget.

Variable unicode_Nd : N -> bool.
Variable float_of_str : str -> pyfloat.
Variable threshold : Q.

Local Abbreviation reaches := (reachable unicode_Nd float_of_str threshold).

(** X14.  However the workers are scheduled and whatever the external
    processes do, the number of encode processes started for one input
    file never exceeds [init_cq // 2 + 1] (one when [init_cq] is
    negative): 21 for the default initial parameter. *)
Theorem encodes_per_input_file_are_bounded :
  forall input_files output_dir init_cq n_transcode_workers n_vmaf_workers
         s f,
    reaches (main_start input_files output_dir init_cq
                        n_transcode_workers n_vmaf_workers) s ->
    0 <= encodes_of f (trace (shared s)) <= encodes_allowed init_cq
    /\ encodes_allowed DEFAULT_CQ_INITIAL = 21.
Proof.
  intros input_files output_dir init_cq n_t n_v s f Hs.
  split; [|reflexivity].
  destruct (reachable_invariant unicode_Nd float_of_str threshold
              (fun x => spent_and_due f x <= encodes_allowed init_cq) _
              (main_start_inv input_files output_dir init_cq n_t n_v)
              (spent_and_due_start f input_files output_dir init_cq n_t n_v))
    with (s := s) as (_ & H).
  - intros x a x' _ Hx Heff.
    pose proof (spent_and_due_effect f x a x' Heff). lia.
  - exact Hs.
  - unfold spent_and_due in H.
    pose proof (total_nonneg (due_t f) (pending TQ (shared s))
                  (due_t_nonneg f)).
    pose proof (total_nonneg (due_v f) (pending VQ (shared s))
                  (due_v_nonneg f)).
    pose proof (total_nonneg (on_busy (due_t f)) (t_workers s)
                  (fun p => on_busy_nonneg _ p (due_t_nonneg f))).
    pose proof (total_nonneg (on_busy (due_v f)) (v_workers s)
                  (fun p => on_busy_nonneg _ p (due_v_nonneg f))).
    assert (0 <= encodes_of f (trace (shared s))).
    { apply total_nonneg. intros [| | |[a b c|d r]|]; cbn; try lia.
      destruct (str_eqb a f); cbn; lia. }
    lia.
Qed.

End EncodeBudget.

Lemma encodes_bounded_witness :
  0 <= encodes_of (lit "a.mp4") (trace (shared example_dead)) <= 21.
Proof.
  destruct (encodes_per_input_file_are_bounded
              ascii_digits_only exact_decimal (95 # 1)
              [lit "a.mp4"] DEFAULT_OUT_DIR DEFAULT_CQ_INITIAL 1%nat 1%nat
              example_dead (lit "a.mp4")) as (Hb & H21).
  - apply (exec_all_reachable _ _ _ [Orch; TGet 0; TForward 0 SpawnRaises]).
    vm_compute. reflexivity.
  - rewrite H21 in Hb. exact Hb.
Defined.

Lemma In_set_nth_inv {A} (ps : list A) : forall i p d,
  In d (set_nth i p ps) -> d = p \/ In d ps.
Proof.
  induction ps as [|q ps IH]; intros [|i] p d Hin; cbn in Hin;
    try contradiction.
  - destruct Hin as [<-|Hin]; [now left | right; now right].
  - destruct Hin as [<-|Hin]; [right; now left|].
    destruct (IH i p d Hin); [now left | right; now right].
Qed.

Lemma pool_inv_effect n_t n_v s a s' :
  pool_inv n_t n_v s -> effect s a s' -> pool_inv n_t n_v s'.
Proof.
  intros (Lt & Lv & Hc) Heff. unfold pool_inv.
  destruct Heff; cbn [t_workers v_workers orch shared];
    rewrite ?length_set_nth, ?length_map;
    (split; [assumption|]); (split; [assumption|]);
    intros Ho; try contradiction;
    try (assert (orch s <> ODone) as Ho' by congruence);
    try (destruct (Hc Ho) as (Ct & Cv));
    try (destruct (Hc Ho') as (Ct & Cv));
    split; try assumption;
    intros Hin; apply In_set_nth_inv in Hin;
    destruct Hin as [Hin|Hin]; try discriminate; contradiction.
Qed.

Lemma pool_inv_start input_files output_dir init_cq n_t n_v :
  pool_inv n_t n_v (main_start input_files output_dir init_cq n_t n_v).
Proof.
  pose proof (main_start_fields input_files output_dir init_cq n_t n_v) as H.
  cbv zeta in H. destruct H as (_ & _ & _ & Hts & Hvs & _).
  unfold pool_inv. rewrite Hts, Hvs, !repeat_length.
  repeat split; intros Hin; apply repeat_spec in Hin; discriminate.
Qed.

Lemma turns_of_nonneg c x : 0 <= c -> 0 <= turns_of c x.
Proof.
  intros Hc. unfold turns_of. pose proof (encodes_allowed_pos (snd x)). lia.
Qed.

Lemma turns_t_nonneg p : 0 <= turns_t p.
Proof. destruct p; cbn; try lia. apply turns_of_nonneg. lia. Qed.

Lemma turns_v_nonneg p : 0 <= turns_v p.
Proof. destruct p; cbn; try lia. apply turns_of_nonneg. lia. Qed.

Lemma turns_left_nonneg s : 0 <= turns_left s.
Proof.
  unfold turns_left.
  pose proof (total_nonneg (turns_of 6) (pending TQ (shared s))
                (fun x => turns_of_nonneg 6 x ltac:(lia))).
  pose proof (total_nonneg (turns_of 3) (pending VQ (shared s))
                (fun x => turns_of_nonneg 3 x ltac:(lia))).
  pose proof (total_nonneg turns_t (t_workers s) turns_t_nonneg).
  pose proof (total_nonneg turns_v (v_workers s) turns_v_nonneg).
  lia.
Qed.

(** A pool in which some worker holds an item has such a worker. *)
Lemma opc_done_dec (o : opc) : {o = ODone} + {o <> ODone}.
Proof. destruct o; [right|right|right|left]; congruence. Qed.

Lemma holder_found ps :
  0 < holders ps ->
  exists i p, nth_error ps i = Some p /\ holds_item p = true.
Proof.
  unfold holders. induction ps as [|q ps IH]; cbn [filter List.length];
    [lia|].
  destruct (holds_item q) eqn:E.
  - intros _. exists 0%nat, q. now split.
  - intros H. destruct (IH H) as (i & p & Hi & Hp).
    exists (S i), p. now split.
Qed.

Lemma first_is_idle ps :
  (1 <= List.length ps)%nat -> holders ps = 0 -> ~ In WCancelled ps ->
  nth_error ps 0 = Some WIdle.
Proof.
  destruct ps as [|p ps]; cbn [List.length]; [lia|].
  intros _ Hh Hc. unfold holders in Hh. cbn [filter] in Hh.
  destruct p; cbn in Hh |- *; try reflexivity; try lia.
  exfalso. apply Hc. now left.
Qed.

Ltac fewer_turns :=
  unfold turns_left, pending in *;
  cbn [shared t_workers v_workers orch trace queue_of transcode_q vmaf_q
       q_popped q_pushed q_marked Queue._queue] in *;
  try match goal with
      | H : Queue._queue _ = _ :: _ |- _ => rewrite H; cbn [tl]
      end;
  rewrite ?total_app;
  try match goal with
      | H : nth_error _ _ = Some _ |- _ => rewrite (total_set_nth _ _ _ _ _ H)
      end;
  cbn [total turns_t turns_v]; unfold turns_of; cbn [snd];
  try match goal with
      | H : 0 <= ?c - DEFAULT_CQ_STEP |- _ =>
          rewrite (encodes_allowed_step c H)
      end;
  repeat match goal with
         | |- context [encodes_allowed ?c] =>
             lazymatch goal with
             | _ : 1 <= encodes_allowed c |- _ => fail
             | _ => pose proof (encodes_allowed_pos c)
             end
         end;
  lia.

Ltac still_no_dead Dt Dv :=
  unfold no_dead; cbn [t_workers v_workers]; split; try assumption;
  intros Hin; apply In_set_nth_inv in Hin;
  destruct Hin as [Hin|Hin]; [discriminate | contradiction].

Section Progress.

Variable unicode_Nd : N -> bool.
Variable float_of_str : str -> pyfloat.
Variable threshold : Q.

Local Abbreviation reaches := (reachable unicode_Nd float_of_str threshold).
Local Abbreviation run := (exec unicode_Nd float_of_str threshold).
Local Abbreviation run_all :=
  (exec_all unicode_Nd float_of_str threshold).

Lemma scored_output_parsed :
  exists m, vmaf_get_score unicode_Nd float_of_str scored_output
            = Val (Some (float_of_str m)).
Proof. eexists. vm_compute. reflexivity. Qed.

Lemma run_t_get s i x rest :
  nth_error (t_workers s) i = Some WIdle ->
  pending TQ (shared s) = x :: rest ->
  run (TGet i) s
  = Some (mkSys (mkWorld (q_popped (transcode_q (shared s)))
                         (vmaf_q (shared s))
                         (trace (shared s) ++ [EvGet TQ x]))
                (set_nth i (WBusy x) (t_workers s)) (v_workers s) (orch s)).
Proof.
  intros Hn Hp. open_sys s. cbn [exec t_workers shared]. rewrite Hn.
  subst. reflexivity.
Qed.

Lemma run_v_get s i x rest :
  nth_error (v_workers s) i = Some WIdle ->
  pending VQ (shared s) = x :: rest ->
  run (VGet i) s
  = Some (mkSys (mkWorld (transcode_q (shared s))
                         (q_popped (vmaf_q (shared s)))
                         (trace (shared s) ++ [EvGet VQ x]))
                (t_workers s) (set_nth i (WBusy x) (v_workers s)) (orch s)).
Proof.
  intros Hn Hp. open_sys s. cbn [exec v_workers shared]. rewrite Hn.
  subst. reflexivity.
Qed.

Lemma run_t_forward s i in_path out_path cq :
  loop_inv s ->
  nth_error (t_workers s) i = Some (WBusy (in_path, out_path, cq)) ->
  run (TForward i (Exited [] 0)) s
  = Some (mkSys (mkWorld (transcode_q (shared s))
                         (q_pushed (out_path, in_path, cq)
                                   (vmaf_q (shared s)))
                         (trace (shared s)
                          ++ [EvRun (Encode in_path out_path cq);
                              EvPut VQ (out_path, in_path, cq)]))
                (set_nth i WMarking (t_workers s)) (v_workers s) (orch s)).
Proof.
  intros Hinv Hn. open_sys s.
  destruct Hinv as ((Hm1 & Hb1 & Hn1) & (Hm2 & Hb2 & Hn2) & _).
  subst tmax vmax tbase vbase.
  cbn [exec t_workers shared]. rewrite Hn.
  coro_unfold. cbn. rewrite <- app_assoc. reflexivity.
Qed.

Lemma run_t_mark s i :
  loop_inv s ->
  nth_error (t_workers s) i = Some WMarking ->
  run (TMark i) s
  = Some (mkSys (mkWorld (q_marked (transcode_q (shared s)))
                         (vmaf_q (shared s))
                         (trace (shared s) ++ [EvTaskDone TQ]))
                (set_nth i WIdle (t_workers s)) (v_workers s) (orch s)).
Proof.
  intros Hinv Hn. open_sys s.
  destruct Hinv as ((Hm1 & Hb1 & Hn1) & (Hm2 & Hb2 & Hn2) & Ht & _).
  subst tmax vmax tbase vbase.
  pose proof (holders_pos ts i WMarking Hn eq_refl) as Hpos.
  cbn [exec t_workers shared]. rewrite Hn.
  coro_unfold. cbn.
  destruct (Z.leb_spec tcount 0); [lia|]. cbn.
  replace (tcount + -1) with (tcount - 1) by lia. reflexivity.
Qed.

Lemma run_v_mark s i :
  loop_inv s ->
  nth_error (v_workers s) i = Some WMarking ->
  run (VMark i) s
  = Some (mkSys (mkWorld (transcode_q (shared s))
                         (q_marked (vmaf_q (shared s)))
                         (trace (shared s) ++ [EvTaskDone VQ]))
                (t_workers s) (set_nth i WIdle (v_workers s)) (orch s)).
Proof.
  intros Hinv Hn. open_sys s.
  destruct Hinv as ((Hm1 & Hb1 & Hn1) & (Hm2 & Hb2 & Hn2) & _ & Hv & _).
  subst tmax vmax tbase vbase.
  pose proof (holders_pos vs i WMarking Hn eq_refl) as Hpos.
  cbn [exec v_workers shared]. rewrite Hn.
  coro_unfold. cbn.
  destruct (Z.leb_spec vcount 0); [lia|]. cbn.
  replace (vcount + -1) with (vcount - 1) by lia. reflexivity.
Qed.

Lemma run_v_measure s i distorted reference cq :
  loop_inv s ->
  nth_error (v_workers s) i = Some (WBusy (distorted, reference, cq)) ->
  (0 <= cq - DEFAULT_CQ_STEP
   /\ run (VMeasure i (Exited scored_output 0)) s
      = Some (mkSys (mkWorld
                       (q_pushed (reference, distorted, cq - DEFAULT_CQ_STEP)
                                 (transcode_q (shared s)))
                       (vmaf_q (shared s))
                       (trace (shared s)
                        ++ [EvRun (Measure distorted reference);
                            EvPut TQ (reference, distorted,
                                      cq - DEFAULT_CQ_STEP)]))
                    (t_workers s) (set_nth i WMarking (v_workers s))
                    (orch s)))
  \/ run (VMeasure i (Exited scored_output 0)) s
     = Some (mkSys (mkWorld (transcode_q (shared s)) (vmaf_q (shared s))
                           (trace (shared s)
                            ++ [EvRun (Measure distorted reference)]))
                   (t_workers s) (set_nth i WMarking (v_workers s))
                   (orch s)).
Proof.
  intros Hinv Hn. open_sys s.
  destruct Hinv as ((Hm1 & Hb1 & Hn1) & (Hm2 & Hb2 & Hn2) & _).
  subst tmax vmax tbase vbase.
  cbn [exec v_workers shared]. rewrite Hn.
  destruct scored_output_parsed as (m & Hm).
  coro_unfold. unfold vmaf_async. coro_unfold. cbn [fst snd].
  rewrite Hm.
  destruct (float_lt (float_of_str m) threshold); cbn [andb].
  - destruct (Z.leb_spec 0 (cq - DEFAULT_CQ_STEP)).
    + left. split; [assumption|]. cbn. rewrite <- app_assoc. reflexivity.
    + right. reflexivity.
  - right. reflexivity.
Qed.

Lemma progress n_t n_v s :
  (1 <= n_t)%nat -> (1 <= n_v)%nat ->
  loop_inv s -> pool_inv n_t n_v s -> no_dead s -> orch s <> ODone ->
  work_left (shared s) = true ->
  exists a s',
    good_turn a /\ run a s = Some s'
    /\ turns_left s' < turns_left s /\ no_dead s' /\ orch s' = orch s.
Proof.
  intros Ht1 Hv1 Hinv (Lt & Lv & Hc) (Dt & Dv) Ho Hw.
  destruct (Hc Ho) as (Ct & Cv).
  destruct (Z.ltb_spec 0 (holders (t_workers s))) as [Hh|Hh].
  { destruct (holder_found _ Hh) as (i & p & Hi & Hp).
    destruct p as [|[[a b] c]| | |]; try discriminate.
    - exists (TForward i (Exited [] 0)). eexists.
      split; [reflexivity|]. split; [eapply run_t_forward; eassumption|].
      split; [fewer_turns|]. split; [still_no_dead Dt Dv | reflexivity].
    - exists (TMark i). eexists.
      split; [exact I|]. split; [eapply run_t_mark; eassumption|].
      split; [fewer_turns|]. split; [still_no_dead Dt Dv | reflexivity].
    - exfalso. apply Dt. eapply nth_error_In; eauto. }
  destruct (Z.ltb_spec 0 (holders (v_workers s))) as [Hg|Hg].
  { destruct (holder_found _ Hg) as (i & p & Hi & Hp).
    destruct p as [|[[a b] c]| | |]; try discriminate.
    - exists (VMeasure i (Exited scored_output 0)).
      destruct (run_v_measure s i a b c Hinv Hi) as [(Hcq & Hrun)|Hrun];
        eexists; (split; [reflexivity|]); (split; [exact Hrun|]);
        (split; [fewer_turns|]);
        (split; [still_no_dead Dt Dv | reflexivity]).
    - exists (VMark i). eexists.
      split; [exact I|]. split; [eapply run_v_mark; eassumption|].
      split; [fewer_turns|]. split; [still_no_dead Dt Dv | reflexivity].
    - exfalso. apply Dv. eapply nth_error_In; eauto. }
  pose proof (holders_nonneg (t_workers s)).
  pose proof (holders_nonneg (v_workers s)).
  destruct (pending TQ (shared s)) as [|x rest] eqn:Ep.
  - destruct (pending VQ (shared s)) as [|y rest] eqn:Ev.
    + exfalso. destruct Hinv as (_ & _ & Hct & Hcv & _).
      rewrite Ep in Hct. rewrite Ev in Hcv. cbn [List.length] in Hct, Hcv.
      unfold work_left, outstanding in *. cbn [queue_of] in *.
      apply orb_true_iff in Hw. destruct Hw as [Hw|Hw];
        apply Z.ltb_lt in Hw; lia.
    + assert (nth_error (v_workers s) 0 = Some WIdle) as Hi
          by (apply first_is_idle; [lia | lia | assumption]).
      exists (VGet 0). eexists.
      split; [exact I|]. split; [eapply run_v_get; eassumption|].
      split; [fewer_turns|]. split; [still_no_dead Dt Dv | reflexivity].
  - assert (nth_error (t_workers s) 0 = Some WIdle) as Hi
        by (apply first_is_idle; [lia | lia | assumption]).
    exists (TGet 0). eexists.
    split; [exact I|]. split; [eapply run_t_get; eassumption|].
    split; [fewer_turns|]. split; [still_no_dead Dt Dv | reflexivity].
Qed.

Lemma drain n_t n_v :
  (1 <= n_t)%nat -> (1 <= n_v)%nat ->
  forall n s,
    turns_left s <= Z.of_nat n ->
    loop_inv s -> pool_inv n_t n_v s -> no_dead s -> orch s <> ODone ->
    exists acts s1,
      Forall good_turn acts /\ run_all acts s = Some s1
      /\ work_left (shared s1) = false /\ orch s1 = orch s
      /\ (List.length acts <= n)%nat.
Proof.
  intros Ht1 Hv1.
  induction n as [|n IH]; intros s Hn Hinv Hpool Hdead Ho;
    destruct (work_left (shared s)) eqn:Hw;
    try (exists [], s; repeat split; [constructor | assumption | cbn; lia]).
  - destruct (progress n_t n_v s Ht1 Hv1 Hinv Hpool Hdead Ho Hw)
      as (a & s' & _ & _ & Hlt & _).
    pose proof (turns_left_nonneg s'). lia.
  - destruct (progress n_t n_v s Ht1 Hv1 Hinv Hpool Hdead Ho Hw)
      as (a & s' & Hgood & Hrun & Hlt & Hdead' & Ho').
    pose proof (loop_inv_exec unicode_Nd float_of_str threshold a s s' Hinv
                              Hrun) as Hinv'.
    pose proof (pool_inv_effect n_t n_v s a s' Hpool
                  (exec_effect unicode_Nd float_of_str threshold a s s' Hinv
                               Hrun)) as Hpool'.
    destruct (IH s') as (acts & s1 & Hall & Hacts & Hw1 & Ho1 & Hlen);
      try assumption; [lia | congruence |].
    exists (a :: acts), s1.
    split; [now constructor|]. split; [cbn [exec_all]; now rewrite Hrun|].
    split; [assumption|]. split; [congruence | cbn [List.length]; lia].
Qed.

Lemma orchestrator_finishes s :
  work_left (shared s) = false ->
  exists k s',
    (k <= 3)%nat /\ run_all (repeat Orch k) s = Some s' /\ orch s' = ODone.
Proof.
  intros Hw. destruct s as [w ts vs o]. cbn [shared] in Hw.
  destruct o.
  - exists 1%nat. eexists. split; [lia|].
    cbn. unfold queues_wait_for_done. cbn. rewrite Hw. split; reflexivity.
  - exists 3%nat. eexists. split; [lia|].
    cbn. unfold queues_wait_for_done. cbn. rewrite Hw. split; reflexivity.
  - exists 2%nat. eexists. split; [lia|].
    cbn. unfold queues_wait_for_done. cbn. rewrite Hw. split; reflexivity.
  - exists 0%nat. eexists. split; [lia|]. split; reflexivity.
Qed.

(** X15.  As long as no worker has ended with an exception and both pools
    have a worker, the run can still complete: from any state it has
    reached there is a schedule of worker turns, no longer than
    [turns_left], in which every external process exits and every
    measurement prints a score, after which no work is left; at most three
    turns of [queues_wait_for_done] then cancel the workers. *)
Theorem run_can_complete_while_no_worker_died :
  forall input_files output_dir init_cq n_transcode_workers n_vmaf_workers s,
    (1 <= n_transcode_workers)%nat -> (1 <= n_vmaf_workers)%nat ->
    reaches (main_start input_files output_dir init_cq
                        n_transcode_workers n_vmaf_workers) s ->
    no_dead s ->
    exists acts s1 k s',
      Forall good_turn acts
      /\ Z.of_nat (List.length acts) <= turns_left s
      /\ run_all acts s = Some s1
      /\ work_left (shared s1) = false
      /\ (k <= 3)%nat
      /\ run_all (repeat Orch k) s1 = Some s'
      /\ orch s' = ODone.
Proof.
  intros input_files output_dir init_cq n_t n_v s Ht1 Hv1 Hs Hdead.
  destruct (reachable_invariant unicode_Nd float_of_str threshold
              (pool_inv n_t n_v) _
              (main_start_inv input_files output_dir init_cq n_t n_v)
              (pool_inv_start input_files output_dir init_cq n_t n_v)
              (fun x a x' _ Hp Heff => pool_inv_effect n_t n_v x a x' Hp Heff)
              s Hs) as (Hinv & Hpool).
  pose proof (turns_left_nonneg s) as Hnn.
  assert (exists acts s1,
             Forall good_turn acts /\ run_all acts s = Some s1
             /\ work_left (shared s1) = false
             /\ (List.length acts <= Z.to_nat (turns_left s))%nat)
    as (acts & s1 & Hall & Hacts & Hw1 & Hlen).
  { destruct (opc_done_dec (orch s)) as [Ho|Ho].
    - exists [], s. split; [constructor|]. split; [reflexivity|].
      split; [|cbn; lia].
      destruct Hinv as (_ & _ & _ & _ & Hdone).
      destruct (Hdone Ho) as (Z1 & Z2 & _).
      unfold work_left, outstanding in *. cbn [queue_of] in *.
      rewrite Z1, Z2. reflexivity.
    - destruct (drain n_t n_v Ht1 Hv1 (Z.to_nat (turns_left s)) s)
        as (acts & s1 & Hall & Hacts & Hw1 & _ & Hlen);
        try assumption; [lia|].
      exists acts, s1. auto. }
  destruct (orchestrator_finishes s1 Hw1) as (k & s' & Hk & Hrun & Hd).
  exists acts, s1, k, s'. repeat split; try assumption. lia.
Qed.

End Progress.

Lemma run_can_complete_witness :
  exists acts s1 k s',
    Forall good_turn acts
    /\ Z.of_nat (List.length acts) <= turns_left example_busy
    /\ exec_all ascii_digits_only exact_decimal (95 # 1) acts example_busy
       = Some s1
    /\ work_left (shared s1) = false
    /\ (k <= 3)%nat
    /\ exec_all ascii_digits_only exact_decimal (95 # 1) (repeat Orch k) s1
       = Some s'
    /\ orch s' = ODone.
Proof.
  apply (run_can_complete_while_no_worker_died
           ascii_digits_only exact_decimal (95 # 1)
           [lit "a.mp4"] DEFAULT_OUT_DIR DEFAULT_CQ_INITIAL 1%nat 1%nat).
  - apply le_n.
  - apply le_n.
  - apply (exec_all_reachable _ _ _ [Orch; TGet 0]). vm_compute. reflexivity.
  - split; cbn; intros [H|[]]; discriminate.
Defined.
